(** * woke IR layer: ContractDefinition and the Yul Switch node

    A shallow embedding of [woke/ast/ir/declaration/contract_definition.py]
    and [woke/ast/ir/yul/switch.py], and the properties of the IR layer that
    rest on them: the child_contracts reverse index kept by the post-process
    and destroy callbacks, node construction from the raw compiler AST,
    subtree iteration, linearized base contracts and the name-span locator.

    Python objects with identity (ContractDefinition instances) live in a
    heap indexed by locations; their mutable [__child_contracts] set is a
    field of the heap record.  Exceptions are values of type [exn] returned
    through the [result] monad. *)

From Stdlib Require Import ZArith Lia Sorted.
From Stdlib.Strings Require Import Byte.
From stdpp Require Import base gmap sets list strings sorting.

Set Default Proof Using "Type".
Set Warnings "-register-all,-clear-no-such-hyp".

(* ================================================================== *)
(** ** Exceptions and the result monad *)

(** The exceptions the two source files raise ([TypeError], [AssertionError],
    [ValueError], [KeyError] of [set.remove]) and the two failures of the
    reference resolver. *)
Inductive exn : Type :=
  | TypeError
  | AssertionError
  | ValueError
  | KeyError
  | DuplicateId
  | DanglingReference.

Inductive result (A : Type) : Type :=
  | Ok (a : A)
  | Raise (e : exn).
Arguments Ok {A} a.
Arguments Raise {A} e.

#[global] Instance result_ret : MRet result := fun A a => Ok a.
#[global] Instance result_bind : MBind result := fun A B f m =>
  match m with
  | Ok a => f a
  | Raise e => Raise e
  end.

#[global] Instance exn_eq_dec : EqDecision exn.
Proof. solve_decision. Defined.

(* ================================================================== *)
(** ** The raw compiler AST ([woke.ast.nodes]) *)

Definition AstNodeId : Type := Z.
Bind Scope Z_scope with AstNodeId.
Definition Path : Type := string.
Definition bytes : Type := list byte.

(** Object identity of a ContractDefinition instance. *)
Definition loc : Type := nat.

(** The classes of the members of a contract body: the union of nine classes
    that is the type of the elements of [SolcContractDefinition.nodes], and
    the nine classes the member loop of the constructor tests for. *)
Inductive MemberClass : Type :=
  | SolcEnumDefinition
  | SolcErrorDefinition
  | SolcEventDefinition
  | SolcFunctionDefinition
  | SolcModifierDefinition
  | SolcStructDefinition
  | SolcUserDefinedValueTypeDefinition
  | SolcUsingForDirective
  | SolcVariableDeclaration.

#[global] Instance MemberClass_eq_dec : EqDecision MemberClass.
Proof. solve_decision. Defined.

(** The classes of the raw Solidity nodes: the member classes, the class of
    structured documentation, and every other class with its node type. *)
Inductive SolcClass : Type :=
  | Member (cls : MemberClass)
  | SolcStructuredDocumentation
  | SolcOtherClass (node_type : string).
Coercion Member : MemberClass >-> SolcClass.

#[global] Instance SolcClass_eq_dec : EqDecision SolcClass.
Proof. solve_decision. Defined.

(** The classes of the raw Yul nodes other than a switch: those that
    switch.py tests for or constructs, and every other class with its node
    type. *)
Inductive YulClass : Type :=
  | YulFunctionCall
  | YulIdentifier
  | YulLiteral
  | YulCase
  | YulOtherClass (node_type : string).

#[global] Instance YulClass_eq_dec : EqDecision YulClass.
Proof. solve_decision. Defined.

(** A raw node.  A Solidity node has a class, an ID and raw children.  A Yul
    node has no ID; a raw switch has an expression and cases.
    [Unexpected e] is a raw node of a variant that is not recognised where it
    stands: a constructor whose file is not among the sources rejects it
    with the exception [e]. *)
Inductive SolcNode : Type :=
  | Solc (cls : SolcClass) (id : AstNodeId) (nodes : list SolcNode)
  | Yul (cls : YulClass) (nodes : list SolcNode)
  | YulSwitch (expression : SolcNode) (cases : list SolcNode)
  | Unexpected (e : exn).

(** The class of a raw node, as [isinstance] sees it. *)
Inductive RawClass : Type :=
  | SolcCls (cls : SolcClass)
  | YulCls (cls : YulClass)
  | YulSwitchCls
  | UnexpectedCls.
Coercion SolcCls : SolcClass >-> RawClass.
Coercion YulCls : YulClass >-> RawClass.

#[global] Instance RawClass_eq_dec : EqDecision RawClass.
Proof. solve_decision. Defined.

Definition solc_class (n : SolcNode) : RawClass :=
  match n with
  | Solc cls _ _ => cls
  | Yul cls _ => cls
  | YulSwitch _ _ => YulSwitchCls
  | Unexpected _ => UnexpectedCls
  end.

(** An element of [SolcContractDefinition.nodes]: a raw node of one of the
    nine member classes. *)
Record SolcMember : Type := {
  member_class : MemberClass;
  member_id : AstNodeId;
  member_nodes : list SolcNode;
}.

Definition member_node (m : SolcMember) : SolcNode :=
  Solc (member_class m) (member_id m) (member_nodes m).
Coercion member_node : SolcMember >-> SolcNode.

(** A Python value found in the [documentation] attribute of a raw contract. *)
Inductive PyObject : Type :=
  | PyNone
  | PyStr (s : string)
  | PyNode (n : SolcNode)
  | PyInt (z : Z).

Inductive ContractKind : Type :=
  | CONTRACT
  | INTERFACE
  | LIBRARY.

#[global] Instance ContractKind_eq_dec : EqDecision ContractKind.
Proof. solve_decision. Defined.

(** [src] of a raw node: byte offset and byte length in the file. *)
Record Src : Type := { byte_offset : nat; byte_length : nat }.

Record SolcInheritanceSpecifier : Type := {
  sis_id : AstNodeId;
  sis_src : Src;
  (** [base_name.referenced_declaration] of the raw specifier *)
  sis_referenced_declaration : AstNodeId;
  (** the raw base name and the raw arguments *)
  sis_nodes : list SolcNode;
}.

Record SolcContractDefinition : Type := {
  sc_id : AstNodeId;
  sc_src : Src;
  sc_name : string;
  sc_abstract : bool;
  sc_contract_kind : ContractKind;
  sc_fully_implemented : option bool;
  sc_linearized_base_contracts : list AstNodeId;
  sc_documentation : PyObject;
  sc_base_contracts : list SolcInheritanceSpecifier;
  sc_nodes : list SolcMember;
}.

(* ================================================================== *)
(** ** IR nodes *)

(** The IR classes of the Solidity nodes constructed by
    contract_definition.py, and every other one with its raw class. *)
Inductive IrClass : Type :=
  | EnumDefinition
  | ErrorDefinition
  | EventDefinition
  | FunctionDefinition
  | ModifierDefinition
  | StructDefinition
  | StructuredDocumentation
  | UserDefinedValueTypeDefinition
  | UsingForDirective
  | VariableDeclaration
  | IrOtherClass (raw : SolcClass).

#[global] Instance IrClass_eq_dec : EqDecision IrClass.
Proof. solve_decision. Defined.

(** The IR classes of the Yul nodes constructed by switch.py, and every
    other one with its node type. *)
Inductive YulIrClass : Type :=
  | FunctionCall
  | Identifier
  | Literal
  | Case
  | YulIrOtherClass (node_type : string).

#[global] Instance YulIrClass_eq_dec : EqDecision YulIrClass.
Proof. solve_decision. Defined.

(** An IR node other than a contract or an inheritance specifier.  [Switch]
    is the class of switch.py.  [Ir] and [YulIr] stand for the node classes
    whose files are outside this development: a class and the owned
    children, and for a Solidity node the ID of the raw node. *)
Inductive IrAbc : Type :=
  | Ir (cls : IrClass) (id : AstNodeId) (children : list IrAbc)
  | YulIr (cls : YulIrClass) (children : list IrAbc)
  | Switch (__expression : IrAbc) (__cases : list IrAbc).

Record InheritanceSpecifier : Type := {
  is_id : AstNodeId;
  is_source : bytes;
  (** the ID behind [base_name.referenced_declaration] *)
  is_referenced_declaration : AstNodeId;
  is_children : list IrAbc;
}.

Inductive Documentation : Type :=
  | DocStructured (doc : IrAbc)
  | DocStr (s : string).

Record ContractDefinition : Type := {
  (** attributes set by the base classes IrAbc and DeclarationAbc *)
  _ast_node : SolcContractDefinition;
  _parent : AstNodeId;
  _file : Path;
  _cu_hash : string;
  _source : bytes;
  _name : string;
  (** attributes set by [ContractDefinition.__init__] *)
  __abstract : bool;
  __base_contracts : list InheritanceSpecifier;
  __kind : ContractKind;
  __fully_implemented : option bool;
  __linearized_base_contracts : list AstNodeId;
  __documentation : option Documentation;
  __enums : list IrAbc;
  __errors : list IrAbc;
  __events : list IrAbc;
  __functions : list IrAbc;
  __modifiers : list IrAbc;
  __structs : list IrAbc;
  __user_defined_value_types : list IrAbc;
  __using_for_directives : list IrAbc;
  __declared_variables : list IrAbc;
  __child_contracts : gset loc;
}.

(** Modelled from the spec: [byte_location] of the base class IrAbc, "a
    byte-range into its source file": the raw node's offset and
    offset + length. *)
Definition byte_location (c : ContractDefinition) : Z * Z :=
  let s := sc_src (_ast_node c) in
  (Z.of_nat (byte_offset s), Z.of_nat (byte_offset s + byte_length s)).

(** Python's [b[start:stop]] for [0 <= start]: at most [stop - start] bytes
    from [start] on, fewer when [b] ends before [stop]. *)
Definition slice (b : bytes) (start stop : nat) : bytes :=
  take (stop - start) (drop start b).

(* ================================================================== *)
(** ** The reference resolver *)

(** What an ID is bound to: a contract object, or a node of another class. *)
Inductive IrRef : Type :=
  | RefContract (l : loc)
  | RefIr (cls : IrClass).

Record Registered : Type := { reg_file : Path; reg_node : IrRef }.

(** [partial(self.__destroy, base_contracts)] *)
Record DestroyCallback : Type := {
  destroy_self : loc;
  destroy_base_contracts : list loc;
}.

(** The session: the heap of contract objects, the three structures of the
    resolver, and the [lru_cache] of [declaration_string]. *)
Record State : Type := {
  heap : gmap loc ContractDefinition;
  nodes_by_id : gmap (string * AstNodeId) Registered;
  (** bound methods [self.__post_process], by [self] *)
  post_process_queue : list loc;
  destroy_queue : gmap Path (list DestroyCallback);
  declaration_string_cache : gmap loc string;
}.

Definition empty_session : State :=
  {| heap := ∅; nodes_by_id := ∅; post_process_queue := [];
     destroy_queue := ∅; declaration_string_cache := ∅ |}.

(** [IrInitTuple]: the file, its bytes and the compilation unit; the
    resolver it carries is the [State]. *)
Record IrInitTuple : Type := {
  init_file : Path;
  init_source : bytes;
  init_cu_hash : string;
}.

Definition set_heap (h : gmap loc ContractDefinition) (st : State) : State :=
  {| heap := h; nodes_by_id := nodes_by_id st;
     post_process_queue := post_process_queue st;
     destroy_queue := destroy_queue st;
     declaration_string_cache := declaration_string_cache st |}.

Definition set_nodes_by_id (m : gmap (string * AstNodeId) Registered)
    (st : State) : State :=
  {| heap := heap st; nodes_by_id := m;
     post_process_queue := post_process_queue st;
     destroy_queue := destroy_queue st;
     declaration_string_cache := declaration_string_cache st |}.

Definition set_post_process_queue (q : list loc) (st : State) : State :=
  {| heap := heap st; nodes_by_id := nodes_by_id st;
     post_process_queue := q;
     destroy_queue := destroy_queue st;
     declaration_string_cache := declaration_string_cache st |}.

Definition set_destroy_queue (q : gmap Path (list DestroyCallback))
    (st : State) : State :=
  {| heap := heap st; nodes_by_id := nodes_by_id st;
     post_process_queue := post_process_queue st;
     destroy_queue := q;
     declaration_string_cache := declaration_string_cache st |}.

Definition set_declaration_string_cache (m : gmap loc string)
    (st : State) : State :=
  {| heap := heap st; nodes_by_id := nodes_by_id st;
     post_process_queue := post_process_queue st;
     destroy_queue := destroy_queue st;
     declaration_string_cache := m |}.

Module ReferenceResolver.

(** Modelled from the spec: reference_resolver.py is not among the sources.
    [register_node] "records a newly constructed node; fails if the ID is
    already bound within the same compilation unit". *)
Definition register_node (cu : string) (id : AstNodeId) (file : Path)
    (node : IrRef) (st : State) : result State :=
  match nodes_by_id st !! (cu, id) with
  | Some _ => Raise DuplicateId
  | None =>
      Ok (set_nodes_by_id
            (<[(cu, id) := {| reg_file := file; reg_node := node |}]>
               (nodes_by_id st)) st)
  end.

(** Modelled from the spec: [resolve(id, unit)] "looks up a previously
    registered node; fails with a dangling reference error if absent". *)
Definition resolve_node (id : AstNodeId) (cu : string) (st : State)
    : result IrRef :=
  match nodes_by_id st !! (cu, id) with
  | Some r => Ok (reg_node r)
  | None => Raise DanglingReference
  end.

(** Modelled from the spec: [register_post_process_callback(fn)] enqueues
    [fn]; callbacks run in registration order. *)
Definition register_post_process_callback (self : loc) (st : State) : State :=
  set_post_process_queue (post_process_queue st ++ [self]) st.

(** Modelled from the spec: [register_destroy_callback(file, fn)] enqueues
    [fn] to run when [file] is invalidated. *)
Definition register_destroy_callback (file : Path) (fn : DestroyCallback)
    (st : State) : State :=
  set_destroy_queue
    (<[file := default [] (destroy_queue st !! file) ++ [fn]]>
       (destroy_queue st)) st.

End ReferenceResolver.

(* ================================================================== *)
(** ** Node construction *)

Section construct_each.
Context {A B : Type} (f : A -> State -> result (B * State)).

(** A loop that constructs one node per raw node, in order, threading the
    session. *)
Fixpoint construct_each (l : list A) (st : State) : result (list B * State) :=
  match l with
  | [] => Ok ([], st)
  | a :: l' =>
      '(b, st) ← f a st;
      '(bs, st) ← construct_each l' st;
      Ok (b :: bs, st)
  end.

End construct_each.

Definition isinstance (n : SolcNode) (cls : RawClass) : bool :=
  bool_decide (solc_class n = cls).

Definition ir_class (cls : SolcClass) : IrClass :=
  match cls with
  | Member SolcEnumDefinition => EnumDefinition
  | Member SolcErrorDefinition => ErrorDefinition
  | Member SolcEventDefinition => EventDefinition
  | Member SolcFunctionDefinition => FunctionDefinition
  | Member SolcModifierDefinition => ModifierDefinition
  | Member SolcStructDefinition => StructDefinition
  | Member SolcUserDefinedValueTypeDefinition => UserDefinedValueTypeDefinition
  | Member SolcUsingForDirective => UsingForDirective
  | Member SolcVariableDeclaration => VariableDeclaration
  | SolcStructuredDocumentation => StructuredDocumentation
  | SolcOtherClass _ => IrOtherClass cls
  end.

Definition yul_ir_class (cls : YulClass) : YulIrClass :=
  match cls with
  | YulFunctionCall => FunctionCall
  | YulIdentifier => Identifier
  | YulLiteral => Literal
  | YulCase => Case
  | YulOtherClass node_type => YulIrOtherClass node_type
  end.

Module Switch.

(** [Switch.__init__(init, switch, parent)], with the constructors of
    FunctionCall, Identifier, Literal and Case (other files) as [child].
    [super().__init__] is the constructor of a Yul node: the Yul nodes have
    no ID and are not registered with the resolver. *)
Definition __init__ (child : SolcNode -> State -> result (IrAbc * State))
    (init : IrInitTuple) (expression : SolcNode) (cases : list SolcNode)
    (st : State) : result (IrAbc * State) :=
  '(expr, st) ←
    (if isinstance expression YulFunctionCall then child expression st
     else if isinstance expression YulIdentifier then child expression st
     else if isinstance expression YulLiteral then child expression st
     else Raise AssertionError);
  '(cs, st) ← construct_each child cases st;
  Ok (Switch expr cs, st).

(** [Switch.__iter__], with the iteration of the expression and of the cases
    (classes of other files) as [iter]. *)
Definition __iter__ (iter : IrAbc -> list IrAbc) (self : IrAbc)
    (expression : IrAbc) (cases : list IrAbc) : list IrAbc :=
  [self] ++ iter expression ++ flat_map iter cases.

(** [Switch.cases] *)
Definition cases (__cases : list IrAbc) : list IrAbc := __cases.

(** [Switch.expression] *)
Definition expression (__expression : IrAbc) : IrAbc := __expression.

End Switch.

(** Modelled from the spec: [__iter__] of the node classes whose files are
    not among the sources, "a lazy, finite, depth-first pre-order sequence of
    self followed by every descendant".  A switch iterates by
    [Switch.__iter__]. *)
Fixpoint iterate (n : IrAbc) : list IrAbc :=
  match n with
  | Ir _ _ children => n :: flat_map iterate children
  | YulIr _ children => n :: flat_map iterate children
  | Switch expression cases => Switch.__iter__ iterate n expression cases
  end.

(** Modelled from the spec: the constructors of the node classes whose files
    are not among the sources.  "Constructing a node [...] is expected to
    synchronously construct all syntactic children (own them)";
    [nodes_by_id] is "populated as each node is constructed", but the Yul
    sub-IR "needs no resolver interaction"; and "an unrecognized raw-node
    variant where one is structurally expected is a fatal
    internal-consistency error": the exception is the one the raw tree
    carries at that place.  A raw switch is constructed by
    [Switch.__init__]. *)
Fixpoint construct (init : IrInitTuple) (raw : SolcNode) (st : State)
    {struct raw} : result (IrAbc * State) :=
  match raw with
  | Solc cls id nodes =>
      st ← ReferenceResolver.register_node (init_cu_hash init) id
             (init_file init) (RefIr (ir_class cls)) st;
      '(children, st) ← construct_each (construct init) nodes st;
      Ok (Ir (ir_class cls) id children, st)
  | Yul cls nodes =>
      '(children, st) ← construct_each (construct init) nodes st;
      Ok (YulIr (yul_ir_class cls) children, st)
  | YulSwitch expression cases =>
      Switch.__init__ (construct init) init expression cases st
  | Unexpected e => Raise e
  end.

(** Modelled from the spec: [InheritanceSpecifier(init, base_contract, self)]
    of inheritance_specifier.py, "syntactic only": it holds "an unresolved
    ID, not yet a node reference". *)
Definition InheritanceSpecifier___init__ (init : IrInitTuple)
    (raw : SolcInheritanceSpecifier) (st : State)
    : result (InheritanceSpecifier * State) :=
  st ← ReferenceResolver.register_node (init_cu_hash init) (sis_id raw)
         (init_file init)
         (RefIr (IrOtherClass (SolcOtherClass "InheritanceSpecifier"))) st;
  '(children, st) ← construct_each (construct init) (sis_nodes raw) st;
  Ok ({| is_id := sis_id raw;
         is_source := slice (init_source init) (byte_offset (sis_src raw))
                        (byte_offset (sis_src raw) + byte_length (sis_src raw));
         is_referenced_declaration := sis_referenced_declaration raw;
         is_children := children |}, st).

(* ================================================================== *)
(** ** Python's [re] on bytes patterns *)

Module re.

(** Spans of the groups that took part in a match, latest first. *)
Definition captures : Type := list (string * (nat * nat)).

(** The constructs the patterns of [_parse_name_location] are made of. *)
Inductive regex : Type :=
  | Bol                               (* ^ *)
  | Class (p : byte -> bool)          (* \s, [a-zA-Z$_] *)
  | Lit (w : bytes)                   (* contract *)
  | Seq (r1 r2 : regex)
  | Opt (r : regex)                   (* r? *)
  | Star (p : byte -> bool)           (* [..]*, \s* *)
  | Plus (p : byte -> bool)           (* \s+ *)
  | Group (name : string) (r : regex) (* (r), (?P<name>r) *).

(** [\s] of a bytes pattern: [ \t\n\r\f\v]. *)
Definition space (b : byte) : bool :=
  match b with
  | x20 | x09 | x0a | x0d | x0c | x0b => true
  | _ => false
  end.

Definition in_range (lo hi : N) (b : byte) : bool :=
  (lo <=? Byte.to_N b)%N && (Byte.to_N b <=? hi)%N.

(** [[a-zA-Z$_]] *)
Definition identifier_start (b : byte) : bool :=
  in_range 97 122 b || in_range 65 90 b
  || Byte.eqb b x24 || Byte.eqb b x5f.

(** [[a-zA-Z0-9$_]] *)
Definition identifier_part (b : byte) : bool :=
  in_range 97 122 b || in_range 65 90 b || in_range 48 57 b
  || Byte.eqb b x24 || Byte.eqb b x5f.

(** [w] at the head of [s]: what follows it. *)
Fixpoint strip_prefix (w s : bytes) : option bytes :=
  match w, s with
  | [], _ => Some s
  | a :: w', b :: s' => if Byte.eqb a b then strip_prefix w' s' else None
  | _ :: _, [] => None
  end.

Section run.
Context (p : byte -> bool) (k : bytes -> nat -> option captures).

(** A greedy repetition of a class: the longest run first, then shorter
    ones. *)
Fixpoint star (s : bytes) (pos : nat) : option captures :=
  match s with
  | b :: s' =>
      if p b then
        match star s' (S pos) with
        | Some c => Some c
        | None => k s pos
        end
      else k s pos
  | [] => k s pos
  end.

End run.

(** The backtracking matcher: [run r s pos caps k] matches [r] at the head
    of [s], which starts at offset [pos] of the subject, and goes on with
    [k]; alternatives are tried in the order of the engine (greedy first). *)
Fixpoint run (r : regex) (s : bytes) (pos : nat) (caps : captures)
    (k : bytes -> nat -> captures -> option captures) : option captures :=
  match r with
  | Bol => if decide (pos = 0) then k s pos caps else None
  | Class p =>
      match s with
      | b :: s' => if p b then k s' (S pos) caps else None
      | [] => None
      end
  | Lit w =>
      match strip_prefix w s with
      | Some s' => k s' (pos + length w) caps
      | None => None
      end
  | Seq r1 r2 => run r1 s pos caps (λ s' pos' caps', run r2 s' pos' caps' k)
  | Opt r =>
      match run r s pos caps k with
      | Some c => Some c
      | None => k s pos caps
      end
  | Star p => star p (λ s' pos', k s' pos' caps) s pos
  | Plus p =>
      match s with
      | b :: s' =>
          if p b then star p (λ s' pos', k s' pos' caps) s' (S pos) else None
      | [] => None
      end
  | Group name r =>
      run r s pos caps (λ s' pos' caps', k s' pos' ((name, (pos, pos')) :: caps'))
  end.

(** [pattern.match(s)]: the groups of the first match at the start of [s],
    [None] when there is none. *)
Definition match_ (pattern : regex) (s : bytes) : option captures :=
  run pattern s 0 [] (λ _ _ caps, Some caps).

Fixpoint group (m : captures) (name : string) : option (nat * nat) :=
  match m with
  | [] => None
  | (n, span) :: m' => if decide (n = name) then Some span else group m' name
  end.

(** [match.start(name)], [-1] for a group that took no part. *)
Definition start (m : captures) (name : string) : Z :=
  match group m name with
  | Some (i, _) => Z.of_nat i
  | None => (-1)%Z
  end.

(** [match.end(name)] *)
Definition end_ (m : captures) (name : string) : Z :=
  match group m name with
  | Some (_, j) => Z.of_nat j
  | None => (-1)%Z
  end.

(** [str.encode("utf-8")] of an ASCII pattern. *)
Definition encode (s : string) : bytes := String.list_byte_of_string s.

(** What it means for a pattern to match: [matches r pos w caps caps'] when
    [r] matches exactly the word [w] found at offset [pos] of the subject,
    taking the group spans from [caps] to [caps']. *)
Inductive matches : regex -> nat -> bytes -> captures -> captures -> Prop :=
  | matches_Bol caps : matches Bol 0 [] caps caps
  | matches_Class p pos b caps :
      p b = true -> matches (Class p) pos [b] caps caps
  | matches_Lit w pos caps : matches (Lit w) pos w caps caps
  | matches_Seq r1 r2 pos w1 w2 caps caps1 caps2 :
      matches r1 pos w1 caps caps1 ->
      matches r2 (pos + length w1) w2 caps1 caps2 ->
      matches (Seq r1 r2) pos (w1 ++ w2) caps caps2
  | matches_Opt_some r pos w caps caps' :
      matches r pos w caps caps' -> matches (Opt r) pos w caps caps'
  | matches_Opt_none r pos caps : matches (Opt r) pos [] caps caps
  | matches_Star p pos w caps :
      forallb p w = true -> matches (Star p) pos w caps caps
  | matches_Plus p pos b w caps :
      p b = true -> forallb p w = true ->
      matches (Plus p) pos (b :: w) caps caps
  | matches_Group name r pos w caps caps' :
      matches r pos w caps caps' ->
      matches (Group name r) pos w caps
        ((name, (pos, pos + length w)) :: caps').

(** A continuation whose success does not depend on the groups. *)
Definition groups_irrelevant
    (k : bytes -> nat -> captures -> option captures) : Prop :=
  forall s pos caps caps', is_Some (k s pos caps) -> is_Some (k s pos caps').

End re.

(* ================================================================== *)
(** ** ContractDefinition *)

(** The nine member lists filled by the loop over [contract.nodes]. *)
Record Members : Type := {
  m_enums : list IrAbc;
  m_errors : list IrAbc;
  m_events : list IrAbc;
  m_functions : list IrAbc;
  m_modifiers : list IrAbc;
  m_structs : list IrAbc;
  m_user_defined_value_types : list IrAbc;
  m_using_for_directives : list IrAbc;
  m_declared_variables : list IrAbc;
}.

Definition no_members : Members :=
  {| m_enums := []; m_errors := []; m_events := []; m_functions := [];
     m_modifiers := []; m_structs := []; m_user_defined_value_types := [];
     m_using_for_directives := []; m_declared_variables := [] |}.

(** [contract.__child_contracts = s], every other attribute kept. *)
Definition with_child_contracts (s : gset loc) (c : ContractDefinition)
    : ContractDefinition :=
  {| _ast_node := _ast_node c; _parent := _parent c; _file := _file c;
     _cu_hash := _cu_hash c; _source := _source c; _name := _name c;
     __abstract := __abstract c; __base_contracts := __base_contracts c;
     __kind := __kind c; __fully_implemented := __fully_implemented c;
     __linearized_base_contracts := __linearized_base_contracts c;
     __documentation := __documentation c;
     __enums := __enums c; __errors := __errors c; __events := __events c;
     __functions := __functions c; __modifiers := __modifiers c;
     __structs := __structs c;
     __user_defined_value_types := __user_defined_value_types c;
     __using_for_directives := __using_for_directives c;
     __declared_variables := __declared_variables c;
     __child_contracts := s |}.

(** What iteration yields: any IR object. *)
Inductive Node : Type :=
  | NContract (c : ContractDefinition)
  | NSpecifier (s : InheritanceSpecifier)
  | NIr (n : IrAbc).

Module ContractDefinition.

(** One turn of [for node in contract.nodes]: the [isinstance] chain of
    lines 110-129.  The chain has no [else] branch: a node that passes none
    of the nine tests is left out. *)
Definition add_member (init : IrInitTuple) (node : SolcMember) (m : Members)
    (st : State) : result (Members * State) :=
  if isinstance node SolcEnumDefinition then
    '(n, st) ← construct init node st;
    Ok ({| m_enums := m_enums m ++ [n]; m_errors := m_errors m;
           m_events := m_events m; m_functions := m_functions m;
           m_modifiers := m_modifiers m; m_structs := m_structs m;
           m_user_defined_value_types := m_user_defined_value_types m;
           m_using_for_directives := m_using_for_directives m;
           m_declared_variables := m_declared_variables m |}, st)
  else if isinstance node SolcErrorDefinition then
    '(n, st) ← construct init node st;
    Ok ({| m_enums := m_enums m; m_errors := m_errors m ++ [n];
           m_events := m_events m; m_functions := m_functions m;
           m_modifiers := m_modifiers m; m_structs := m_structs m;
           m_user_defined_value_types := m_user_defined_value_types m;
           m_using_for_directives := m_using_for_directives m;
           m_declared_variables := m_declared_variables m |}, st)
  else if isinstance node SolcEventDefinition then
    '(n, st) ← construct init node st;
    Ok ({| m_enums := m_enums m; m_errors := m_errors m;
           m_events := m_events m ++ [n]; m_functions := m_functions m;
           m_modifiers := m_modifiers m; m_structs := m_structs m;
           m_user_defined_value_types := m_user_defined_value_types m;
           m_using_for_directives := m_using_for_directives m;
           m_declared_variables := m_declared_variables m |}, st)
  else if isinstance node SolcFunctionDefinition then
    '(n, st) ← construct init node st;
    Ok ({| m_enums := m_enums m; m_errors := m_errors m;
           m_events := m_events m; m_functions := m_functions m ++ [n];
           m_modifiers := m_modifiers m; m_structs := m_structs m;
           m_user_defined_value_types := m_user_defined_value_types m;
           m_using_for_directives := m_using_for_directives m;
           m_declared_variables := m_declared_variables m |}, st)
  else if isinstance node SolcModifierDefinition then
    '(n, st) ← construct init node st;
    Ok ({| m_enums := m_enums m; m_errors := m_errors m;
           m_events := m_events m; m_functions := m_functions m;
           m_modifiers := m_modifiers m ++ [n]; m_structs := m_structs m;
           m_user_defined_value_types := m_user_defined_value_types m;
           m_using_for_directives := m_using_for_directives m;
           m_declared_variables := m_declared_variables m |}, st)
  else if isinstance node SolcStructDefinition then
    '(n, st) ← construct init node st;
    Ok ({| m_enums := m_enums m; m_errors := m_errors m;
           m_events := m_events m; m_functions := m_functions m;
           m_modifiers := m_modifiers m; m_structs := m_structs m ++ [n];
           m_user_defined_value_types := m_user_defined_value_types m;
           m_using_for_directives := m_using_for_directives m;
           m_declared_variables := m_declared_variables m |}, st)
  else if isinstance node SolcUserDefinedValueTypeDefinition then
    '(n, st) ← construct init node st;
    Ok ({| m_enums := m_enums m; m_errors := m_errors m;
           m_events := m_events m; m_functions := m_functions m;
           m_modifiers := m_modifiers m; m_structs := m_structs m;
           m_user_defined_value_types := m_user_defined_value_types m ++ [n];
           m_using_for_directives := m_using_for_directives m;
           m_declared_variables := m_declared_variables m |}, st)
  else if isinstance node SolcUsingForDirective then
    '(n, st) ← construct init node st;
    Ok ({| m_enums := m_enums m; m_errors := m_errors m;
           m_events := m_events m; m_functions := m_functions m;
           m_modifiers := m_modifiers m; m_structs := m_structs m;
           m_user_defined_value_types := m_user_defined_value_types m;
           m_using_for_directives := m_using_for_directives m ++ [n];
           m_declared_variables := m_declared_variables m |}, st)
  else if isinstance node SolcVariableDeclaration then
    '(n, st) ← construct init node st;
    Ok ({| m_enums := m_enums m; m_errors := m_errors m;
           m_events := m_events m; m_functions := m_functions m;
           m_modifiers := m_modifiers m; m_structs := m_structs m;
           m_user_defined_value_types := m_user_defined_value_types m;
           m_using_for_directives := m_using_for_directives m;
           m_declared_variables := m_declared_variables m ++ [n] |}, st)
  else Ok (m, st).

(** [for node in contract.nodes: ...] *)
Fixpoint add_members (init : IrInitTuple) (nodes : list SolcMember)
    (m : Members) (st : State) : result (Members * State) :=
  match nodes with
  | [] => Ok (m, st)
  | node :: nodes' =>
      '(m, st) ← add_member init node m st;
      add_members init nodes' m st
  end.

(** The dispatch on [contract.documentation], lines 79-90. *)
Definition init_documentation (init : IrInitTuple) (documentation : PyObject)
    (st : State) : result (option Documentation * State) :=
  match documentation with
  | PyNone => Ok (None, st)
  | PyNode n =>
      if isinstance n SolcStructuredDocumentation then
        '(d, st) ← construct init n st;
        Ok (Some (DocStructured d), st)
      else Raise TypeError
  | PyStr s => Ok (Some (DocStr s), st)
  | PyInt _ => Raise TypeError
  end.

(** [ContractDefinition.__init__(init, contract, parent)]: returns the new
    object's identity.  The object is complete, and stored, when the
    constructor returns. *)
Definition __init__ (init : IrInitTuple) (contract : SolcContractDefinition)
    (parent : AstNodeId) (st : State) : result (loc * State) :=
  let self : loc := fresh (dom (heap st)) in
  (* super().__init__(init, contract, parent) *)
  st ← ReferenceResolver.register_node (init_cu_hash init) (sc_id contract)
         (init_file init) (RefContract self) st;
  '(documentation, st) ← init_documentation init (sc_documentation contract) st;
  '(base_contracts, st) ←
     construct_each (InheritanceSpecifier___init__ init)
       (sc_base_contracts contract) st;
  '(m, st) ← add_members init (sc_nodes contract) no_members st;
  let object :=
    {| _ast_node := contract; _parent := parent; _file := init_file init;
       _cu_hash := init_cu_hash init;
       _source := slice (init_source init) (byte_offset (sc_src contract))
                    (byte_offset (sc_src contract)
                     + byte_length (sc_src contract));
       _name := sc_name contract;
       __abstract := sc_abstract contract;
       __base_contracts := base_contracts;
       __kind := sc_contract_kind contract;
       __fully_implemented := sc_fully_implemented contract;
       __linearized_base_contracts := sc_linearized_base_contracts contract;
       __documentation := documentation;
       __enums := m_enums m; __errors := m_errors m; __events := m_events m;
       __functions := m_functions m; __modifiers := m_modifiers m;
       __structs := m_structs m;
       __user_defined_value_types := m_user_defined_value_types m;
       __using_for_directives := m_using_for_directives m;
       __declared_variables := m_declared_variables m;
       __child_contracts := ∅ |} in
  let st := set_heap (<[self := object]> (heap st)) st in
  Ok (self, ReferenceResolver.register_post_process_callback self st).

(** The loop of [__post_process], lines 160-164; [base_contracts] is the
    list being appended to. *)
Fixpoint post_process_loop (self : loc) (cu : string)
    (specifiers : list InheritanceSpecifier) (base_contracts : list loc)
    (st : State) : result (list loc * State) :=
  match specifiers with
  | [] => Ok (base_contracts, st)
  | base_contract :: specifiers' =>
      (* contract = base_contract.base_name.referenced_declaration *)
      r ← ReferenceResolver.resolve_node
            (is_referenced_declaration base_contract) cu st;
      (* assert isinstance(contract, ContractDefinition) *)
      match r with
      | RefContract contract =>
          match heap st !! contract with
          | Some c =>
              (* contract.__child_contracts.add(self) *)
              let c' := with_child_contracts ({[self]} ∪ __child_contracts c) c in
              let st := set_heap (<[contract := c']> (heap st)) st in
              post_process_loop self cu specifiers'
                (base_contracts ++ [contract]) st
          | None => Raise AssertionError
          end
      | RefIr _ => Raise AssertionError
      end
  end.

(** [ContractDefinition.__post_process(self, callback_params)].  A location
    that holds no object stands for no Python reference; the model fails
    there as the nearest check of the source would. *)
Definition __post_process (self : loc) (st : State) : result State :=
  match heap st !! self with
  | Some c =>
      '(base_contracts, st) ←
         post_process_loop self (_cu_hash c) (__base_contracts c) [] st;
      Ok (ReferenceResolver.register_destroy_callback (_file c)
            {| destroy_self := self;
               destroy_base_contracts := base_contracts |} st)
  | None => Raise AssertionError
  end.

(** [ContractDefinition.__destroy(self, base_contracts)]: [set.remove]
    raises KeyError when the element is absent (and the model treats a
    location that holds no object as an empty set). *)
Fixpoint __destroy (self : loc) (base_contracts : list loc) (st : State)
    : result State :=
  match base_contracts with
  | [] => Ok st
  | base_contract :: base_contracts' =>
      match heap st !! base_contract with
      | Some c =>
          if decide (self ∈ __child_contracts c) then
            let c' := with_child_contracts (__child_contracts c ∖ {[self]}) c in
            __destroy self base_contracts'
              (set_heap (<[base_contract := c']> (heap st)) st)
          else Raise KeyError
      | None => Raise KeyError
      end
  end.

(** Modelled from the spec: [InheritanceSpecifier.__iter__], the specifier
    followed by the subtrees of its children. *)
Definition iter_specifier (s : InheritanceSpecifier) : list Node :=
  NSpecifier s :: flat_map (λ n, NIr <$> iterate n) (is_children s).

(** [yield from node] for a node of the generic classes *)
Definition yield_from (n : IrAbc) : list Node := NIr <$> iterate n.

(** [ContractDefinition.__iter__], lines 133-156. *)
Definition __iter__ (self : ContractDefinition) : list Node :=
  [NContract self]
  ++ flat_map iter_specifier (__base_contracts self)
  ++ match __documentation self with
     | Some (DocStructured d) => yield_from d
     | _ => []
     end
  ++ flat_map yield_from (__enums self)
  ++ flat_map yield_from (__errors self)
  ++ flat_map yield_from (__events self)
  ++ flat_map yield_from (__functions self)
  ++ flat_map yield_from (__modifiers self)
  ++ flat_map yield_from (__structs self)
  ++ flat_map yield_from (__user_defined_value_types self)
  ++ flat_map yield_from (__using_for_directives self)
  ++ flat_map yield_from (__declared_variables self).

(** [IDENTIFIER = r"[a-zA-Z$_][a-zA-Z0-9$_]*"] *)
Definition IDENTIFIER : re.regex :=
  re.Seq (re.Class re.identifier_start) (re.Star re.identifier_part).

(** [r"^\s*(abstract\s)?\s*contract\s+(?P<name>{identifier})"] *)
Definition CONTRACT_RE : re.regex :=
  re.Seq re.Bol
    (re.Seq (re.Star re.space)
       (re.Seq (re.Opt (re.Group "1"
                          (re.Seq (re.Lit (re.encode "abstract"))
                                  (re.Class re.space))))
          (re.Seq (re.Star re.space)
             (re.Seq (re.Lit (re.encode "contract"))
                (re.Seq (re.Plus re.space) (re.Group "name" IDENTIFIER)))))).

(** [r"^\s*interface\s+(?P<name>{identifier})"] *)
Definition INTERFACE_RE : re.regex :=
  re.Seq re.Bol
    (re.Seq (re.Star re.space)
       (re.Seq (re.Lit (re.encode "interface"))
          (re.Seq (re.Plus re.space) (re.Group "name" IDENTIFIER)))).

(** [r"^\s*library\s+(?P<name>{identifier})"] *)
Definition LIBRARY_RE : re.regex :=
  re.Seq re.Bol
    (re.Seq (re.Star re.space)
       (re.Seq (re.Lit (re.encode "library"))
          (re.Seq (re.Plus re.space) (re.Group "name" IDENTIFIER)))).

(** [ContractDefinition.kind] *)
Definition kind (self : ContractDefinition) : ContractKind := __kind self.

(** [ContractDefinition._parse_name_location]; the [else] branch of the
    dispatch on [self.kind] is not reachable for a [ContractKind]. *)
Definition _parse_name_location (self : ContractDefinition)
    : result (Z * Z) :=
  let match_ :=
    match kind self with
    | CONTRACT => re.match_ CONTRACT_RE (_source self)
    | INTERFACE => re.match_ INTERFACE_RE (_source self)
    | LIBRARY => re.match_ LIBRARY_RE (_source self)
    end in
  (* assert match *)
  match match_ with
  | None => Raise AssertionError
  | Some m =>
      Ok ((byte_location self).1 + re.start m "name",
          (byte_location self).1 + re.end_ m "name")%Z
  end.

(** [ContractDefinition.parent] *)
Definition parent (self : ContractDefinition) : AstNodeId := _parent self.

(** [ContractDefinition.canonical_name] *)
Definition canonical_name (self : ContractDefinition) : string := _name self.

(** [ContractDefinition.abstract] *)
Definition abstract (self : ContractDefinition) : bool := __abstract self.

(** [ContractDefinition.base_contracts]: [tuple(self.__base_contracts)] *)
Definition base_contracts (self : ContractDefinition)
    : list InheritanceSpecifier :=
  __base_contracts self.

(** [ContractDefinition.child_contracts]:
    [frozenset(self.__child_contracts)] *)
Definition child_contracts (self : ContractDefinition) : gset loc :=
  __child_contracts self.

(** [ContractDefinition.fully_implemented] *)
Definition fully_implemented (self : ContractDefinition) : option bool :=
  __fully_implemented self.

(** The loop of [linearized_base_contracts], lines 262-266. *)
Fixpoint resolve_contracts (ids : list AstNodeId) (cu : string) (st : State)
    : result (list loc) :=
  match ids with
  | [] => Ok []
  | base_contract :: ids' =>
      node ← ReferenceResolver.resolve_node base_contract cu st;
      (* assert isinstance(node, ContractDefinition) *)
      match node with
      | RefContract l =>
          base_contracts ← resolve_contracts ids' cu st;
          Ok (l :: base_contracts)
      | RefIr _ => Raise AssertionError
      end
  end.

(** [ContractDefinition.linearized_base_contracts] *)
Definition linearized_base_contracts (self : ContractDefinition) (st : State)
    : result (list loc) :=
  resolve_contracts (__linearized_base_contracts self) (_cu_hash self) st.

(** [ContractDefinition.documentation] *)
Definition documentation (self : ContractDefinition) : option Documentation :=
  __documentation self.

(** [ContractDefinition.enums] and the eight properties after it. *)
Definition enums (self : ContractDefinition) : list IrAbc := __enums self.
Definition errors (self : ContractDefinition) : list IrAbc := __errors self.
Definition events (self : ContractDefinition) : list IrAbc := __events self.
Definition functions (self : ContractDefinition) : list IrAbc :=
  __functions self.
Definition modifiers (self : ContractDefinition) : list IrAbc :=
  __modifiers self.
Definition structs (self : ContractDefinition) : list IrAbc := __structs self.
Definition user_defined_value_types (self : ContractDefinition)
    : list IrAbc :=
  __user_defined_value_types self.
Definition using_for_directives (self : ContractDefinition) : list IrAbc :=
  __using_for_directives self.
Definition declared_variables (self : ContractDefinition) : list IrAbc :=
  __declared_variables self.

(** Modelled from the spec: [EnumDefinition.values], the enum values an enum
    owns ("enum values flattened in, in addition to the enums themselves"). *)
Definition values (enum : IrAbc) : list IrAbc :=
  match enum with
  | Ir _ _ children => children
  | YulIr _ _ | Switch _ _ => []
  end.

(** [ContractDefinition.declarations] *)
Definition declarations (self : ContractDefinition) : list IrAbc :=
  enums self
  ++ flat_map values (enums self)
  ++ errors self
  ++ events self
  ++ functions self
  ++ modifiers self
  ++ structs self
  ++ user_defined_value_types self
  ++ declared_variables self.

Section declaration_string.
(** [str(kind)], [str.splitlines], [StructuredDocumentation.text] and
    [bytes.decode]: library functions and an attribute of another file. *)
Context (str_kind : ContractKind -> string)
        (splitlines : string -> list string)
        (text : IrAbc -> string)
        (decode : bytes -> string).

Definition newline : string := String (Ascii.ascii_of_nat 10) EmptyString.

(** The body of [declaration_string], lines 217-238. *)
Definition declaration_string_body (self : ContractDefinition) : string :=
  let ret :=
    ((if abstract self then "abstract " else "")
     +:+ str_kind (kind self) +:+ " " +:+ _name self)%string in
  let ret :=
    (ret +:+ (if (0 <? length (base_contracts self))%nat then
                " is " +:+ String.concat ", "
                             ((λ spec, decode (is_source spec))
                                <$> base_contracts self)
              else ""))%string in
  match documentation self with
  | Some (DocStructured d) =>
      ("/// " +:+ String.concat (newline +:+ "///") (splitlines (text d))
       +:+ newline +:+ ret)%string
  | Some (DocStr s) =>
      ("/// " +:+ String.concat (newline +:+ "///") (splitlines s)
       +:+ newline +:+ ret)%string
  | None => ret
  end.

(** [ContractDefinition.declaration_string], a property under
    [lru_cache(maxsize=None)]: the cache is keyed by [self]. *)
Definition declaration_string (self : loc) (st : State)
    : result (string * State) :=
  match heap st !! self with
  | Some c =>
      match declaration_string_cache st !! self with
      | Some s => Ok (s, st)
      | None =>
          let s := declaration_string_body c in
          Ok (s, set_declaration_string_cache
                   (<[self := s]> (declaration_string_cache st)) st)
      end
  | None => Raise AssertionError
  end.

End declaration_string.

End ContractDefinition.

(* ================================================================== *)
(** ** Values returned to callers *)

(** The values a property of a contract can hand to its caller.  [VList] and
    [VSet] are the list or set object bound to a private attribute of a
    contract: a caller that holds one can mutate the contract through it.
    Tuples and frozensets are immutable copies. *)
Inductive PyValue : Type :=
  | VNone
  | VBool (b : bool)
  | VStr (s : string)
  | VKind (k : ContractKind)
  | VSourceUnit (id : AstNodeId)
  | VContract (l : loc)
  | VSpecifier (s : InheritanceSpecifier)
  | VNode (n : IrAbc)
  | VTuple (items : list PyValue)
  | VFrozenSet (items : gset loc)
  | VGenerator (yields : list PyValue)
  | VList (owner : loc) (attribute : string)
  | VSet (owner : loc) (attribute : string).

(** Whether a value gives access to a mutable container of a contract. *)
Fixpoint exposes_container (v : PyValue) : bool :=
  match v with
  | VList _ _ | VSet _ _ => true
  | VTuple items | VGenerator items => existsb exposes_container items
  | _ => false
  end.

Inductive Property : Type :=
  | P_parent
  | P_canonical_name
  | P_declaration_string
  | P_abstract
  | P_base_contracts
  | P_child_contracts
  | P_kind
  | P_fully_implemented
  | P_linearized_base_contracts
  | P_documentation
  | P_enums
  | P_errors
  | P_events
  | P_functions
  | P_modifiers
  | P_structs
  | P_user_defined_value_types
  | P_using_for_directives
  | P_declared_variables
  | P_declarations.

Section getattr.
Context (str_kind : ContractKind -> string)
        (splitlines : string -> list string)
        (text : IrAbc -> string)
        (decode : bytes -> string).

(** [getattr(self, name)] for the public properties of lines 206-320: the
    value handed to the caller and the session after the call. *)
Definition getattr (self : loc) (name : Property) (st : State)
    : result (PyValue * State) :=
  match heap st !! self with
  | None => Raise AssertionError
  | Some c =>
      match name with
      | P_parent => Ok (VSourceUnit (ContractDefinition.parent c), st)
      | P_canonical_name => Ok (VStr (ContractDefinition.canonical_name c), st)
      | P_declaration_string =>
          '(s, st) ← ContractDefinition.declaration_string
                       str_kind splitlines text decode self st;
          Ok (VStr s, st)
      | P_abstract => Ok (VBool (ContractDefinition.abstract c), st)
      | P_base_contracts =>
          Ok (VTuple (VSpecifier <$> ContractDefinition.base_contracts c), st)
      | P_child_contracts =>
          Ok (VFrozenSet (ContractDefinition.child_contracts c), st)
      | P_kind => Ok (VKind (ContractDefinition.kind c), st)
      | P_fully_implemented =>
          Ok (match ContractDefinition.fully_implemented c with
              | Some b => VBool b
              | None => VNone
              end, st)
      | P_linearized_base_contracts =>
          l ← ContractDefinition.linearized_base_contracts c st;
          Ok (VTuple (VContract <$> l), st)
      | P_documentation =>
          Ok (match ContractDefinition.documentation c with
              | Some (DocStructured d) => VNode d
              | Some (DocStr s) => VStr s
              | None => VNone
              end, st)
      | P_enums => Ok (VTuple (VNode <$> ContractDefinition.enums c), st)
      | P_errors => Ok (VTuple (VNode <$> ContractDefinition.errors c), st)
      | P_events => Ok (VTuple (VNode <$> ContractDefinition.events c), st)
      | P_functions =>
          Ok (VTuple (VNode <$> ContractDefinition.functions c), st)
      | P_modifiers =>
          Ok (VTuple (VNode <$> ContractDefinition.modifiers c), st)
      | P_structs => Ok (VTuple (VNode <$> ContractDefinition.structs c), st)
      | P_user_defined_value_types =>
          Ok (VTuple (VNode <$> ContractDefinition.user_defined_value_types c),
              st)
      | P_using_for_directives =>
          Ok (VTuple (VNode <$> ContractDefinition.using_for_directives c), st)
      | P_declared_variables =>
          Ok (VTuple (VNode <$> ContractDefinition.declared_variables c), st)
      | P_declarations =>
          Ok (VGenerator (VNode <$> ContractDefinition.declarations c), st)
      end
  end.

End getattr.

(* ================================================================== *)
(** ** Running the resolver's queues *)

Fixpoint run_callbacks (queue : list loc) (st : State) : result State :=
  match queue with
  | [] => Ok st
  | self :: queue' =>
      st ← ContractDefinition.__post_process self st;
      run_callbacks queue' st
  end.

(** Modelled from the spec: [run_post_process()] "drains and executes
    post_process_queue exactly once per session", in registration order. *)
Definition run_post_process (st : State) : result State :=
  st' ← run_callbacks (post_process_queue st) st;
  Ok (set_post_process_queue [] st').

Fixpoint run_destroy_callbacks (queue : list DestroyCallback) (st : State)
    : result State :=
  match queue with
  | [] => Ok st
  | fn :: queue' =>
      st ← ContractDefinition.__destroy (destroy_self fn)
             (destroy_base_contracts fn) st;
      run_destroy_callbacks queue' st
  end.

(** Modelled from the spec: [invalidate(file)] "drains and executes file's
    destroy-queue entries, then discards that file's ID bindings from
    nodes_by_id". *)
Definition invalidate (file : Path) (st : State) : result State :=
  st' ← run_destroy_callbacks (default [] (destroy_queue st !! file)) st;
  Ok (set_nodes_by_id
        (filter (λ kv, reg_file kv.2 ≠ file) (nodes_by_id st'))
        (set_destroy_queue (delete file (destroy_queue st')) st')).

(** A sequence of file invalidations. *)
Fixpoint invalidate_each (files : list Path) (st : State) : result State :=
  match files with
  | [] => Ok st
  | file :: files' =>
      st ← invalidate file st;
      invalidate_each files' st
  end.

(** Modelled from the spec: the construction of a compilation unit, as far as
    its contracts go: one call of the ContractDefinition constructor per raw
    contract, each with the init tuple of its file, all before
    [run_post_process]. *)
Fixpoint construct_unit
    (unit : list (IrInitTuple * SolcContractDefinition * AstNodeId))
    (st : State) : result State :=
  match unit with
  | [] => Ok st
  | (init, contract, parent) :: unit' =>
      '(_, st) ← ContractDefinition.__init__ init contract parent st;
      construct_unit unit' st
  end.

(* ================================================================== *)
(** ** Ownership: children, positions, descendants *)

(** The nodes a node constructs with itself as parent, in the order in
    which [__iter__] walks them. *)
Definition owned_children (n : Node) : list Node :=
  match n with
  | NContract c =>
      (NSpecifier <$> __base_contracts c)
      ++ match __documentation c with
         | Some (DocStructured d) => [NIr d]
         | _ => []
         end
      ++ (NIr <$> __enums c)
      ++ (NIr <$> __errors c)
      ++ (NIr <$> __events c)
      ++ (NIr <$> __functions c)
      ++ (NIr <$> __modifiers c)
      ++ (NIr <$> __structs c)
      ++ (NIr <$> __user_defined_value_types c)
      ++ (NIr <$> __using_for_directives c)
      ++ (NIr <$> __declared_variables c)
  | NSpecifier s => NIr <$> is_children s
  | NIr (Ir _ _ children) => NIr <$> children
  | NIr (YulIr _ children) => NIr <$> children
  | NIr (Switch expression cases) => NIr expression :: (NIr <$> cases)
  end.

(** The node at a position of the subtree of [n]: a position is the list of
    child indices that leads to it from [n]. *)
Fixpoint node_at (n : Node) (position : list nat) : option Node :=
  match position with
  | [] => Some n
  | i :: position' =>
      match owned_children n !! i with
      | Some child => node_at child position'
      | None => None
      end
  end.

(** Pre-order on positions: a node before its descendants, a subtree before
    the subtrees of later siblings. *)
Inductive position_lt : list nat -> list nat -> Prop :=
  | position_lt_nil i p : position_lt [] (i :: p)
  | position_lt_head i j p q : i < j -> position_lt (i :: p) (j :: q)
  | position_lt_tail i p q : position_lt p q -> position_lt (i :: p) (i :: q).

(** [iterate()] of a node of any class. *)
Definition iterate_node (n : Node) : list Node :=
  match n with
  | NContract c => ContractDefinition.__iter__ c
  | NSpecifier s => ContractDefinition.iter_specifier s
  | NIr n => ContractDefinition.yield_from n
  end.

(** The current contents of the child set of the object at [b]; no object,
    no children. *)
Definition child_contracts_of (st : State) (b : loc) : gset loc :=
  match heap st !! b with
  | Some c => __child_contracts c
  | None => ∅
  end.

(** [c.__child_contracts.remove(self)] as a change of the record. *)
Definition unlink (self : loc) (c : ContractDefinition) : ContractDefinition :=
  with_child_contracts (__child_contracts c ∖ {[self]}) c.

(** [c.__child_contracts.add(self)] as a change of the record. *)
Definition link (self : loc) (c : ContractDefinition) : ContractDefinition :=
  with_child_contracts ({[self]} ∪ __child_contracts c) c.

(** Two records that agree on every attribute but [__child_contracts]. *)
Definition same_but_children (c c' : ContractDefinition) : Prop :=
  with_child_contracts ∅ c = with_child_contracts ∅ c'.

(** What the specifier's base name resolves to, when that is a contract. *)
Definition resolves_to (st : State) (cu : string) (spec : InheritanceSpecifier)
    : option loc :=
  match nodes_by_id st !! (cu, is_referenced_declaration spec) with
  | Some r =>
      match reg_node r with
      | RefContract b => Some b
      | RefIr _ => None
      end
  | None => None
  end.

(** The contracts the inheritance specifiers of [c] resolve to, in order. *)
Definition resolved_bases (st : State) (c : ContractDefinition) : list loc :=
  omap (resolves_to st (_cu_hash c)) (__base_contracts c).

(** [C] directly inherits from [B]: one of the inheritance specifiers of the
    contract at [C] resolves to [B]. *)
Definition inherits (st : State) (C B : loc) : Prop :=
  exists c, heap st !! C = Some c /\ B ∈ resolved_bases st c.

(** The session differs from [st] in child sets only, if at all. *)
Definition same_objects (st st' : State) : Prop :=
  forall l,
    match heap st !! l, heap st' !! l with
    | Some c, Some c' => same_but_children c c'
    | None, None => True
    | _, _ => False
    end.

(** The ID is bound to the contract object [l]. *)
Definition bound_to_contract (st : State) (cu : string) (id : AstNodeId)
    (l : loc) : Prop :=
  exists r, nodes_by_id st !! (cu, id) = Some r /\ reg_node r = RefContract l.

(** What the constructor copies from the raw contract and the file. *)
Definition built (c : ContractDefinition) : Prop :=
  __linearized_base_contracts c = sc_linearized_base_contracts (_ast_node c)
  /\ __kind c = sc_contract_kind (_ast_node c)
  /\ exists source,
       _source c
       = slice source (byte_offset (sc_src (_ast_node c)))
           (byte_offset (sc_src (_ast_node c))
            + byte_length (sc_src (_ast_node c))).

(** The state of a session between construction and [run_post_process]:
    every contract has an empty child set and its callback in the queue,
    once, and no destroy callback is registered. *)
Record constructed (st : State) : Prop := {
  constructed_children :
    forall l c, heap st !! l = Some c -> __child_contracts c = ∅;
  constructed_queue : NoDup (post_process_queue st);
  constructed_queue_heap :
    forall l, l ∈ post_process_queue st <-> is_Some (heap st !! l);
  constructed_destroy : destroy_queue st = ∅;
  constructed_registered :
    forall l c, heap st !! l = Some c ->
      nodes_by_id st !! (_cu_hash c, sc_id (_ast_node c))
      = Some {| reg_file := _file c; reg_node := RefContract l |};
  constructed_built : forall l c, heap st !! l = Some c -> built c;
}.

(** The destroy callbacks that the post-process callbacks of [queue]
    register for [file], in order. *)
Definition destroy_callbacks_of (st : State) (file : Path) (queue : list loc)
    : list DestroyCallback :=
  omap (λ C, match heap st !! C with
             | Some c =>
                 if decide (_file c = file) then
                   Some {| destroy_self := C;
                           destroy_base_contracts := resolved_bases st c |}
                 else None
             | None => None
             end) queue.

(** A step of construction that only binds IDs: older bindings stay, and
    nothing but [nodes_by_id] changes. *)
Definition registers (st st' : State) : Prop :=
  st' = set_nodes_by_id (nodes_by_id st') st
  /\ nodes_by_id st ⊆ nodes_by_id st'.

(** Two sessions with the same ID bindings and the same objects, child sets
    apart. *)
Definition agree (st st' : State) : Prop :=
  nodes_by_id st' = nodes_by_id st /\ same_objects st st'.

(** [sequence] walks the subtree of [n]: its elements are the nodes at
    [positions], which are in pre-order and are exactly the positions of
    the subtree. *)
Definition traversal (n : Node) (positions : list (list nat))
    (sequence : list Node) : Prop :=
  Forall2 (λ p x, node_at n p = Some x) positions sequence
  /\ StronglySorted position_lt positions
  /\ forall p, p ∈ positions <-> is_Some (node_at n p).

(** The same for the subtrees of a list of siblings, one after the other. *)
Definition forest_traversal (siblings : list Node)
    (positions : list (list nat)) (sequence : list Node) : Prop :=
  Forall2 (λ p x, exists i p' c, p = i :: p' /\ siblings !! i = Some c
                                 /\ node_at c p' = Some x)
    positions sequence
  /\ StronglySorted position_lt positions
  /\ Forall (λ p, p <> []) positions
  /\ forall i p', (i :: p') ∈ positions <->
                  exists c, siblings !! i = Some c /\ is_Some (node_at c p').

(** The keyword of a kind. *)
Definition keyword (k : ContractKind) : string :=
  match k with
  | CONTRACT => "contract"
  | INTERFACE => "interface"
  | LIBRARY => "library"
  end.

Definition whitespace (w : bytes) : Prop := forallb re.space w = true.

(** A byte string of the form [[a-zA-Z$_][a-zA-Z0-9$_]*]. *)
Definition identifier (w : bytes) : Prop :=
  exists b w', w = b :: w' /\ re.identifier_start b = true
               /\ forallb re.identifier_part w' = true.

(** The leading pattern of a kind, in the words of the specification:
    optional whitespace, for contracts an optional [abstract] and one
    whitespace byte, optional whitespace, the keyword of the kind,
    whitespace, then an identifier; anything may follow. *)
Definition leading_pattern (k : ContractKind) (s : bytes) : Prop :=
  exists ws1 abstract_ ws2 ws3 name rest,
    s = ws1 ++ abstract_ ++ ws2 ++ re.encode (keyword k) ++ ws3 ++ name ++ rest
    /\ whitespace ws1
    /\ (abstract_ = []
        \/ (k = CONTRACT
            /\ exists b, re.space b = true
                         /\ abstract_ = re.encode "abstract" ++ [b]))
    /\ whitespace ws2
    /\ ws3 <> [] /\ whitespace ws3
    /\ identifier name.

(** The pattern [_parse_name_location] compiles for a kind. *)
Definition pattern_of (k : ContractKind) : re.regex :=
  match k with
  | CONTRACT => ContractDefinition.CONTRACT_RE
  | INTERFACE => ContractDefinition.INTERFACE_RE
  | LIBRARY => ContractDefinition.LIBRARY_RE
  end.

(** The invariant of a sequence of invalidations that started in the
    resolved session [st1], whose contracts are those of [queue]: [done] are
    the files invalidated so far, [st] is the session now. *)
Definition invalidation_invariant (st1 : State) (queue : list loc)
    (done : list Path) (st : State) : Prop :=
  same_objects st1 st
  /\ (forall B C,
        C ∈ child_contracts_of st B <->
        exists c, heap st1 !! C = Some c /\ B ∈ resolved_bases st1 c
                  /\ (_file c ∉ done))
  /\ forall file,
       default [] (destroy_queue st !! file) =
       if decide (file ∈ done) then []
       else destroy_callbacks_of st1 file queue.

(* ================================================================== *)
(** ** Example sessions *)

Definition example_init (file : Path) (source : string) : IrInitTuple :=
  {| init_file := file; init_source := re.encode source;
     init_cu_hash := "unit" |}.

(** A raw specifier with ID [id] that refers to declaration [base]. *)
Definition example_specifier (id_base : AstNodeId * AstNodeId)
    : SolcInheritanceSpecifier :=
  {| sis_id := id_base.1; sis_src := {| byte_offset := 0; byte_length := 0 |};
     sis_referenced_declaration := id_base.2; sis_nodes := [] |}.

(** A raw contract without documentation and members. *)
Definition example_contract (id : AstNodeId) (name : string)
    (offset length : nat) (bases : list (AstNodeId * AstNodeId))
    (linearized : list AstNodeId) : SolcContractDefinition :=
  {| sc_id := id; sc_src := {| byte_offset := offset; byte_length := length |};
     sc_name := name; sc_abstract := false; sc_contract_kind := CONTRACT;
     sc_fully_implemented := Some true;
     sc_linearized_base_contracts := linearized;
     sc_documentation := PyNone;
     sc_base_contracts := example_specifier <$> bases;
     sc_nodes := [] |}.

Definition session_of (r : result State) : State :=
  match r with
  | Ok st => st
  | Raise _ => empty_session
  end.

(** One file: [contract B {} contract C is B {}]; B is object 0, C is
    object 1. *)
Definition unit_B_C
    : list (IrInitTuple * SolcContractDefinition * AstNodeId) :=
  let init := example_init "A.sol" "contract B {} contract C is B {}" in
  [ (init, example_contract 1 "B" 0 13 [] [1%Z], 0%Z);
    (init, example_contract 2 "C" 14 18 [(3, 1)%Z] [2; 1]%Z, 0%Z) ].

Definition session_B_C : State :=
  session_of (construct_unit unit_B_C empty_session).

Definition session_B_C_resolved : State :=
  session_of (run_post_process session_B_C).

(** Two files: A.sol defines X, B.sol defines Y is X; X is object 0, Y is
    object 1. *)
Definition unit_X_Y
    : list (IrInitTuple * SolcContractDefinition * AstNodeId) :=
  [ (example_init "A.sol" "contract X {}",
     example_contract 1 "X" 0 13 [] [1%Z], 0%Z);
    (example_init "B.sol" "contract Y is X {}",
     example_contract 2 "Y" 0 18 [(3, 1)%Z] [2; 1]%Z, 10%Z) ].

Definition session_X_Y : State :=
  session_of (construct_unit unit_X_Y empty_session).

Definition session_X_Y_resolved : State :=
  session_of (run_post_process session_X_Y).

(** A raw unit in which the specifiers of C name B1 twice and then B2: B1 is
    object 0, B2 is object 1, C is object 2. *)
Definition unit_duplicate_base
    : list (IrInitTuple * SolcContractDefinition * AstNodeId) :=
  [ (example_init "A.sol" "contract B1 {} contract B2 {}",
     example_contract 1 "B1" 0 14 [] [1%Z], 0%Z);
    (example_init "A.sol" "contract B1 {} contract B2 {}",
     example_contract 2 "B2" 15 14 [] [2%Z], 0%Z);
    (example_init "C.sol" "contract C is B1, B1, B2 {}",
     example_contract 3 "C" 0 27 [(4, 1); (5, 1); (6, 2)]%Z [3; 2; 1]%Z,
     10%Z) ].

Definition session_duplicate_base : State :=
  session_of (construct_unit unit_duplicate_base empty_session).

(** The same session after the callbacks of B1 and B2 have run. *)
Definition session_duplicate_base_before_C : State :=
  session_of (run_callbacks [0; 1] session_duplicate_base).

Definition session_duplicate_base_after_C : State :=
  session_of (ContractDefinition.__post_process 2
                session_duplicate_base_before_C).

(** A raw contract with a function whose body holds an inline-assembly
    block with a switch, and an enum with one value. *)
Definition contract_with_members : SolcContractDefinition :=
  {| sc_id := 1; sc_src := {| byte_offset := 0; byte_length := 13 |};
     sc_name := "B"; sc_abstract := false; sc_contract_kind := CONTRACT;
     sc_fully_implemented := Some true;
     sc_linearized_base_contracts := [1%Z];
     sc_documentation := PyNone;
     sc_base_contracts := [];
     sc_nodes :=
       [ {| member_class := SolcFunctionDefinition; member_id := 5;
            member_nodes :=
              [Solc (SolcOtherClass "Block") 6
                 [Solc (SolcOtherClass "InlineAssembly") 7
                    [Yul (YulOtherClass "YulBlock")
                       [YulSwitch (Yul YulIdentifier [])
                          [Yul YulCase [Yul YulLiteral []]]]]]] |};
         {| member_class := SolcEnumDefinition; member_id := 8;
            member_nodes := [Solc (SolcOtherClass "EnumValue") 9 []] |} ] |}.


(** A contract whose byte range starts inside its keyword, so that its
    source slice is [ntract B {}]. *)
Definition session_corrupted_source : State :=
  session_of
    (construct_unit
       [ (example_init "A.sol" "contract B {}",
          example_contract 1 "B" 2 11 [] [1%Z], 0%Z) ]
       empty_session).

(** The two files of [unit_X_Y], constructed in the other order: Y is object
    0, X is object 1. *)
Definition session_Y_X_resolved : State :=
  session_of (st ← construct_unit (reverse unit_X_Y) empty_session;
              run_post_process st).

(** [session_X_Y_resolved] after B.sol was invalidated, and after B.sol was
    then constructed again and post-processed: the new Y is object 2. *)
Definition session_X_Y_invalidated : State :=
  session_of (invalidate "B.sol" session_X_Y_resolved).

Definition session_X_Y_rebuilt : State :=
  session_of (st ← construct_unit (drop 1 unit_X_Y) session_X_Y_invalidated;
              run_post_process st).



(** The session of [unit_B_C] after the callback of B has run, and after the
    callback of C has run too. *)
Definition session_B_C_before_C : State :=
  session_of (run_callbacks [0] session_B_C).

Definition session_B_C_after_C : State :=
  session_of (ContractDefinition.__post_process 1 session_B_C_before_C).

(** One file: [contract B {} contract C is B {} contract D is B, C {}]; B is
    object 0, C is object 1, D is object 2. *)
Definition unit_B_C_D
    : list (IrInitTuple * SolcContractDefinition * AstNodeId) :=
  let init :=
    example_init "A.sol"
      "contract B {} contract C is B {} contract D is B, C {}" in
  [ (init, example_contract 1 "B" 0 13 [] [1%Z], 0%Z);
    (init, example_contract 2 "C" 14 18 [(3, 1)%Z] [2; 1]%Z, 0%Z);
    (init, example_contract 4 "D" 33 21 [(5, 1); (6, 2)]%Z [4; 2; 1]%Z, 0%Z) ].

Definition session_B_C_D : State :=
  session_of (construct_unit unit_B_C_D empty_session).

Definition session_B_C_D_resolved : State :=
  session_of (run_post_process session_B_C_D).

(* ================================================================== *)
(** ** Vocabulary of the further properties *)

(** The contract at [C] is ready for its post-process callback: every one of
    its inheritance specifiers resolves to a contract object. *)
Definition resolvable (st : State) (C : loc) : Prop :=
  exists c,
    heap st !! C = Some c
    /\ forall spec, spec ∈ __base_contracts c ->
         exists b, resolves_to st (_cu_hash c) spec = Some b
                   /\ is_Some (heap st !! b).

(** The IR tree that mirrors a raw tree: the same shape and the same IDs,
    each raw class replaced by the IR class constructed for it.  No IR node
    is ever built for a raw node of an unrecognized variant (construction
    fails there); the function gives it a childless placeholder. *)
Fixpoint ir_of_raw (raw : SolcNode) : IrAbc :=
  match raw with
  | Solc cls id nodes => Ir (ir_class cls) id (ir_of_raw <$> nodes)
  | Yul cls nodes => YulIr (yul_ir_class cls) (ir_of_raw <$> nodes)
  | YulSwitch expression cases =>
      Switch (ir_of_raw expression) (ir_of_raw <$> cases)
  | Unexpected _ => YulIr (YulIrOtherClass "") []
  end.

(** The ID of an IR node: Solidity nodes have one, Yul nodes have none. *)
Definition ir_id (n : IrAbc) : option AstNodeId :=
  match n with
  | Ir _ id _ => Some id
  | YulIr _ _ | Switch _ _ => None
  end.

(** The ID of an IR object of any class. *)
Definition node_id (x : Node) : option AstNodeId :=
  match x with
  | NContract c => Some (sc_id (_ast_node c))
  | NSpecifier s => Some (is_id s)
  | NIr n => ir_id n
  end.

(** The IDs of a raw tree in pre-order: those of its Solidity nodes. *)
Fixpoint raw_ids (raw : SolcNode) : list AstNodeId :=
  match raw with
  | Solc _ id nodes => id :: flat_map raw_ids nodes
  | Yul _ nodes => flat_map raw_ids nodes
  | YulSwitch expression cases => raw_ids expression ++ flat_map raw_ids cases
  | Unexpected _ => []
  end.

(** The raw nodes of a raw tree in pre-order: a node, then the subtrees of
    its children in order; a switch, then the subtree of its expression,
    then the subtrees of its cases. *)
Fixpoint raw_nodes (raw : SolcNode) : list SolcNode :=
  match raw with
  | Solc _ _ nodes => raw :: flat_map raw_nodes nodes
  | Yul _ nodes => raw :: flat_map raw_nodes nodes
  | YulSwitch expression cases =>
      raw :: raw_nodes expression ++ flat_map raw_nodes cases
  | Unexpected _ => [raw]
  end.

(** The classes a switch accepts for its expression. *)
Definition switch_expression_classes : list RawClass :=
  [YulCls YulFunctionCall; YulCls YulIdentifier; YulCls YulLiteral].

(** The raw tree is one the constructors can build: no node of it is of an
    unrecognized variant, and every switch has an expression of an accepted
    class. *)
Fixpoint well_formed (raw : SolcNode) : bool :=
  match raw with
  | Solc _ _ nodes => forallb well_formed nodes
  | Yul _ nodes => forallb well_formed nodes
  | YulSwitch expression cases =>
      bool_decide (solc_class expression ∈ switch_expression_classes)
      && well_formed expression
      && forallb well_formed cases
  | Unexpected _ => false
  end.

(** The members of one class among the raw nodes of a contract body, in
    source order, as IR nodes. *)
Definition members_of_class (cls : MemberClass) (nodes : list SolcMember)
    : list IrAbc :=
  (λ n : SolcMember, ir_of_raw n)
    <$> filter (λ n, member_class n = cls) nodes.

(** [m'] is [m] with the members of [nodes] appended, class by class. *)
Definition members_extended_by (m m' : Members) (nodes : list SolcMember)
    : Prop :=
  m_enums m' = m_enums m ++ members_of_class SolcEnumDefinition nodes
  /\ m_errors m' = m_errors m ++ members_of_class SolcErrorDefinition nodes
  /\ m_events m' = m_events m ++ members_of_class SolcEventDefinition nodes
  /\ m_functions m'
     = m_functions m ++ members_of_class SolcFunctionDefinition nodes
  /\ m_modifiers m'
     = m_modifiers m ++ members_of_class SolcModifierDefinition nodes
  /\ m_structs m' = m_structs m ++ members_of_class SolcStructDefinition nodes
  /\ m_user_defined_value_types m'
     = m_user_defined_value_types m
       ++ members_of_class SolcUserDefinedValueTypeDefinition nodes
  /\ m_using_for_directives m'
     = m_using_for_directives m
       ++ members_of_class SolcUsingForDirective nodes
  /\ m_declared_variables m'
     = m_declared_variables m
       ++ members_of_class SolcVariableDeclaration nodes.

(** [m] with the node [n], constructed for a member of class [cls],
    appended to the list of that class. *)
Definition with_member (cls : MemberClass) (n : IrAbc) (m : Members)
    : Members :=
  {| m_enums := m_enums m ++ (if decide (cls = SolcEnumDefinition)
                              then [n] else []);
     m_errors := m_errors m ++ (if decide (cls = SolcErrorDefinition)
                                then [n] else []);
     m_events := m_events m ++ (if decide (cls = SolcEventDefinition)
                                then [n] else []);
     m_functions := m_functions m ++ (if decide (cls = SolcFunctionDefinition)
                                      then [n] else []);
     m_modifiers := m_modifiers m ++ (if decide (cls = SolcModifierDefinition)
                                      then [n] else []);
     m_structs := m_structs m ++ (if decide (cls = SolcStructDefinition)
                                  then [n] else []);
     m_user_defined_value_types :=
       m_user_defined_value_types m
       ++ (if decide (cls = SolcUserDefinedValueTypeDefinition)
           then [n] else []);
     m_using_for_directives :=
       m_using_for_directives m
       ++ (if decide (cls = SolcUsingForDirective) then [n] else []);
     m_declared_variables :=
       m_declared_variables m
       ++ (if decide (cls = SolcVariableDeclaration) then [n] else []) |}.


(** The nine member classes, in the order of the tests of the member
    loop. *)
Definition member_classes : list MemberClass :=
  [SolcEnumDefinition; SolcErrorDefinition; SolcEventDefinition;
   SolcFunctionDefinition; SolcModifierDefinition; SolcStructDefinition;
   SolcUserDefinedValueTypeDefinition; SolcUsingForDirective;
   SolcVariableDeclaration].

(** The specifier object built for a raw specifier. *)
Definition specifier_of_raw (init : IrInitTuple)
    (raw : SolcInheritanceSpecifier) : InheritanceSpecifier :=
  {| is_id := sis_id raw;
     is_source := slice (init_source init) (byte_offset (sis_src raw))
                    (byte_offset (sis_src raw) + byte_length (sis_src raw));
     is_referenced_declaration := sis_referenced_declaration raw;
     is_children := ir_of_raw <$> sis_nodes raw |}.

(** The documentation kept for a raw documentation value that the
    constructor accepts. *)
Definition documentation_of_raw (documentation : PyObject)
    : option Documentation :=
  match documentation with
  | PyNone => None
  | PyStr s => Some (DocStr s)
  | PyNode n => Some (DocStructured (ir_of_raw n))
  | PyInt _ => None
  end.

(** The IDs are pairwise distinct and none is bound in the compilation
    unit. *)
Definition fresh_ids (st : State) (cu : string) (ids : list AstNodeId)
    : Prop :=
  NoDup ids /\ forall i, i ∈ ids -> nodes_by_id st !! (cu, i) = None.

(** What a constructor call leaves of the session, the node put aside. *)
Definition outcome {A : Type} (r : result (A * State)) : result State :=
  match r with
  | Ok (_, st) => Ok st
  | Raise e => Raise e
  end.

(** A step of construction that binds exactly [ids] in the compilation unit
    [cu]: it returns exactly when they are fresh and the raw input is well
    formed ([wf]), and then they are what it has bound. *)
Definition binds_ids (cu : string) (run : State -> result State)
    (ids : list AstNodeId) (wf : bool) : Prop :=
  forall st,
    ((exists st', run st = Ok st') <-> fresh_ids st cu ids /\ wf = true)
    /\ forall st',
         run st = Ok st' ->
         forall i,
           nodes_by_id st' !! (cu, i) = None <->
           nodes_by_id st !! (cu, i) = None /\ i ∉ ids.

(** The IDs the constructor of a contract binds: its own, those of a
    structured documentation, of the inheritance specifiers with their
    subtrees, and of the members, in this order. *)
Definition documentation_ids (documentation : PyObject) : list AstNodeId :=
  match documentation with
  | PyNode n => if isinstance n SolcStructuredDocumentation then raw_ids n
                else []
  | _ => []
  end.

Definition specifier_ids (raw : SolcInheritanceSpecifier) : list AstNodeId :=
  sis_id raw :: flat_map raw_ids (sis_nodes raw).

Definition contract_ids (contract : SolcContractDefinition)
    : list AstNodeId :=
  sc_id contract
  :: documentation_ids (sc_documentation contract)
  ++ flat_map specifier_ids (sc_base_contracts contract)
  ++ flat_map (λ n : SolcMember, raw_ids n) (sc_nodes contract).

(** The documentation values the constructor accepts: [None], a string, a
    raw StructuredDocumentation node. *)
Definition documentation_recognized (documentation : PyObject) : bool :=
  match documentation with
  | PyNone | PyStr _ => true
  | PyNode n => isinstance n SolcStructuredDocumentation
  | PyInt _ => false
  end.

(** The raw contract is one the constructor can build: its documentation is
    accepted, and every raw tree below it is well formed. *)
Definition documentation_well_formed (documentation : PyObject) : bool :=
  documentation_recognized documentation
  && match documentation with
     | PyNode n => well_formed n
     | _ => true
     end.

Definition contract_well_formed (contract : SolcContractDefinition) : bool :=
  documentation_well_formed (sc_documentation contract)
  && forallb (λ raw, forallb well_formed (sis_nodes raw))
       (sc_base_contracts contract)
  && forallb (λ n : SolcMember, well_formed n) (sc_nodes contract).

(** The cache of declaration strings is coherent: every string it holds is
    the declaration string, computed by [body], of the object it is kept
    for. *)
Definition cache_coherent (body : ContractDefinition -> string) (st : State)
    : Prop :=
  forall l s,
    declaration_string_cache st !! l = Some s ->
    exists c, heap st !! l = Some c /\ s = body c.

(** A step of construction that binds IDs for [file] only: every binding it
    leaves that was not there before is recorded for [file]. *)
Definition binds_for_file (file : Path) (run : State -> result State)
    : Prop :=
  forall st st',
    run st = Ok st' ->
    forall k r,
      nodes_by_id st' !! k = Some r ->
      nodes_by_id st !! k = Some r \/ reg_file r = file.

(** The steps of the contract constructor that can fail, as steps on the
    session: the registration of the contract under the identity [self],
    the documentation, the inheritance specifiers, the members. *)
Definition init_session_steps (init : IrInitTuple)
    (contract : SolcContractDefinition) (self : loc) (st : State)
    : result State :=
  st ← ReferenceResolver.register_node (init_cu_hash init) (sc_id contract)
         (init_file init) (RefContract self) st;
  st ← outcome (ContractDefinition.init_documentation init
                  (sc_documentation contract) st);
  st ← outcome (construct_each (InheritanceSpecifier___init__ init)
                  (sc_base_contracts contract) st);
  outcome (ContractDefinition.add_members init (sc_nodes contract)
             no_members st).

(* ================================================================== *)
(** * Properties *)

(** ** The result monad *)

Lemma bind_Ok {A B} (m : result A) (f : A -> result B) (b : B) :
  m ≫= f = Ok b <-> exists a, m = Ok a /\ f a = Ok b.
Proof.
  destruct m as [a|e]; simpl.
  - split; [intros H; exists a; auto | intros (a' & [= <-] & H); exact H].
  - split; [intros [=] | intros (a' & [=] & _)].
Qed.

Lemma bind_Raise {A B} (m : result A) (f : A -> result B) (e : exn) :
  m ≫= f = Raise e <->
  m = Raise e \/ exists a, m = Ok a /\ f a = Raise e.
Proof.
  destruct m as [a|e']; simpl.
  - split; [intros H; right; exists a; auto |].
    intros [[=] | (a' & [= <-] & H)]; exact H.
  - split; [intros [= <-]; left; reflexivity |].
    intros [[= <-] | (a' & [=] & _)]; reflexivity.
Qed.

Ltac inv_bind H :=
  let a := fresh "a" in
  let Ha := fresh "Ha" in
  apply bind_Ok in H; destruct H as (a & Ha & H).

(** Decide a closed decidable proposition by evaluation. *)
Ltac by_computation := apply (bool_decide_unpack _); vm_compute; exact I.

(** ** The destroy callback *)

Section destroy.
Import ContractDefinition.

Lemma with_child_contracts_children s c :
  __child_contracts (with_child_contracts s c) = s.
Proof. reflexivity. Qed.

Lemma same_but_children_refl c : same_but_children c c.
Proof. reflexivity. Qed.

Lemma same_but_children_with s c : same_but_children c (with_child_contracts s c).
Proof. reflexivity. Qed.

Lemma same_but_children_trans c1 c2 c3 :
  same_but_children c1 c2 -> same_but_children c2 c3 -> same_but_children c1 c3.
Proof. unfold same_but_children. congruence. Qed.

Lemma destroy_cons self b bs st :
  __destroy self (b :: bs) st =
  match heap st !! b with
  | Some c =>
      if decide (self ∈ __child_contracts c) then
        __destroy self bs (set_heap (<[b := unlink self c]> (heap st)) st)
      else Raise KeyError
  | None => Raise KeyError
  end.
Proof. reflexivity. Qed.

Lemma destroy_app self l1 l2 st :
  __destroy self (l1 ++ l2) st = __destroy self l1 st ≫= __destroy self l2.
Proof.
  revert st. induction l1 as [|b l1 IH]; intros st; [reflexivity|].
  rewrite <- app_comm_cons, !destroy_cons.
  destruct (heap st !! b) as [c|]; [|reflexivity].
  destruct (decide (self ∈ __child_contracts c)); [apply IH | reflexivity].
Qed.

Lemma destroy_raises self bs st e :
  __destroy self bs st = Raise e -> e = KeyError.
Proof.
  revert st. induction bs as [|b bs IH]; intros st; [intros [=]|].
  rewrite destroy_cons.
  destruct (heap st !! b) as [c|]; [|congruence].
  destruct (decide (self ∈ __child_contracts c)); [apply IH | congruence].
Qed.

(** A destroy callback writes nothing but the heap. *)
Lemma destroy_frame self bs st st' :
  __destroy self bs st = Ok st' -> st' = set_heap (heap st') st.
Proof.
  revert st. induction bs as [|b bs IH]; intros st.
  - intros [= <-]. destruct st; reflexivity.
  - rewrite destroy_cons.
    destruct (heap st !! b) as [c|]; [|intros [=]].
    destruct (decide (self ∈ __child_contracts c)); [|intros [=]].
    intros H. apply IH in H. rewrite H at 1. reflexivity.
Qed.

Lemma child_contracts_of_insert st b c l :
  child_contracts_of (set_heap (<[b := c]> (heap st)) st) l =
  if decide (b = l) then __child_contracts c else child_contracts_of st l.
Proof.
  unfold child_contracts_of; simpl. rewrite lookup_insert.
  destruct (decide (b = l)); reflexivity.
Qed.

(** A destroy callback never adds to a child set. *)
Lemma destroy_shrinks self bs st st' l :
  __destroy self bs st = Ok st' ->
  child_contracts_of st' l ⊆ child_contracts_of st l.
Proof.
  revert st. induction bs as [|b bs IH]; intros st.
  - intros [= <-]. reflexivity.
  - rewrite destroy_cons.
    destruct (heap st !! b) as [c|] eqn:Hb; [|intros [=]].
    destruct (decide (self ∈ __child_contracts c)); [|intros [=]].
    intros H. apply IH in H. etrans; [exact H|].
    rewrite child_contracts_of_insert. destruct (decide (b = l)) as [<-|]; [|reflexivity].
    unfold child_contracts_of. rewrite Hb. simpl. set_solver.
Qed.

(** A callback that returns found [self] in the set of every recorded base,
    and no base was recorded twice. *)
Lemma destroy_Ok_inv self bs st st' :
  __destroy self bs st = Ok st' ->
  NoDup bs /\ forall b, b ∈ bs -> self ∈ child_contracts_of st b.
Proof.
  revert st. induction bs as [|b bs IH]; intros st.
  - intros _. split; [constructor | intros b Hb; inversion Hb].
  - rewrite destroy_cons.
    destruct (heap st !! b) as [c|] eqn:Hb; [|intros [=]].
    destruct (decide (self ∈ __child_contracts c)) as [Hin|]; [|intros [=]].
    intros H. destruct (IH _ H) as [Hnd Hall].
    assert (Hsub : forall l, l ∈ bs -> self ∈ child_contracts_of st l /\ l <> b).
    { intros l Hl. specialize (Hall l Hl).
      rewrite child_contracts_of_insert in Hall.
      destruct (decide (b = l)) as [<-|Hne].
      - simpl in Hall. set_solver.
      - split; [exact Hall | congruence]. }
    split.
    + constructor; [|exact Hnd]. intros Hl. apply Hsub in Hl. tauto.
    + intros l [->|Hl]%elem_of_cons.
      * unfold child_contracts_of. rewrite Hb. exact Hin.
      * apply Hsub, Hl.
Qed.

(** What a returning destroy callback leaves in the heap. *)
Lemma destroy_heap self bs st st' l :
  __destroy self bs st = Ok st' ->
  heap st' !! l =
  if decide (l ∈ bs) then unlink self <$> heap st !! l else heap st !! l.
Proof.
  revert st. induction bs as [|b bs IH]; intros st.
  - intros [= <-]. destruct (decide (l ∈ [])) as [H|]; [inversion H | reflexivity].
  - intros H. pose proof (destroy_Ok_inv _ _ _ _ H) as [Hnd _].
    apply NoDup_cons in Hnd as [Hb Hnd].
    rewrite destroy_cons in H.
    destruct (heap st !! b) as [c|] eqn:Hc; [|discriminate].
    destruct (decide (self ∈ __child_contracts c)); [|discriminate].
    rewrite (IH _ H). simpl. rewrite lookup_insert.
    destruct (decide (b = l)) as [<-|Hne].
    + rewrite decide_False by exact Hb.
      rewrite decide_True by left. rewrite Hc. reflexivity.
    + destruct (decide (l ∈ bs)) as [Hl|Hl].
      * rewrite decide_True by (right; exact Hl). reflexivity.
      * rewrite decide_False; [reflexivity|].
        intros [->|?]%elem_of_cons; tauto.
Qed.

Lemma destroy_children self bs st st' l :
  __destroy self bs st = Ok st' ->
  child_contracts_of st' l =
  if decide (l ∈ bs) then child_contracts_of st l ∖ {[self]}
  else child_contracts_of st l.
Proof.
  intros H. unfold child_contracts_of. rewrite (destroy_heap _ _ _ _ l H).
  destruct (decide (l ∈ bs)); [|reflexivity].
  destruct (heap st !! l); simpl; [reflexivity | set_solver].
Qed.

(** The callback returns when no base is recorded twice and [self] is in the
    set of each. *)
Lemma destroy_Ok self bs st :
  NoDup bs -> (forall b, b ∈ bs -> self ∈ child_contracts_of st b) ->
  exists st', __destroy self bs st = Ok st'.
Proof.
  revert st. induction bs as [|b bs IH]; intros st Hnd Hall.
  - exists st. reflexivity.
  - apply NoDup_cons in Hnd as [Hb Hnd]. rewrite destroy_cons.
    pose proof (Hall b ltac:(left)) as Hin. unfold child_contracts_of in Hin.
    destruct (heap st !! b) as [c|] eqn:Hc; [|set_solver].
    rewrite decide_True by exact Hin.
    apply IH; [exact Hnd|]. intros l Hl.
    rewrite child_contracts_of_insert.
    destruct (decide (b = l)) as [<-|]; [tauto|].
    apply Hall. right. exact Hl.
Qed.

End destroy.

(** ** The post-process callback *)

Section post_process.
Import ContractDefinition.

Lemma link_idemp self c : link self (link self c) = link self c.
Proof.
  unfold link, with_child_contracts; simpl. f_equal. set_solver.
Qed.

Lemma resolves_to_set_heap h st cu spec :
  resolves_to (set_heap h st) cu spec = resolves_to st cu spec.
Proof. reflexivity. Qed.

Lemma post_process_loop_cons self cu spec specs acc st :
  post_process_loop self cu (spec :: specs) acc st =
  match resolves_to st cu spec with
  | Some b =>
      match heap st !! b with
      | Some c =>
          post_process_loop self cu specs (acc ++ [b])
            (set_heap (<[b := link self c]> (heap st)) st)
      | None => Raise AssertionError
      end
  | None =>
      match nodes_by_id st !! (cu, is_referenced_declaration spec) with
      | Some _ => Raise AssertionError
      | None => Raise DanglingReference
      end
  end.
Proof.
  unfold resolves_to. simpl. unfold ReferenceResolver.resolve_node.
  destruct (nodes_by_id st !! _) as [r|]; simpl; [|reflexivity].
  destruct (reg_node r); reflexivity.
Qed.

(** What the loop of a returning post-process callback did: it recorded the
    resolved base of every specifier, in order, and added [self] to the
    child set of each; nothing else changed. *)
Lemma post_process_loop_Ok self cu specs acc st bases st' :
  post_process_loop self cu specs acc st = Ok (bases, st') ->
  bases = acc ++ omap (resolves_to st cu) specs
  /\ length (omap (resolves_to st cu) specs) = length specs
  /\ st' = set_heap (heap st') st
  /\ (forall b, b ∈ omap (resolves_to st cu) specs -> is_Some (heap st !! b))
  /\ forall l, heap st' !! l =
       if decide (l ∈ omap (resolves_to st cu) specs)
       then link self <$> heap st !! l else heap st !! l.
Proof.
  revert acc st. induction specs as [|spec specs IH]; intros acc st.
  - intros [= <- <-]. rewrite app_nil_r. split_and!.
    + reflexivity.
    + reflexivity.
    + destruct st; reflexivity.
    + intros b Hb; inversion Hb.
    + intros l. rewrite decide_False; [done | intros Hl; inversion Hl].
  - rewrite post_process_loop_cons. simpl.
    destruct (resolves_to st cu spec) as [b|] eqn:Hr;
      [|destruct (nodes_by_id st !! _); intros [=]].
    destruct (heap st !! b) as [c|] eqn:Hc; [|intros [=]].
    intros H. apply IH in H as (-> & Hlen & Hfr & Hdom & Hheap).
    assert (Homap : omap (resolves_to
               (set_heap (<[b:=link self c]> (heap st)) st) cu) specs
            = omap (resolves_to st cu) specs) by reflexivity.
    rewrite Homap in *.
    simpl in *. split_and!.
    + rewrite <- app_assoc. reflexivity.
    + f_equal. exact Hlen.
    + rewrite Hfr at 1. reflexivity.
    + intros l [->|Hl]%elem_of_cons; [rewrite Hc; eauto|].
      specialize (Hdom l Hl). rewrite lookup_insert in Hdom.
      destruct (decide (b = l)) as [<-|]; [rewrite Hc; eauto | exact Hdom].
    + intros l. rewrite Hheap, lookup_insert.
      repeat case_decide; subst; rewrite ?Hc; simpl; rewrite ?link_idemp;
        try reflexivity; exfalso; set_solver.
Qed.

(** The loop returns when every specifier resolves to a contract object. *)
Lemma post_process_loop_returns self cu specs acc st :
  (forall spec, spec ∈ specs ->
     exists b, resolves_to st cu spec = Some b /\ is_Some (heap st !! b)) ->
  exists bases st', post_process_loop self cu specs acc st = Ok (bases, st').
Proof.
  revert acc st. induction specs as [|spec specs IH]; intros acc st Hall.
  - eauto.
  - rewrite post_process_loop_cons.
    destruct (Hall spec ltac:(left)) as (b & -> & [c Hc]). rewrite Hc.
    apply IH. intros spec' Hs'.
    destruct (Hall spec' ltac:(right; exact Hs')) as (b' & Hb' & Hin).
    exists b'. split; [exact Hb'|]. simpl. rewrite lookup_insert.
    destruct (decide (b = b')); [eauto | exact Hin].
Qed.

(** The effect of a returning post-process callback. *)
Lemma post_process_Ok self st st' :
  __post_process self st = Ok st' ->
  exists c,
    heap st !! self = Some c
    /\ length (resolved_bases st c) = length (__base_contracts c)
    /\ (forall b, b ∈ resolved_bases st c -> is_Some (heap st !! b))
    /\ (forall l, heap st' !! l =
          if decide (l ∈ resolved_bases st c)
          then link self <$> heap st !! l else heap st !! l)
    /\ st' = ReferenceResolver.register_destroy_callback (_file c)
               {| destroy_self := self;
                  destroy_base_contracts := resolved_bases st c |}
               (set_heap (heap st') st).
Proof.
  unfold __post_process. destruct (heap st !! self) as [c|] eqn:Hc; [|intros [=]].
  intros H. inv_bind H. destruct a as [bases st1]. simpl in H.
  injection H as <-.
  apply post_process_loop_Ok in Ha as (-> & Hlen & Hfr & Hdom & Hheap).
  exists c. split_and!; [done | done | done | done |].
  simpl. rewrite Hfr at 1. reflexivity.
Qed.

Lemma post_process_children self st st' l C :
  __post_process self st = Ok st' ->
  C ∈ child_contracts_of st' l <->
  C ∈ child_contracts_of st l \/ (C = self /\ inherits st self l).
Proof.
  intros H. apply post_process_Ok in H as (c & Hc & _ & Hdom & Hheap & _).
  unfold child_contracts_of. rewrite Hheap.
  destruct (decide (l ∈ resolved_bases st c)) as [Hl|Hl].
  - destruct (Hdom l Hl) as [b ->]. simpl.
    assert (inherits st self l) by (exists c; auto). set_solver.
  - assert (~ inherits st self l).
    { intros (c' & Hc' & Hin). congruence. }
    tauto.
Qed.

End post_process.

(** ** Claims on the destroy callback *)

Section destroy_claims.
Import ContractDefinition.

Lemma run_destroy_callbacks_app q1 q2 st :
  run_destroy_callbacks (q1 ++ q2) st =
  run_destroy_callbacks q1 st ≫= run_destroy_callbacks q2.
Proof.
  revert st. induction q1 as [|cb q1 IH]; intros st; [reflexivity|].
  simpl. destruct (__destroy _ _ st); simpl; [apply IH | reflexivity].
Qed.

Lemma run_destroy_callbacks_raises q st e :
  run_destroy_callbacks q st = Raise e -> e = KeyError.
Proof.
  revert st. induction q as [|cb q IH]; intros st; [intros [=]|].
  simpl. destruct (__destroy _ _ st) eqn:Hd; simpl.
  - apply IH.
  - intros [= <-]. eapply destroy_raises, Hd.
Qed.

(** A list with a repeated element splits at the first repetition. *)
Lemma first_repetition (l : list loc) :
  ~ NoDup l ->
  exists done b rest, l = done ++ b :: rest /\ NoDup done /\ b ∈ done.
Proof.
  induction l as [|x l IH] using rev_ind; intros Hnd.
  - destruct Hnd. constructor.
  - destruct (decide (NoDup l)) as [Hl|Hl].
    + exists l, x, []. split_and!; [reflexivity | exact Hl |].
      destruct (decide (x ∈ l)) as [|Hx]; [assumption|].
      destruct Hnd. apply NoDup_app. split_and!; [exact Hl | | apply NoDup_singleton].
      intros y Hy ->%list_elem_of_singleton. tauto.
    + destruct (IH Hl) as (done & b & rest & -> & Hd & Hb).
      exists done, b, (rest ++ [x]). rewrite <- app_assoc. auto.
Qed.

Lemma destroy_not_Ok_with_repetition self bs st :
  ~ NoDup bs -> __destroy self bs st = Raise KeyError.
Proof.
  intros Hnd. destruct (__destroy self bs st) as [st'|e] eqn:H.
  - apply destroy_Ok_inv in H as [? _]. contradiction.
  - apply destroy_raises in H as ->. reflexivity.
Qed.


(** C9: a destroy callback raises KeyError, and the invalidation that runs
    it is aborted with that error, when the contract is absent from the
    child set of a recorded base at the moment its removal is attempted;
    when the contract is present at every attempted removal the callback
    returns, the contract is then in the child set of no recorded base, and
    no other element of any child set has changed. *)
Theorem destroy_fails_iff_entry_absent
    (self : loc) (base_contracts : list loc) (st : State) :
  (forall done b rest st1,
      base_contracts = done ++ b :: rest ->
      __destroy self done st = Ok st1 ->
      self ∉ child_contracts_of st1 b ->
      __destroy self base_contracts st = Raise KeyError
      /\ forall file before after st0,
           destroy_queue st0 !! file =
             Some (before
                   ++ {| destroy_self := self;
                         destroy_base_contracts := base_contracts |} :: after) ->
           run_destroy_callbacks before st0 = Ok st ->
           invalidate file st0 = Raise KeyError)
  /\ ((forall done b rest st1,
         base_contracts = done ++ b :: rest ->
         __destroy self done st = Ok st1 ->
         self ∈ child_contracts_of st1 b) ->
      exists st',
        __destroy self base_contracts st = Ok st'
        /\ (forall b, b ∈ base_contracts -> self ∉ child_contracts_of st' b)
        /\ forall b C, C <> self ->
             C ∈ child_contracts_of st' b <-> C ∈ child_contracts_of st b).
Proof.
  split.
  - intros done b rest st1 -> Hdone Habsent.
    assert (Hfail : __destroy self (done ++ b :: rest) st = Raise KeyError).
    { rewrite destroy_app, Hdone. simpl. unfold child_contracts_of in Habsent.
      destruct (heap st1 !! b) as [c|]; [|reflexivity].
      rewrite decide_False by exact Habsent. reflexivity. }
    split; [exact Hfail|].
    intros file before after st0 Hq Hbefore. unfold invalidate.
    rewrite Hq. simpl. rewrite run_destroy_callbacks_app, Hbefore. simpl.
    rewrite Hfail. reflexivity.
  - intros Hpresent.
    assert (Hok : exists st', __destroy self base_contracts st = Ok st').
    { induction base_contracts as [|b bs IH] using rev_ind.
      - exists st. reflexivity.
      - destruct IH as [st1 Hst1].
        { intros done b' rest st1 -> Hd.
          apply (Hpresent done b' (rest ++ [b]) st1); [|exact Hd].
          rewrite <- app_assoc. reflexivity. }
        pose proof (Hpresent bs b [] st1 eq_refl Hst1) as Hin.
        rewrite destroy_app, Hst1. simpl.
        unfold child_contracts_of in Hin.
        destruct (heap st1 !! b) as [c|]; [|set_solver].
        rewrite decide_True by exact Hin. eauto. }
    destruct Hok as [st' Hok]. exists st'. split; [exact Hok|].
    split.
    + intros b Hb. rewrite (destroy_children _ _ _ _ b Hok).
      rewrite decide_True by exact Hb. set_solver.
    + intros b C HC. rewrite (destroy_children _ _ _ _ b Hok).
      destruct (decide (b ∈ base_contracts)); set_solver.
Qed.

(** C10: when the inheritance specifiers of a contract resolve to one base
    more than once, its post-process callback records one base per specifier
    (so the recorded list repeats that base) while the contract is in that
    base's set once; the destroy callback it registers removes the contract
    at the first occurrence and raises KeyError at the second, in whatever
    state it is run, and any invalidation that runs it, the first one of the
    contract's file included, is aborted with that error. *)
Theorem duplicate_base_destroy_raises
    (self : loc) (c : ContractDefinition) (st st' : State) :
  heap st !! self = Some c ->
  ~ NoDup (resolved_bases st c) ->
  __post_process self st = Ok st' ->
  st' = ReferenceResolver.register_destroy_callback (_file c)
          {| destroy_self := self;
             destroy_base_contracts := resolved_bases st c |}
          (set_heap (heap st') st)
  /\ length (resolved_bases st c) = length (__base_contracts c)
  /\ (forall b, b ∈ resolved_bases st c ->
        child_contracts_of st' b = {[self]} ∪ child_contracts_of st b)
  /\ (exists done b rest st1,
        resolved_bases st c = done ++ b :: rest
        /\ b ∈ done
        /\ __destroy self done st' = Ok st1
        /\ self ∉ child_contracts_of st1 b)
  /\ (forall st'', __destroy self (resolved_bases st c) st'' = Raise KeyError)
  /\ (forall st'' file,
        {| destroy_self := self;
           destroy_base_contracts := resolved_bases st c |}
          ∈ default [] (destroy_queue st'' !! file) ->
        invalidate file st'' = Raise KeyError)
  /\ invalidate (_file c) st' = Raise KeyError.
Proof.
  intros Hc Hdup Hpp.
  pose proof (post_process_Ok _ _ _ Hpp) as (c' & Hc' & Hlen & Hdom & Hheap & Hst').
  assert (c' = c) as -> by congruence.
  assert (Hchildren : forall b, b ∈ resolved_bases st c ->
            child_contracts_of st' b = {[self]} ∪ child_contracts_of st b).
  { intros b Hb. unfold child_contracts_of. rewrite Hheap.
    rewrite decide_True by exact Hb. destruct (Hdom b Hb) as [cb ->].
    reflexivity. }
  assert (Hinvalidate : forall st'' file,
            {| destroy_self := self;
               destroy_base_contracts := resolved_bases st c |}
              ∈ default [] (destroy_queue st'' !! file) ->
            invalidate file st'' = Raise KeyError).
  { intros st'' file (before & after & Hq)%list_elem_of_split.
    unfold invalidate. rewrite Hq, run_destroy_callbacks_app.
    destruct (run_destroy_callbacks before st'') as [st1|e] eqn:Hbefore; simpl.
    - rewrite destroy_not_Ok_with_repetition by exact Hdup. reflexivity.
    - apply run_destroy_callbacks_raises in Hbefore as ->. reflexivity. }
  split_and!; [exact Hst' | exact Hlen | exact Hchildren | | | exact Hinvalidate |].
  - destruct (first_repetition _ Hdup) as (done & b & rest & Heq & Hnd & Hb).
    destruct (destroy_Ok self done st' Hnd) as [st1 Hst1].
    { intros b' Hb'. rewrite Hchildren; [set_solver|].
      rewrite Heq. apply elem_of_app. left. exact Hb'. }
    exists done, b, rest, st1. split_and!; [exact Heq | exact Hb | exact Hst1 |].
    rewrite (destroy_children _ _ _ _ b Hst1).
    rewrite decide_True by exact Hb. set_solver.
  - intros st''. apply destroy_not_Ok_with_repetition, Hdup.
  - apply Hinvalidate. rewrite Hst'. simpl. rewrite lookup_insert_eq. simpl.
    apply elem_of_app. right. left.
Qed.



Lemma destroy_fails_iff_entry_absent_witness :
  ContractDefinition.__destroy 1 [0; 0] session_B_C_resolved = Raise KeyError
  /\ exists st',
       ContractDefinition.__destroy 1 [0] session_B_C_resolved = Ok st'
       /\ 1 ∉ child_contracts_of st' 0.
Proof.
  split.
  - destruct (destroy_fails_iff_entry_absent 1 [0; 0] session_B_C_resolved)
      as [Hfail _].
    apply (Hfail [0] 0 []
             (session_of (__destroy 1 [0] session_B_C_resolved))).
    + reflexivity.
    + vm_compute. reflexivity.
    + by_computation.
  - destruct (destroy_fails_iff_entry_absent 1 [0] session_B_C_resolved)
      as [_ Hok].
    destruct Hok as (st' & Hst' & Hgone & _).
    + intros done b rest st1 Heq Hdone.
      destruct done as [|x [|y done]]; simpl in Heq; try discriminate.
      injection Heq as <- <-. injection Hdone as <-. by_computation.
    + exists st'. split; [exact Hst' | apply Hgone; left].
Defined.

Lemma duplicate_base_destroy_raises_witness :
  exists c,
    heap session_duplicate_base_before_C !! 2 = Some c
    /\ resolved_bases session_duplicate_base_before_C c = [0; 0; 1]
    /\ ContractDefinition.__post_process 2 session_duplicate_base_before_C
       = Ok session_duplicate_base_after_C
    /\ ContractDefinition.__destroy 2 [0; 0; 1] session_duplicate_base_after_C
       = Raise KeyError
    /\ invalidate "C.sol" session_duplicate_base_after_C = Raise KeyError.
Proof.
  eexists. split; [vm_compute; reflexivity|].
  match goal with
  | |- resolved_bases ?st ?c = _ /\ _ =>
      assert (Hc : heap st !! 2 = Some c) by (vm_compute; reflexivity);
      assert (Hr : resolved_bases st c = [0; 0; 1]) by (vm_compute; reflexivity);
      assert (Hpp : __post_process 2 st = Ok session_duplicate_base_after_C)
        by (vm_compute; reflexivity);
      assert (Hdup : ~ NoDup (resolved_bases st c))
        by (rewrite Hr; intros H; inversion H as [|? ? Hn]; apply Hn; left);
      destruct (duplicate_base_destroy_raises 2 c st _ Hc Hdup Hpp)
        as (_ & _ & _ & _ & Hd & _ & Hinv)
  end.
  split; [exact Hr|]. split; [exact Hpp|].
  split; [rewrite <- Hr; apply Hd | exact Hinv].
Defined.

End destroy_claims.

(** ** Construction *)

Section construction.
Import ContractDefinition.

(** Induction on raw nodes, with the hypothesis for every raw child. *)
Lemma SolcNode_nested_ind (P : SolcNode -> Prop) :
  (forall cls id nodes, Forall P nodes -> P (Solc cls id nodes)) ->
  (forall cls nodes, Forall P nodes -> P (Yul cls nodes)) ->
  (forall expression cases,
     P expression -> Forall P cases -> P (YulSwitch expression cases)) ->
  (forall e, P (Unexpected e)) ->
  forall n, P n.
Proof.
  intros Hsolc Hyul Hswitch Hunexpected. fix IH 1.
  intros [cls id nodes | cls nodes | expression cases | e].
  - apply Hsolc.
    induction nodes as [|n nodes IHn]; constructor; [apply IH | exact IHn].
  - apply Hyul.
    induction nodes as [|n nodes IHn]; constructor; [apply IH | exact IHn].
  - apply Hswitch; [apply IH|].
    induction cases as [|n cases IHn]; constructor; [apply IH | exact IHn].
  - apply Hunexpected.
Qed.

Lemma registers_refl st : registers st st.
Proof. split; [destruct st; reflexivity | reflexivity]. Qed.

Lemma registers_trans st1 st2 st3 :
  registers st1 st2 -> registers st2 st3 -> registers st1 st3.
Proof.
  intros [H1 Hs1] [H2 Hs2]. split; [|etrans; eassumption].
  rewrite H2 at 1. rewrite H1 at 1. reflexivity.
Qed.

Lemma register_node_registers cu id file node st st' :
  ReferenceResolver.register_node cu id file node st = Ok st' ->
  registers st st'
  /\ nodes_by_id st' !! (cu, id) = Some {| reg_file := file; reg_node := node |}.
Proof.
  unfold ReferenceResolver.register_node.
  destruct (nodes_by_id st !! (cu, id)) eqn:Hfree; [intros [=]|].
  intros [= <-]. simpl. split; [split|].
  - reflexivity.
  - apply insert_subseteq. exact Hfree.
  - apply lookup_insert_eq.
Qed.

Lemma construct_each_registers {A B} (f : A -> State -> result (B * State))
    (l : list A) st bs st' :
  Forall (λ a, forall st b st', f a st = Ok (b, st') -> registers st st') l ->
  construct_each f l st = Ok (bs, st') -> registers st st'.
Proof.
  intros Hl. revert st bs. induction Hl as [|a l Ha Hl IH]; intros st bs.
  - intros [= <- <-]. apply registers_refl.
  - simpl. intros H. inv_bind H. destruct a0 as [b st1]. simpl in H.
    inv_bind H. destruct a0 as [bs' st2]. simpl in H. injection H as <- <-.
    eapply registers_trans; [eapply Ha | eapply IH]; eassumption.
Qed.

Lemma Switch_init_registers child init expression cases st n st' :
  (forall st b st', child expression st = Ok (b, st') -> registers st st') ->
  Forall (λ a, forall st b st', child a st = Ok (b, st') -> registers st st')
    cases ->
  Switch.__init__ child init expression cases st = Ok (n, st') ->
  registers st st'.
Proof.
  intros Hexpr Hcases H. unfold Switch.__init__ in H.
  inv_bind H. destruct a as [expr st1]. simpl in H.
  inv_bind H. destruct a as [cs st2]. simpl in H. injection H as <- <-.
  eapply registers_trans; [|eapply construct_each_registers; eassumption].
  repeat case_match; try discriminate; eapply Hexpr; eassumption.
Qed.

Lemma construct_registers init raw :
  forall st n st', construct init raw st = Ok (n, st') -> registers st st'.
Proof.
  induction raw as [cls id nodes IH | cls nodes IH
                    | expression cases IHe IHc | e]
    using SolcNode_nested_ind; intros st n st' H.
  - simpl in H. inv_bind H. apply register_node_registers in Ha as [Ha _].
    inv_bind H. destruct a0 as [children st1]. simpl in H.
    injection H as <- <-.
    eapply registers_trans; [exact Ha|].
    eapply construct_each_registers; eassumption.
  - simpl in H. inv_bind H. destruct a as [children st1]. simpl in H.
    injection H as <- <-.
    eapply construct_each_registers; eassumption.
  - simpl in H. eapply Switch_init_registers; eassumption.
  - discriminate H.
Qed.

Lemma InheritanceSpecifier_init_registers init raw st s st' :
  InheritanceSpecifier___init__ init raw st = Ok (s, st') -> registers st st'.
Proof.
  unfold InheritanceSpecifier___init__. intros H.
  inv_bind H. apply register_node_registers in Ha as [Ha _].
  inv_bind H. destruct a0 as [children st1]. simpl in H. injection H as <- <-.
  eapply registers_trans; [exact Ha|].
  eapply construct_each_registers; [|eassumption].
  apply Forall_forall. intros. eapply construct_registers; eassumption.
Qed.

Lemma add_member_registers init node m st m' st' :
  add_member init node m st = Ok (m', st') -> registers st st'.
Proof.
  unfold add_member. intros H.
  repeat case_match;
    try (injection H as <- <-; apply registers_refl);
    inv_bind H; destruct a as [n st1]; simpl in H; injection H as <- <-;
    eapply construct_registers; eassumption.
Qed.

Lemma add_members_registers init nodes m st m' st' :
  add_members init nodes m st = Ok (m', st') -> registers st st'.
Proof.
  revert m st. induction nodes as [|node nodes IH]; intros m st.
  - intros [= <- <-]. apply registers_refl.
  - simpl. intros H. inv_bind H. destruct a as [m1 st1]. simpl in H.
    eapply registers_trans; [eapply add_member_registers | eapply IH];
      eassumption.
Qed.

Lemma init_documentation_registers init documentation st d st' :
  init_documentation init documentation st = Ok (d, st') -> registers st st'.
Proof.
  unfold init_documentation. intros H.
  destruct documentation as [|s|n|z]; try discriminate.
  - injection H as <- <-. apply registers_refl.
  - injection H as <- <-. apply registers_refl.
  - case_match; [|discriminate]. inv_bind H. destruct a as [doc st1].
    simpl in H. injection H as <- <-. eapply construct_registers; eassumption.
Qed.

(** What the constructor of a contract leaves in the session. *)
Lemma init_Ok init contract parent st self st' :
  __init__ init contract parent st = Ok (self, st') ->
  exists object,
    self = fresh (dom (heap st))
    /\ heap st' = <[self := object]> (heap st)
    /\ post_process_queue st' = post_process_queue st ++ [self]
    /\ destroy_queue st' = destroy_queue st
    /\ declaration_string_cache st' = declaration_string_cache st
    /\ nodes_by_id st ⊆ nodes_by_id st'
    /\ nodes_by_id st' !! (init_cu_hash init, sc_id contract)
       = Some {| reg_file := init_file init; reg_node := RefContract self |}
    /\ __child_contracts object = ∅
    /\ _ast_node object = contract
    /\ _file object = init_file init
    /\ _cu_hash object = init_cu_hash init
    /\ __kind object = sc_contract_kind contract
    /\ __linearized_base_contracts object
       = sc_linearized_base_contracts contract
    /\ _source object
       = slice (init_source init) (byte_offset (sc_src contract))
           (byte_offset (sc_src contract) + byte_length (sc_src contract)).
Proof.
  unfold __init__. intros H.
  inv_bind H. rename a into st1.
  apply register_node_registers in Ha as [Hr1 Hreg].
  inv_bind H. destruct a as [documentation st2]. simpl in H.
  apply init_documentation_registers in Ha.
  inv_bind H. destruct a as [base_contracts st3]. simpl in H.
  eapply construct_each_registers in Ha0;
    [|apply Forall_forall; intros;
      eapply InheritanceSpecifier_init_registers; eassumption].
  inv_bind H. destruct a as [m st4]. simpl in H.
  apply add_members_registers in Ha1.
  injection H as <- <-.
  pose proof (registers_trans _ _ _ Ha (registers_trans _ _ _ Ha0 Ha1)) as H14.
  pose proof (registers_trans _ _ _ Hr1 H14) as [Hst4 Hsub].
  destruct H14 as [_ Hsub14].
  eexists. split; [reflexivity|].
  rewrite Hst4. simpl.
  split_and!; try reflexivity.
  - exact Hsub.
  - eapply lookup_weaken; [exact Hreg | exact Hsub14].
Qed.

Lemma init_constructed init contract parent st self st' :
  constructed st ->
  __init__ init contract parent st = Ok (self, st') ->
  constructed st'.
Proof.
  intros [Hch Hnd Hq Hd Hreg Hbuilt] H.
  apply init_Ok in H
    as (object & -> & Hheap & Hqueue & Hdq & _ & Hsub & Hown & Hobj
        & Hast & Hfile & Hcu & Hkind & Hlin & Hsrc).
  assert (Hfresh : heap st !! fresh (dom (heap st)) = None).
  { apply not_elem_of_dom, is_fresh. }
  split.
  - intros l c. rewrite Hheap, lookup_insert.
    case_decide; [intros [= <-]; exact Hobj | apply Hch].
  - rewrite Hqueue. apply NoDup_app. split_and!.
    + exact Hnd.
    + intros l Hl ->%list_elem_of_singleton.
      apply Hq in Hl. rewrite Hfresh in Hl. destruct Hl; discriminate.
    + apply NoDup_singleton.
  - intros l. rewrite Hqueue, Hheap, elem_of_app, list_elem_of_singleton.
    rewrite lookup_insert. case_decide; subst.
    + split; eauto.
    + rewrite Hq. split; [intros [?|?]; [assumption | congruence] | auto].
  - rewrite Hdq. exact Hd.
  - intros l c. rewrite Hheap, lookup_insert. case_decide as Hl.
    + intros [= <-]. rewrite <- Hl, Hast, Hfile, Hcu. exact Hown.
    + intros Hc. eapply lookup_weaken; [apply Hreg, Hc | exact Hsub].
  - intros l c. rewrite Hheap, lookup_insert. case_decide as Hl.
    + intros [= <-]. unfold built. rewrite Hast, Hkind, Hlin, Hsrc. eauto.
    + apply Hbuilt.
Qed.

Lemma empty_session_constructed : constructed empty_session.
Proof.
  split; simpl.
  - intros l c. rewrite lookup_empty. discriminate.
  - constructor.
  - intros l. rewrite lookup_empty. split; [intros H; inversion H|].
    intros [? [=]].
  - reflexivity.
  - intros l c. rewrite lookup_empty. discriminate.
  - intros l c. rewrite lookup_empty. discriminate.
Qed.

Lemma construct_unit_constructed unit st st' :
  constructed st -> construct_unit unit st = Ok st' -> constructed st'.
Proof.
  revert st. induction unit as [|[[init contract] parent] unit IH]; intros st Hc.
  - intros [= <-]. exact Hc.
  - simpl. intros H. inv_bind H. destruct a as [self st1]. simpl in H.
    eapply IH; [|exact H]. eapply init_constructed; eassumption.
Qed.

End construction.

(** ** The queues of the resolver *)

Section queues.
Import ContractDefinition.

Lemma same_but_children_eq c c' :
  same_but_children c c' -> c' = with_child_contracts (__child_contracts c') c.
Proof.
  unfold same_but_children, with_child_contracts.
  destruct c, c'; simpl. intros [= -> -> -> -> -> -> -> -> -> -> -> -> -> -> -> -> -> -> -> -> ->].
  reflexivity.
Qed.

Lemma same_objects_refl st : same_objects st st.
Proof. intros l. destruct (heap st !! l); [reflexivity | exact I]. Qed.

Lemma same_objects_trans st1 st2 st3 :
  same_objects st1 st2 -> same_objects st2 st3 -> same_objects st1 st3.
Proof.
  intros H12 H23 l. specialize (H12 l). specialize (H23 l).
  destruct (heap st1 !! l), (heap st2 !! l), (heap st3 !! l); try tauto.
  eapply same_but_children_trans; eassumption.
Qed.

Lemma same_objects_Some st st' l c :
  same_objects st st' -> heap st !! l = Some c ->
  exists c', heap st' !! l = Some c' /\ same_but_children c c'.
Proof.
  intros H Hc. specialize (H l). rewrite Hc in H.
  destruct (heap st' !! l) as [c'|]; [eauto | contradiction].
Qed.

Lemma same_objects_Some_rev st st' l c' :
  same_objects st st' -> heap st' !! l = Some c' ->
  exists c, heap st !! l = Some c /\ same_but_children c c'.
Proof.
  intros H Hc. specialize (H l). rewrite Hc in H.
  destruct (heap st !! l) as [c|]; [eauto | contradiction].
Qed.

Lemma same_objects_lookup (f : ContractDefinition -> ContractDefinition)
    (P : loc -> Prop) `{!forall l, Decision (P l)} st st' :
  (forall c, same_but_children c (f c)) ->
  (forall l, heap st' !! l = if decide (P l) then f <$> heap st !! l
                             else heap st !! l) ->
  same_objects st st'.
Proof.
  intros Hf Hl l. rewrite Hl.
  destruct (decide (P l)), (heap st !! l); simpl; auto.
  apply same_but_children_refl.
Qed.

Lemma post_process_agree self st st' :
  __post_process self st = Ok st' ->
  agree st st'
  /\ post_process_queue st' = post_process_queue st
  /\ declaration_string_cache st' = declaration_string_cache st.
Proof.
  intros H. apply post_process_Ok in H as (c & Hc & _ & _ & Hheap & Hst').
  split; [split|].
  - rewrite Hst'. reflexivity.
  - eapply (same_objects_lookup (link self)); [|exact Hheap].
    intros c'. apply same_but_children_with.
  - rewrite Hst'. split; reflexivity.
Qed.

Lemma destroy_same_objects self bs st st' :
  __destroy self bs st = Ok st' -> same_objects st st'.
Proof.
  intros H. eapply (same_objects_lookup (unlink self)).
  - intros c'. apply same_but_children_with.
  - intros l. apply destroy_heap. exact H.
Qed.

Lemma resolved_bases_agree st st' c c' :
  nodes_by_id st' = nodes_by_id st -> same_but_children c c' ->
  resolved_bases st' c' = resolved_bases st c.
Proof.
  intros Hn ->%same_but_children_eq.
  unfold resolved_bases, resolves_to. simpl. rewrite Hn. reflexivity.
Qed.

Lemma inherits_agree st st' C B :
  agree st st' -> inherits st' C B <-> inherits st C B.
Proof.
  intros [Hn Hobj]. split.
  - intros (c' & Hc' & HB).
    destruct (same_objects_Some_rev _ _ _ _ Hobj Hc') as (c & Hc & Hsame).
    exists c. split; [exact Hc|].
    rewrite <- (resolved_bases_agree st st' c c' Hn Hsame). exact HB.
  - intros (c & Hc & HB).
    destruct (same_objects_Some _ _ _ _ Hobj Hc) as (c' & Hc' & Hsame).
    exists c'. split; [exact Hc'|].
    rewrite (resolved_bases_agree st st' c c' Hn Hsame). exact HB.
Qed.

Lemma destroy_callbacks_of_agree st st' file queue :
  agree st st' ->
  destroy_callbacks_of st' file queue = destroy_callbacks_of st file queue.
Proof.
  intros [Hn Hobj]. unfold destroy_callbacks_of.
  induction queue as [|C queue IH]; [reflexivity|].
  cbn [omap list_omap]. change (list_omap ?A ?B ?f ?l) with (omap f l).
  rewrite IH. pose proof (Hobj C) as HC.
  destruct (heap st !! C) as [c|], (heap st' !! C) as [c'|]; try tauto.
  rewrite (resolved_bases_agree st st' c c' Hn HC).
  apply same_but_children_eq in HC. rewrite HC. simpl. reflexivity.
Qed.

Lemma destroy_callbacks_of_cons st file C queue :
  destroy_callbacks_of st file (C :: queue) =
  match heap st !! C with
  | Some c =>
      if decide (_file c = file) then
        {| destroy_self := C; destroy_base_contracts := resolved_bases st c |}
        :: destroy_callbacks_of st file queue
      else destroy_callbacks_of st file queue
  | None => destroy_callbacks_of st file queue
  end.
Proof.
  unfold destroy_callbacks_of. cbn [omap list_omap].
  destruct (heap st !! C) as [c|]; [|reflexivity].
  destruct (decide (_file c = file)); reflexivity.
Qed.

Lemma elem_of_destroy_callbacks_of st file queue cb :
  cb ∈ destroy_callbacks_of st file queue <->
  exists c, destroy_self cb ∈ queue
            /\ heap st !! destroy_self cb = Some c
            /\ _file c = file
            /\ destroy_base_contracts cb = resolved_bases st c.
Proof.
  induction queue as [|C queue IH].
  - split; [intros H; inversion H | intros (c & H & _); inversion H].
  - rewrite destroy_callbacks_of_cons. split.
    + intros H.
      assert (Htail : cb ∈ destroy_callbacks_of st file queue ->
                exists c, destroy_self cb ∈ C :: queue
                  /\ heap st !! destroy_self cb = Some c
                  /\ _file c = file
                  /\ destroy_base_contracts cb = resolved_bases st c).
      { intros (c & Hq & Hrest)%IH. exists c. split; [right; exact Hq | exact Hrest]. }
      destruct (heap st !! C) as [c|] eqn:Hc; [|auto].
      destruct (decide (_file c = file)) as [Hf|]; [|auto].
      apply elem_of_cons in H as [->|H]; [|auto].
      exists c. simpl. split_and!; [left | exact Hc | exact Hf | reflexivity].
    + intros (c & Hq & Hc & Hf & Hb).
      apply elem_of_cons in Hq as [<-|Hq].
      * rewrite Hc, decide_True by exact Hf. rewrite <- Hb.
        destruct cb; simpl. left.
      * assert (cb ∈ destroy_callbacks_of st file queue)
          by (apply IH; exists c; auto).
        destruct (heap st !! C) as [c0|]; [|assumption].
        destruct (decide (_file c0 = file)); [right|]; assumption.
Qed.

(** What running a queue of post-process callbacks leaves behind. *)
Lemma run_callbacks_Ok queue st st' :
  run_callbacks queue st = Ok st' ->
  agree st st'
  /\ post_process_queue st' = post_process_queue st
  /\ (forall B C,
        C ∈ child_contracts_of st' B <->
        C ∈ child_contracts_of st B \/ (C ∈ queue /\ inherits st C B))
  /\ (forall file,
        default [] (destroy_queue st' !! file) =
        default [] (destroy_queue st !! file)
        ++ destroy_callbacks_of st file queue)
  /\ forall C B, C ∈ queue -> inherits st C B -> is_Some (heap st !! B).
Proof.
  revert st. induction queue as [|self queue IH]; intros st.
  - intros [= <-]. split_and!.
    + split; [reflexivity | apply same_objects_refl].
    + reflexivity.
    + intros B C. split; [auto | intros [H | [H _]]; [exact H | inversion H]].
    + intros file. rewrite app_nil_r. reflexivity.
    + intros C B H. inversion H.
  - intros H. simpl in H. inv_bind H. rename a into st1.
    destruct (IH _ H) as (Hag1 & Hq1 & Hch1 & Hdq1 & Hdom1).
    destruct (post_process_agree _ _ _ Ha) as (Hag & Hq & _).
    pose proof (post_process_Ok _ _ _ Ha) as (c & Hc & _ & Hdom & _ & Hst1).
    split_and!.
    + destruct Hag as [Hn Ho], Hag1 as [Hn1 Ho1].
      split; [congruence | eapply same_objects_trans; eassumption].
    + congruence.
    + intros B C. rewrite Hch1, (post_process_children _ _ _ B C Ha).
      rewrite (inherits_agree st st1 C B Hag), elem_of_cons.
      split; [intros [[H1|[-> H1]]|[H1 H2]] | intros [H1|[[->|H1] H2]]]; auto.
    + intros file. rewrite Hdq1, (destroy_callbacks_of_agree st st1 _ _ Hag).
      rewrite destroy_callbacks_of_cons, Hc, Hst1. simpl.
      rewrite lookup_insert. destruct (decide (_file c = file)) as [Hf|Hf].
      * simpl. rewrite Hf, <- app_assoc. reflexivity.
      * reflexivity.
    + intros C B [->|HC]%elem_of_cons Hin.
      * destruct Hin as (c' & Hc' & HB). assert (c' = c) as -> by congruence.
        apply Hdom, HB.
      * apply (inherits_agree st st1 C B Hag) in Hin.
        destruct (Hdom1 C B HC Hin) as [b1 Hb1]. destruct Hag as [_ Ho].
        destruct (same_objects_Some_rev _ _ _ _ Ho Hb1) as (b & Hb & _). eauto.
Qed.

(** A destroy callback removes its own contract from the sets of its
    recorded bases, and nothing else. *)
Lemma run_destroy_callbacks_Ok queue st st' :
  run_destroy_callbacks queue st = Ok st' ->
  st' = set_heap (heap st') st
  /\ same_objects st st'
  /\ forall B C,
       C ∈ child_contracts_of st' B <->
       C ∈ child_contracts_of st B
       /\ ~ exists cb, cb ∈ queue /\ destroy_self cb = C
                       /\ B ∈ destroy_base_contracts cb.
Proof.
  revert st. induction queue as [|cb queue IH]; intros st.
  - intros [= <-]. split_and!.
    + destruct st; reflexivity.
    + apply same_objects_refl.
    + intros B C. split; [|tauto]. intros H. split; [exact H|].
      intros (cb & Hcb & _). inversion Hcb.
  - intros H. simpl in H. inv_bind H. rename a into st1.
    destruct (IH _ H) as (Hfr1 & Ho1 & Hch1).
    split_and!.
    + rewrite Hfr1 at 1. rewrite (destroy_frame _ _ _ _ Ha) at 1. reflexivity.
    + eapply same_objects_trans; [eapply destroy_same_objects|]; eassumption.
    + intros B C. rewrite Hch1, (destroy_children _ _ _ _ B Ha).
      split.
      * intros [HC Hno]. split.
        -- destruct (decide _); set_solver.
        -- intros (cb' & [->|Hcb']%elem_of_cons & <- & HB).
           ++ rewrite decide_True in HC by exact HB. set_solver.
           ++ apply Hno. eauto.
      * intros [HC Hno]. split.
        -- destruct (decide (B ∈ destroy_base_contracts cb)) as [HB|]; [|exact HC].
           apply elem_of_difference. split; [exact HC|].
           intros ->%elem_of_singleton. apply Hno. exists cb.
           split_and!; [left | reflexivity | exact HB].
        -- intros (cb' & Hcb' & Hrest). apply Hno. exists cb'.
           split; [right; exact Hcb' | exact Hrest].
Qed.

End queues.

(** ** The bidirectional inheritance invariant *)

Section inheritance_invariant.
Import ContractDefinition.

Lemma invalidate_Ok file st st' :
  invalidate file st = Ok st' ->
  exists st1,
    run_destroy_callbacks (default [] (destroy_queue st !! file)) st = Ok st1
    /\ heap st' = heap st1
    /\ destroy_queue st' = delete file (destroy_queue st).
Proof.
  unfold invalidate. intros H. inv_bind H. rename a into st1.
  injection H as <-. exists st1. split; [exact Ha|]. simpl.
  destruct (run_destroy_callbacks_Ok _ _ _ Ha) as (-> & _). simpl. auto.
Qed.

(** An invalidation keeps the invariant, with its file added. *)
Lemma invalidate_invariant st1 queue done file st st' :
  (forall C, is_Some (heap st1 !! C) -> C ∈ queue) ->
  invalidation_invariant st1 queue done st ->
  invalidate file st = Ok st' ->
  invalidation_invariant st1 queue (file :: done) st'.
Proof.
  intros Hqueue (Hobj & Hch & Hdq) Ha.
  destruct (invalidate_Ok _ _ _ Ha) as (st'' & Hrun & Hheap & Hdq').
  destruct (run_destroy_callbacks_Ok _ _ _ Hrun) as (_ & Hobj' & Hch').
  assert (Hchildren : forall B, child_contracts_of st' B = child_contracts_of st'' B).
  { intros B. unfold child_contracts_of. rewrite Hheap. reflexivity. }
  split_and!.
  - intros l. specialize (Hobj l). specialize (Hobj' l). rewrite Hheap.
    destruct (heap st1 !! l), (heap st !! l), (heap st'' !! l); try tauto.
    eapply same_but_children_trans; eassumption.
  - intros B C. rewrite Hchildren, Hch', Hch, Hdq.
    destruct (decide (file ∈ done)) as [Hdone|Hdone].
    + split.
      * intros [(c & Hc & HB & Hf) _]. exists c. split_and!; auto.
        intros [Heq|?]%elem_of_cons; [|auto].
        apply Hf. rewrite Heq. exact Hdone.
      * intros (c & Hc & HB & Hf). split.
        -- exists c. split_and!; auto. intros ?. apply Hf. right. assumption.
        -- intros (cb & Hcb & _). inversion Hcb.
    + split.
      * intros [(c & Hc & HB & Hf) Hno]. exists c. split_and!; auto.
        intros [Heq|?]%elem_of_cons; [|auto].
        apply Hno.
        exists {| destroy_self := C;
                  destroy_base_contracts := resolved_bases st1 c |}.
        split_and!; [|reflexivity | exact HB].
        apply elem_of_destroy_callbacks_of. exists c. simpl.
        split_and!; [apply Hqueue; eauto | exact Hc | exact Heq | reflexivity].
      * intros (c & Hc & HB & Hf). split.
        -- exists c. split_and!; auto. intros ?. apply Hf. right. assumption.
        -- intros (cb & Hcb & <- & _).
           apply elem_of_destroy_callbacks_of in Hcb as (c' & _ & Hc' & Hf' & _).
           apply Hf. assert (c' = c) as -> by congruence.
           rewrite Hf'. left.
  - intros f. rewrite Hdq', lookup_delete.
    destruct (decide (file = f)) as [<-|Hne].
    + rewrite decide_True by left. reflexivity.
    + rewrite Hdq. destruct (decide (f ∈ done)) as [Hd|Hd].
      * rewrite decide_True by (right; exact Hd). reflexivity.
      * rewrite decide_False; [reflexivity|].
        intros [->|?]%elem_of_cons; tauto.
Qed.

Lemma invalidate_each_invariant st1 queue (files : list Path) :
  (forall C, is_Some (heap st1 !! C) -> C ∈ queue) ->
  forall (done : list Path) st st2,
    invalidation_invariant st1 queue done st ->
    invalidate_each files st = Ok st2 ->
    invalidation_invariant st1 queue (reverse files ++ done) st2.
Proof.
  intros Hqueue. induction files as [|file files IH]; intros done st st2 Hinv H.
  - injection H as <-. exact Hinv.
  - simpl in H. inv_bind H. rename a into st'.
    rewrite reverse_cons, <- app_assoc. simpl.
    eapply IH; [|exact H]. eapply invalidate_invariant; eassumption.
Qed.

(** Destroy callbacks of distinct contracts, each for distinct bases whose
    sets hold the contract, all return. *)
Lemma run_destroy_callbacks_returns queue st :
  NoDup (destroy_self <$> queue) ->
  (forall cb, cb ∈ queue ->
     NoDup (destroy_base_contracts cb)
     /\ forall b, b ∈ destroy_base_contracts cb ->
          destroy_self cb ∈ child_contracts_of st b) ->
  exists st', run_destroy_callbacks queue st = Ok st'.
Proof.
  revert st. induction queue as [|cb queue IH]; intros st Hnd Hall.
  - exists st. reflexivity.
  - rewrite fmap_cons in Hnd. apply NoDup_cons in Hnd as [Hcb Hnd].
    destruct (Hall cb ltac:(left)) as [Hbases Hin].
    destruct (destroy_Ok _ _ st Hbases Hin) as [st1 Hst1].
    simpl. rewrite Hst1. simpl. apply IH; [exact Hnd|].
    intros cb' Hcb'. destruct (Hall cb' ltac:(right; exact Hcb')) as [Hb' Hin'].
    split; [exact Hb'|]. intros b Hb.
    rewrite (destroy_children _ _ _ _ b Hst1).
    assert (destroy_self cb' <> destroy_self cb).
    { intros Heq. apply Hcb. rewrite <- Heq.
      apply list_elem_of_fmap. eauto. }
    specialize (Hin' b Hb). destruct (decide _); set_solver.
Qed.

Lemma destroy_callbacks_of_selves st file queue :
  NoDup queue -> NoDup (destroy_self <$> destroy_callbacks_of st file queue).
Proof.
  induction 1 as [|C queue HC Hnd IH]; [constructor|].
  rewrite destroy_callbacks_of_cons.
  destruct (heap st !! C) as [c|]; [|exact IH].
  destruct (decide (_file c = file)); [|exact IH].
  rewrite fmap_cons. simpl. constructor; [|exact IH].
  intros (cb & Hself & Hcb)%list_elem_of_fmap.
  apply elem_of_destroy_callbacks_of in Hcb as (c' & Hq & _).
  apply HC. rewrite Hself. exact Hq.
Qed.

(** With distinct bases for every contract, an invalidation returns. *)
Lemma invalidate_returns st1 queue done file st :
  NoDup queue ->
  (forall C c, heap st1 !! C = Some c -> NoDup (resolved_bases st1 c)) ->
  invalidation_invariant st1 queue done st ->
  exists st', invalidate file st = Ok st'.
Proof.
  intros Hnd Hbases (Hobj & Hch & Hdq).
  destruct (run_destroy_callbacks_returns
              (default [] (destroy_queue st !! file)) st) as [st'' Hrun].
  - rewrite Hdq. destruct (decide (file ∈ done)); [constructor|].
    apply destroy_callbacks_of_selves, Hnd.
  - intros cb. rewrite Hdq. destruct (decide (file ∈ done)) as [|Hdone];
      [intros H; inversion H|].
    intros (c & _ & Hc & Hf & Hb)%elem_of_destroy_callbacks_of.
    rewrite Hb. split; [eapply Hbases, Hc|].
    intros b Hin. apply Hch. exists c. split_and!; [exact Hc | exact Hin |].
    rewrite Hf. exact Hdone.
  - unfold invalidate. rewrite Hrun. simpl. eauto.
Qed.

Lemma invalidate_each_returns st1 queue (files : list Path) :
  (forall C, is_Some (heap st1 !! C) -> C ∈ queue) ->
  NoDup queue ->
  (forall C c, heap st1 !! C = Some c -> NoDup (resolved_bases st1 c)) ->
  forall (done : list Path) st,
    invalidation_invariant st1 queue done st ->
    exists st2, invalidate_each files st = Ok st2.
Proof.
  intros Hqueue Hnd Hbases. induction files as [|file files IH];
    intros done st Hinv.
  - exists st. reflexivity.
  - destruct (invalidate_returns _ _ _ file _ Hnd Hbases Hinv) as [st' Hst'].
    simpl. rewrite Hst'. simpl.
    eapply IH, invalidate_invariant; eassumption.
Qed.

(** The session right after [run_post_process] on a constructed unit. *)
Lemma run_post_process_Ok st0 st1 :
  constructed st0 ->
  run_post_process st0 = Ok st1 ->
  agree st0 st1
  /\ (forall B C, C ∈ child_contracts_of st1 B <-> inherits st1 C B)
  /\ (forall file,
        default [] (destroy_queue st1 !! file) =
        destroy_callbacks_of st1 file (post_process_queue st0))
  /\ (forall C, is_Some (heap st1 !! C) -> C ∈ post_process_queue st0)
  /\ forall C B, inherits st1 C B -> is_Some (heap st1 !! B).
Proof.
  intros [Hch Hnd Hq Hd _ _] H. unfold run_post_process in H.
  inv_bind H. rename a into st'. injection H as <-.
  destruct (run_callbacks_Ok _ _ _ Ha) as (Hag & _ & Hch' & Hdq & Hdom).
  assert (Hag1 : agree st0 (set_post_process_queue [] st')).
  { destruct Hag as [Hn Ho]. split; [exact Hn | exact Ho]. }
  assert (Hin : forall C B, inherits st0 C B -> C ∈ post_process_queue st0).
  { intros C B (c & Hc & _). apply Hq. eauto. }
  split_and!.
  - exact Hag1.
  - intros B C. rewrite (inherits_agree _ _ C B Hag1).
    change (C ∈ child_contracts_of st' B <-> inherits st0 C B).
    rewrite Hch'. split; [intros [H|[_ H]]; [|exact H] | eauto].
    unfold child_contracts_of in H.
    destruct (heap st0 !! B) as [b|] eqn:Hb; [|set_solver].
    rewrite (Hch B b Hb) in H. set_solver.
  - intros file. rewrite (destroy_callbacks_of_agree _ _ _ _ Hag1).
    change (default [] (destroy_queue st' !! file) =
            destroy_callbacks_of st0 file (post_process_queue st0)).
    rewrite Hdq, Hd, lookup_empty. reflexivity.
  - intros C [c Hc]. apply Hq. destruct Hag1 as [_ Ho].
    destruct (same_objects_Some_rev _ _ _ _ Ho Hc) as (c0 & Hc0 & _). eauto.
  - intros C B Hi. apply (inherits_agree _ _ C B Hag1) in Hi.
    destruct (Hdom C B (Hin C B Hi) Hi) as [b Hb]. destruct Hag1 as [_ Ho].
    destruct (same_objects_Some _ _ _ _ Ho Hb) as (b' & Hb' & _). eauto.
Qed.

(** When the callback of a contract is about to run, in the run of the
    queue of a constructed unit, the contract is in no child set. *)
Lemma in_no_child_set_before_own_callback st0 done C rest st :
  constructed st0 ->
  post_process_queue st0 = done ++ C :: rest ->
  run_callbacks done st0 = Ok st ->
  forall b, C ∉ child_contracts_of st b.
Proof.
  intros Hc0 Hqueue Hrun b HC.
  destruct (run_callbacks_Ok _ _ _ Hrun) as (_ & _ & Hch & _).
  apply Hch in HC as [HC | [HC _]].
  - unfold child_contracts_of in HC.
    destruct (heap st0 !! b) as [x|] eqn:Hb; [|set_solver].
    rewrite (constructed_children _ Hc0 b x Hb) in HC. set_solver.
  - pose proof (constructed_queue _ Hc0) as Hnd. rewrite Hqueue in Hnd.
    apply NoDup_app in Hnd as (_ & Hdisjoint & _).
    apply (Hdisjoint C HC). left.
Qed.

Lemma resolved_invalidation_invariant st0 st1 :
  constructed st0 ->
  run_post_process st0 = Ok st1 ->
  invalidation_invariant st1 (post_process_queue st0) [] st1.
Proof.
  intros Hc0 Hrun.
  destruct (run_post_process_Ok _ _ Hc0 Hrun) as (_ & Hch & Hdq & _).
  split_and!.
  - apply same_objects_refl.
  - intros B C. rewrite Hch. split.
    + intros (c & Hc & HB). exists c. split_and!; auto.
      intros Hin; inversion Hin.
    + intros (c & Hc & HB & _). exists c. auto.
  - intros file. rewrite Hdq. reflexivity.
Qed.

(** C1: in a session whose contracts were constructed and whose
    post-process callbacks have all run, a contract B has C among its
    child_contracts exactly when an inheritance specifier of C resolves to
    B; and after any sequence of file invalidations that has run from there,
    for a contract C with a specifier resolving to B, the set of B holds C
    exactly when the file of C is not among the invalidated ones.  Such a
    sequence runs to its end whenever no contract names a base twice. *)
Theorem bidirectional_inheritance_invariant
    (unit : list (IrInitTuple * SolcContractDefinition * AstNodeId))
    (st0 st1 : State) :
  construct_unit unit empty_session = Ok st0 ->
  run_post_process st0 = Ok st1 ->
  (forall B b C,
      heap st1 !! B = Some b ->
      C ∈ child_contracts b <-> inherits st1 C B)
  /\ (forall files st2,
        invalidate_each files st1 = Ok st2 ->
        forall B C c,
          heap st1 !! C = Some c ->
          B ∈ resolved_bases st1 c ->
          exists b2,
            heap st2 !! B = Some b2
            /\ (C ∈ child_contracts b2 <-> _file c ∉ files))
  /\ ((forall C c, heap st1 !! C = Some c -> NoDup (resolved_bases st1 c)) ->
      forall files, exists st2, invalidate_each files st1 = Ok st2).
Proof.
  intros Hunit Hrun.
  pose proof (construct_unit_constructed _ _ _ empty_session_constructed Hunit)
    as Hc0.
  destruct (run_post_process_Ok _ _ Hc0 Hrun) as (_ & Hch & Hdq & Hq & Hdom).
  pose proof (resolved_invalidation_invariant _ _ Hc0 Hrun) as Hinv.
  split_and!.
  - intros B b C Hb. specialize (Hch B C). unfold child_contracts_of in Hch.
    rewrite Hb in Hch. exact Hch.
  - intros files st2 Hfiles B C c Hc HB.
    destruct (invalidate_each_invariant st1 _ files Hq [] st1 st2 Hinv Hfiles)
      as (Hobj & Hch2 & _).
    destruct (Hdom C B) as [b Hb]; [exists c; auto|].
    destruct (same_objects_Some _ _ _ _ Hobj Hb) as (b2 & Hb2 & _).
    exists b2. split; [exact Hb2|].
    specialize (Hch2 B C). unfold child_contracts_of in Hch2.
    rewrite Hb2 in Hch2. unfold child_contracts. rewrite Hch2.
    rewrite app_nil_r. split.
    + intros (c' & Hc' & _ & Hf). rewrite elem_of_reverse in Hf. congruence.
    + intros Hf. exists c. split_and!; auto. rewrite elem_of_reverse. exact Hf.
  - intros Hbases files.
    eapply (invalidate_each_returns st1 _ files Hq); [|exact Hbases|exact Hinv].
    apply (constructed_queue _ Hc0).
Qed.

End inheritance_invariant.

Lemma bidirectional_inheritance_invariant_witness :
  construct_unit unit_X_Y empty_session = Ok session_X_Y
  /\ run_post_process session_X_Y = Ok session_X_Y_resolved
  /\ (exists x, heap session_X_Y_resolved !! 0 = Some x
                /\ 1 ∈ ContractDefinition.child_contracts x)
  /\ exists st2 x2,
       invalidate_each ["B.sol"] session_X_Y_resolved = Ok st2
       /\ heap st2 !! 0 = Some x2
       /\ 1 ∉ ContractDefinition.child_contracts x2.
Proof.
  assert (Hunit : construct_unit unit_X_Y empty_session = Ok session_X_Y)
    by (vm_compute; reflexivity).
  assert (Hrun : run_post_process session_X_Y = Ok session_X_Y_resolved)
    by (vm_compute; reflexivity).
  destruct (bidirectional_inheritance_invariant unit_X_Y _ _ Hunit Hrun)
    as (Hlinked & Hinvalidated & Hreturns).
  assert (Hy : exists y, heap session_X_Y_resolved !! 1 = Some y
                         /\ resolved_bases session_X_Y_resolved y = [0]
                         /\ _file y = "B.sol").
  { eexists. split; [vm_compute; reflexivity|].
    split; vm_compute; reflexivity. }
  destruct Hy as (y & Hy & Hbases & Hfile).
  split; [exact Hunit|]. split; [exact Hrun|]. split.
  - destruct (heap session_X_Y_resolved !! 0) as [x|] eqn:Hx;
      [|vm_compute in Hx; discriminate].
    exists x. split; [reflexivity|].
    apply (Hlinked 0 x 1 Hx). exists y. split; [exact Hy|].
    rewrite Hbases. left.
  - destruct (Hreturns) with (files := ["B.sol"]) as [st2 Hst2].
    { assert (Hall : map_Forall
                       (λ _ c, NoDup (resolved_bases session_X_Y_resolved c))
                       (heap session_X_Y_resolved)) by by_computation.
      intros C c Hc. exact (Hall C c Hc). }
    destruct (Hinvalidated ["B.sol"] st2 Hst2 0 1 y Hy) as (x2 & Hx2 & Hiff).
    + rewrite Hbases. left.
    + exists st2, x2. split; [exact Hst2|]. split; [exact Hx2|].
      rewrite Hiff, Hfile. intros Hnot. apply Hnot. left.
Defined.

(** ** Invalidating and rebuilding a file *)

Section invalidation_symmetry.
Import ContractDefinition.





End invalidation_symmetry.



(** ** Dispatch on raw node kinds *)

Section dispatch.
Import ContractDefinition.


(** One turn of the loop over [contract.nodes] constructs the node and
    appends it to the list of its class: for an element of the union of the
    nine member classes, the chain of tests never falls through. *)
Lemma add_member_constructs init (node : SolcMember) m st :
  add_member init node m st
  = '(n, st') ← construct init node st;
    Ok (with_member (member_class node) n m, st').
Proof.
  unfold add_member, isinstance.
  destruct node as [cls id nodes].
  generalize (construct init
                {| member_class := cls; member_id := id;
                   member_nodes := nodes |}).
  intros child. unfold member_node, solc_class, member_class.
  destruct cls;
    repeat (rewrite bool_decide_eq_false_2 by discriminate);
    rewrite bool_decide_eq_true_2 by reflexivity;
    (destruct (child st) as [[n st']|e]; simpl; [|reflexivity]);
    unfold with_member; simpl; rewrite ?app_nil_r; reflexivity.
Qed.

End dispatch.

(** ** Linearized base contracts *)

Section linearized.
Import ContractDefinition.

Lemma resolve_contracts_Ok ids cu st l :
  resolve_contracts ids cu st = Ok l ->
  Forall2 (bound_to_contract st cu) ids l.
Proof.
  revert l. induction ids as [|id ids IH]; intros l.
  - intros [= <-]. constructor.
  - simpl. unfold ReferenceResolver.resolve_node.
    destruct (nodes_by_id st !! (cu, id)) as [r|] eqn:Hr; [|intros [=]]. simpl.
    destruct (reg_node r) as [b|] eqn:Hb; [|intros [=]].
    intros H. inv_bind H. injection H as <-.
    constructor; [exists r; auto | apply IH, Ha].
Qed.

Lemma resolve_contracts_returns ids cu st l :
  Forall2 (bound_to_contract st cu) ids l ->
  resolve_contracts ids cu st = Ok l.
Proof.
  induction 1 as [|id b ids l (r & Hr & Hb) _ IH]; [reflexivity|].
  simpl. unfold ReferenceResolver.resolve_node. rewrite Hr. simpl.
  rewrite Hb, IH. reflexivity.
Qed.

(** The objects of a resolved session are as their constructors left them,
    child sets apart, and each is bound to its own ID. *)
Lemma resolved_session_objects st0 st1 C c :
  constructed st0 ->
  run_post_process st0 = Ok st1 ->
  heap st1 !! C = Some c ->
  built c
  /\ nodes_by_id st1 !! (_cu_hash c, sc_id (_ast_node c))
     = Some {| reg_file := _file c; reg_node := RefContract C |}.
Proof.
  intros Hc0 Hrun Hc.
  destruct (run_post_process_Ok _ _ Hc0 Hrun) as ([Hn Ho] & _).
  destruct (same_objects_Some_rev _ _ _ _ Ho Hc) as (c0 & Hc0' & Hsame).
  apply same_but_children_eq in Hsame. rewrite Hsame, Hn.
  split; [exact (constructed_built _ Hc0 _ _ Hc0')|].
  exact (constructed_registered _ Hc0 _ _ Hc0').
Qed.

(** C6: in a constructed and resolved unit, linearized_base_contracts of a
    contract C returns the contract objects that the IDs of the compiler's
    precomputed linearization are bound to, in the same order; with the
    precomputed linearization as the compiler gives it, C's own ID first
    and the IDs of its ancestors after it, each bound to a contract, the
    property returns and the first element is C itself. *)
Theorem linearized_base_contracts_rehydrates
    (unit : list (IrInitTuple * SolcContractDefinition * AstNodeId))
    (st0 st1 : State) (C : loc) (c : ContractDefinition) :
  construct_unit unit empty_session = Ok st0 ->
  run_post_process st0 = Ok st1 ->
  heap st1 !! C = Some c ->
  (forall l,
      linearized_base_contracts c st1 = Ok l ->
      Forall2 (bound_to_contract st1 (_cu_hash c))
        (sc_linearized_base_contracts (_ast_node c)) l)
  /\ forall rest bases,
       sc_linearized_base_contracts (_ast_node c)
       = sc_id (_ast_node c) :: rest ->
       Forall2 (bound_to_contract st1 (_cu_hash c)) rest bases ->
       linearized_base_contracts c st1 = Ok (C :: bases).
Proof.
  intros Hunit Hrun Hc.
  pose proof (construct_unit_constructed _ _ _ empty_session_constructed Hunit)
    as Hc0.
  destruct (resolved_session_objects _ _ _ _ Hc0 Hrun Hc)
    as [(Hlin & _ & _) Hown].
  unfold linearized_base_contracts. rewrite Hlin. split.
  - intros l. apply resolve_contracts_Ok.
  - intros rest bases -> Hrest. apply resolve_contracts_returns.
    constructor; [|exact Hrest]. eexists. split; [exact Hown | reflexivity].
Qed.

Lemma linearized_base_contracts_rehydrates_witness :
  exists c,
    heap session_B_C_resolved !! 1 = Some c
    /\ linearized_base_contracts c session_B_C_resolved = Ok [1; 0].
Proof.
  assert (Hunit : construct_unit unit_B_C empty_session = Ok session_B_C)
    by (vm_compute; reflexivity).
  assert (Hrun : run_post_process session_B_C = Ok session_B_C_resolved)
    by (vm_compute; reflexivity).
  assert (Hc : exists c, heap session_B_C_resolved !! 1 = Some c
                 /\ sc_linearized_base_contracts (_ast_node c)
                    = sc_id (_ast_node c) :: [1%Z]
                 /\ _cu_hash c = "unit").
  { eexists. split; [vm_compute; reflexivity|]. split; reflexivity. }
  destruct Hc as (c & Hc & Hlin & Hcu). exists c. split; [exact Hc|].
  destruct (linearized_base_contracts_rehydrates unit_B_C _ _ 1 c Hunit Hrun Hc)
    as [_ Hfirst].
  apply (Hfirst [1%Z] [0] Hlin). rewrite Hcu.
  constructor; [|constructor]. eexists. split; vm_compute; reflexivity.
Defined.

End linearized.

(** ** What is mutated after construction *)

Section frame.
Import ContractDefinition.

Lemma exposes_container_map {A} (f : A -> PyValue) (l : list A) :
  (forall a, exposes_container (f a) = false) ->
  existsb exposes_container (f <$> l) = false.
Proof.
  intros Hf. induction l as [|a l IH]; [reflexivity|].
  simpl. rewrite Hf. exact IH.
Qed.

Lemma getattr_frame str_kind splitlines text decode self name st v st' :
  getattr str_kind splitlines text decode self name st = Ok (v, st') ->
  st' = set_declaration_string_cache (declaration_string_cache st') st
  /\ exposes_container v = false
  /\ (name <> P_declaration_string -> st' = st).
Proof.
  unfold getattr. destruct (heap st !! self) as [c|] eqn:Hc; [|intros [=]].
  assert (Hst : st = set_declaration_string_cache (declaration_string_cache st) st)
    by (destruct st; reflexivity).
  destruct name;
    try (intros [= <- <-]; split_and!;
         [ exact Hst
         | first [ reflexivity
                 | simpl; apply exposes_container_map; reflexivity
                 | destruct (fully_implemented c); reflexivity
                 | destruct (documentation c) as [[d|s]|]; reflexivity ]
         | reflexivity ]).
  - unfold declaration_string. rewrite Hc.
    destruct (declaration_string_cache st !! self) as [s|]; simpl.
    + intros [= <- <-]. split_and!; [exact Hst | reflexivity | reflexivity].
    + intros [= <- <-]. split_and!; [reflexivity | reflexivity | congruence].
  - intros H. inv_bind H. injection H as <- <-.
    split_and!; [exact Hst | | reflexivity].
    simpl. apply (exposes_container_map VContract). reflexivity.
Qed.

(** C4: once a contract is constructed, the methods of the class change
    nothing of any contract but child sets: a post-process callback only
    adds its own contract to child sets (and registers its destroy
    callback); a destroy callback only removes its own contract from child
    sets; and reading a public property changes no contract, no ID binding
    and no queue (declaration_string fills its cache), and hands out no
    list or set object of a contract: only scalars, nodes, tuples, frozensets
    and a generator over a tuple. *)
Theorem only_child_contracts_is_mutated :
  (forall self st st',
      __post_process self st = Ok st' ->
      nodes_by_id st' = nodes_by_id st
      /\ post_process_queue st' = post_process_queue st
      /\ declaration_string_cache st' = declaration_string_cache st
      /\ same_objects st st'
      /\ forall l,
           child_contracts_of st l ⊆ child_contracts_of st' l
           /\ child_contracts_of st' l ⊆ {[self]} ∪ child_contracts_of st l)
  /\ (forall self base_contracts st st',
        __destroy self base_contracts st = Ok st' ->
        st' = set_heap (heap st') st
        /\ same_objects st st'
        /\ forall l,
             child_contracts_of st' l ⊆ child_contracts_of st l
             /\ child_contracts_of st l ∖ {[self]} ⊆ child_contracts_of st' l)
  /\ (forall str_kind splitlines text decode self name st v st',
        getattr str_kind splitlines text decode self name st = Ok (v, st') ->
        heap st' = heap st
        /\ nodes_by_id st' = nodes_by_id st
        /\ post_process_queue st' = post_process_queue st
        /\ destroy_queue st' = destroy_queue st
        /\ exposes_container v = false
        /\ (name <> P_declaration_string -> st' = st)).
Proof.
  split_and!.
  - intros self st st' H.
    destruct (post_process_agree _ _ _ H) as ([Hn Ho] & Hq & Hcache).
    split_and!; [exact Hn | exact Hq | exact Hcache | exact Ho |].
    intros l. split; intros C HC.
    + apply (post_process_children _ _ _ l C H). left. exact HC.
    + apply (post_process_children _ _ _ l C H) in HC as [HC|[-> _]];
        set_solver.
  - intros self bases st st' H.
    split_and!; [eapply destroy_frame, H | eapply destroy_same_objects, H |].
    intros l. rewrite (destroy_children _ _ _ _ l H).
    destruct (decide (l ∈ bases)); set_solver.
  - intros str_kind splitlines text decode self name st v st' H.
    apply getattr_frame in H as (Hst' & Hv & Hsame).
    split_and!; [rewrite Hst'; reflexivity .. | exact Hv | exact Hsame].
Qed.

Lemma only_child_contracts_is_mutated_witness :
  (exists st',
     __post_process 1 session_B_C_before_C = Ok st'
     /\ same_objects session_B_C_before_C st')
  /\ (exists st',
        __destroy 1 [0] session_B_C_resolved = Ok st'
        /\ same_objects session_B_C_resolved st')
  /\ exists v,
       getattr (λ _, "contract") (λ s, [s]) (λ _, "") String.string_of_list_byte
         0 P_child_contracts session_B_C_resolved
       = Ok (v, session_B_C_resolved)
       /\ exposes_container v = false.
Proof.
  destruct only_child_contracts_is_mutated as (Hpp & Hd & Hget).
  split_and!.
  - exists session_B_C_after_C.
    assert (H : __post_process 1 session_B_C_before_C = Ok session_B_C_after_C)
      by (vm_compute; reflexivity).
    split; [exact H|]. apply (Hpp _ _ _ H).
  - pose (st' := session_of (__destroy 1 [0] session_B_C_resolved)).
    assert (H : __destroy 1 [0] session_B_C_resolved = Ok st')
      by (vm_compute; reflexivity).
    exists st'. split; [exact H|]. apply (Hd _ _ _ _ H).
  - eexists. 
    assert (H : getattr (λ _, "contract") (λ s, [s]) (λ _, "")
                  String.string_of_list_byte 0 P_child_contracts
                  session_B_C_resolved
                = Ok (VFrozenSet {[1]}, session_B_C_resolved))
      by (vm_compute; reflexivity).
    split; [exact H|]. apply (Hget _ _ _ _ _ _ _ _ _ H).
Defined.

End frame.

(** ** Iteration *)

Section iteration.
Import ContractDefinition.

(** Induction on IR nodes, with the hypothesis for every owned child. *)
Lemma IrAbc_nested_ind (P : IrAbc -> Prop) :
  (forall cls id children, Forall P children -> P (Ir cls id children)) ->
  (forall cls children, Forall P children -> P (YulIr cls children)) ->
  (forall expression cases,
     P expression -> Forall P cases -> P (Switch expression cases)) ->
  forall n, P n.
Proof.
  intros Hir Hyul Hswitch. fix IH 1.
  intros [cls id children | cls children | expression cases].
  - apply Hir.
    induction children as [|n l IHl]; constructor; [apply IH | exact IHl].
  - apply Hyul.
    induction children as [|n l IHl]; constructor; [apply IH | exact IHl].
  - apply Hswitch; [apply IH|].
    induction cases as [|n l IHl]; constructor; [apply IH | exact IHl].
Qed.

Lemma position_lt_irrefl p : ~ position_lt p p.
Proof.
  induction p as [|i p IH]; intros H; inversion H; subst; [lia | auto].
Qed.

Lemma position_lt_trans p q r :
  position_lt p q -> position_lt q r -> position_lt p r.
Proof.
  intros Hpq. revert r. induction Hpq as [i p | i j p q Hij | i p q Hpq IH];
    intros r Hqr; inversion Hqr; subst.
  - constructor.
  - constructor.
  - constructor. lia.
  - constructor. assumption.
  - constructor. assumption.
  - apply position_lt_tail. apply IH. assumption.
Qed.

Lemma sorted_positions_NoDup (positions : list (list nat)) :
  StronglySorted position_lt positions -> NoDup positions.
Proof.
  induction 1 as [|p l _ IH Hall]; constructor; [|exact IH].
  intros Hin. rewrite Forall_forall in Hall.
  exact (position_lt_irrefl p (Hall p Hin)).
Qed.

Lemma fmap_flat_map {A B C} (g : B -> C) (f : A -> list B) (l : list A) :
  g <$> flat_map f l = flat_map (λ a, g <$> f a) l.
Proof.
  induction l as [|a l IH]; [reflexivity|].
  cbn [flat_map]. rewrite fmap_app, IH. reflexivity.
Qed.

Lemma flat_map_fmap {A B C} (g : A -> B) (f : B -> list C) (l : list A) :
  flat_map f (g <$> l) = flat_map (λ a, f (g a)) l.
Proof.
  induction l as [|a l IH]; [reflexivity|].
  rewrite fmap_cons. cbn [flat_map]. rewrite IH. reflexivity.
Qed.

(** Every [__iter__] yields the node and then, child by child, what the
    children yield. *)
Lemma iterate_node_unfold n :
  iterate_node n = n :: flat_map iterate_node (owned_children n).
Proof.
  destruct n
    as [c | s | [cls id children | cls children | expression cases]].
  - simpl. unfold __iter__. simpl. f_equal.
    rewrite !flat_map_app, !flat_map_fmap.
    f_equal. f_equal.
    destruct (__documentation c) as [[d|s]|]; simpl; rewrite ?app_nil_r; reflexivity.
  - simpl. unfold iter_specifier. rewrite flat_map_fmap. reflexivity.
  - simpl. unfold yield_from. simpl. f_equal.
    rewrite fmap_flat_map, flat_map_fmap. reflexivity.
  - simpl. unfold yield_from. simpl. f_equal.
    rewrite fmap_flat_map, flat_map_fmap. reflexivity.
  - simpl. unfold yield_from, Switch.__iter__. simpl. f_equal.
    rewrite fmap_app, fmap_flat_map, flat_map_fmap. reflexivity.
Qed.

Lemma forest_traversal_nil : forest_traversal [] [] [].
Proof.
  split_and!; [constructor | constructor | constructor |].
  intros i p'. split; [intros H; inversion H | intros (c & [=] & _)].
Qed.

Lemma forest_traversal_snoc siblings c ps sequence ps_c sequence_c :
  forest_traversal siblings ps sequence ->
  traversal c ps_c sequence_c ->
  forest_traversal (siblings ++ [c])
    (ps ++ ((length siblings ::.) <$> ps_c)) (sequence ++ sequence_c).
Proof.
  intros (Hnodes & Hsorted & Hne & Hiff) (Hnodes_c & Hsorted_c & Hiff_c).
  split_and!.
  - apply Forall2_app.
    + eapply Forall2_impl; [exact Hnodes|].
      intros p x (i & p' & c' & -> & Hi & Hx). exists i, p', c'.
      split_and!; [reflexivity | apply lookup_app_l_Some, Hi | exact Hx].
    + apply Forall2_fmap_l. eapply Forall2_impl; [exact Hnodes_c|].
      intros p x Hx. exists (length siblings), p, c.
      split_and!; [reflexivity | apply list_lookup_middle; reflexivity | exact Hx].
  - apply StronglySorted_app_2; [|exact Hsorted|].
    + intros p q Hp (q' & -> & _)%list_elem_of_fmap.
      rewrite Forall_forall in Hne. destruct p as [|i p']; [destruct (Hne _ Hp eq_refl)|].
      apply Hiff in Hp as (c' & Hi & _). apply lookup_lt_Some in Hi.
      constructor. exact Hi.
    + eapply StronglySorted_fmap; [|exact Hsorted_c].
      intros. apply position_lt_tail. assumption.
  - apply Forall_app. split; [exact Hne|].
    apply Forall_fmap, Forall_forall. intros p _. discriminate.
  - intros i p'. rewrite elem_of_app, list_elem_of_fmap, Hiff. split.
    + intros [(c' & Hi & Hp') | (q & [= -> ->] & Hq)].
      * exists c'. split; [apply lookup_app_l_Some, Hi | exact Hp'].
      * exists c. split; [apply list_lookup_middle; reflexivity|].
        apply Hiff_c, Hq.
    + intros (c' & Hi & Hp'). apply lookup_snoc_Some in Hi as [[_ Hi] | [-> ->]].
      * left. eauto.
      * right. exists p'. split; [reflexivity | apply Hiff_c, Hp'].
Qed.

Lemma forest_traversal_exists siblings :
  Forall (λ c, exists ps, traversal c ps (iterate_node c)) siblings ->
  exists ps, forest_traversal siblings ps (flat_map iterate_node siblings).
Proof.
  induction siblings as [|c siblings IH] using rev_ind; intros Hall.
  - exists []. apply forest_traversal_nil.
  - apply Forall_app in Hall as [Hsiblings Hc].
    apply Forall_singleton in Hc as [ps_c Hc].
    destruct (IH Hsiblings) as [ps Hps].
    eexists. rewrite flat_map_app. simpl. rewrite app_nil_r.
    apply forest_traversal_snoc; eassumption.
Qed.

Lemma traversal_node n ps sequence :
  forest_traversal (owned_children n) ps sequence ->
  traversal n ([] :: ps) (n :: sequence).
Proof.
  intros (Hnodes & Hsorted & Hne & Hiff). split_and!.
  - constructor; [reflexivity|].
    eapply Forall2_impl; [exact Hnodes|].
    intros p x (i & p' & c & -> & Hi & Hx). simpl. rewrite Hi. exact Hx.
  - constructor; [exact Hsorted|].
    eapply Forall_impl; [exact Hne|].
    intros [|i p] Hp; [destruct (Hp eq_refl) | constructor].
  - intros [|i p'].
    + split; [intros _; simpl; eauto | intros _; left].
    + rewrite elem_of_cons, Hiff. simpl. split.
      * intros [[=] | (c & -> & Hp')]. exact Hp'.
      * intros Hp'. right.
        destruct (owned_children n !! i) as [c|]; [eauto|].
        destruct Hp' as [? [=]].
Qed.

Lemma traversal_exists_from_children n :
  Forall (λ c, exists ps, traversal c ps (iterate_node c)) (owned_children n) ->
  exists ps, traversal n ps (iterate_node n).
Proof.
  intros Hall. destruct (forest_traversal_exists _ Hall) as [ps Hps].
  exists ([] :: ps). rewrite iterate_node_unfold. apply traversal_node, Hps.
Qed.

Lemma traversal_exists_ir (n : IrAbc) :
  exists ps, traversal (NIr n) ps (iterate_node (NIr n)).
Proof.
  induction n as [cls id children IH | cls children IH
                  | expression cases IHe IHc]
    using IrAbc_nested_ind; apply traversal_exists_from_children; simpl.
  - apply Forall_fmap. exact IH.
  - apply Forall_fmap. exact IH.
  - constructor; [exact IHe | apply Forall_fmap; exact IHc].
Qed.

Lemma traversal_exists (n : Node) :
  exists ps, traversal n ps (iterate_node n).
Proof.
  assert (Hir : forall l : list IrAbc,
            Forall (λ c, exists ps, traversal c ps (iterate_node c)) (NIr <$> l)).
  { intros l. apply Forall_fmap, Forall_forall. intros c _.
    apply traversal_exists_ir. }
  assert (Hspec : forall s, exists ps,
            traversal (NSpecifier s) ps (iterate_node (NSpecifier s))).
  { intros s. apply traversal_exists_from_children. simpl. apply Hir. }
  destruct n as [c | s | n].
  - apply traversal_exists_from_children. simpl.
    repeat (apply Forall_app; split); try apply Hir.
    + apply Forall_fmap, Forall_forall. intros s _. apply Hspec.
    + destruct (__documentation c) as [[d|s]|]; [|constructor..].
      apply (Hir [d]).
  - apply Hspec.
  - apply traversal_exists_ir.
Qed.

Lemma child_in_iterate n child :
  child ∈ owned_children n -> child ∈ iterate_node n.
Proof.
  intros Hchild. rewrite iterate_node_unfold. right.
  apply list_elem_of_In, in_flat_map. exists child.
  split; [apply list_elem_of_In, Hchild|].
  rewrite iterate_node_unfold. left. reflexivity.
Qed.

(** C5: iteration of a node of any class yields a finite sequence (a
    function of the node alone, so each call walks again and changes
    nothing) whose first element is the node itself and whose elements are
    the nodes at the positions of the subtree, every position taken exactly
    once, in depth-first pre-order.  For a contract the sequence is
    [ContractDefinition.__iter__], which reaches every specifier, the
    structured documentation and every member of the nine lists; for a
    switch it is [Switch.__iter__], over the expression and the cases. *)
Theorem iterate_is_preorder_traversal :
  (forall n : Node,
      head (iterate_node n) = Some n
      /\ exists positions : list (list nat),
           Forall2 (λ p x, node_at n p = Some x) positions (iterate_node n)
           /\ StronglySorted position_lt positions
           /\ NoDup positions
           /\ (forall p, p ∈ positions <-> is_Some (node_at n p))
           /\ length (iterate_node n) = length positions)
  /\ (forall c, iterate_node (NContract c) = __iter__ c)
  /\ (forall c s, s ∈ __base_contracts c -> NSpecifier s ∈ __iter__ c)
  /\ (forall c d,
        __documentation c = Some (DocStructured d) -> NIr d ∈ __iter__ c)
  /\ (forall c x,
        x ∈ __enums c ++ __errors c ++ __events c ++ __functions c
            ++ __modifiers c ++ __structs c ++ __user_defined_value_types c
            ++ __using_for_directives c ++ __declared_variables c ->
        NIr x ∈ __iter__ c)
  /\ (forall expression cases,
        iterate_node (NIr (Switch expression cases))
        = NIr <$> Switch.__iter__ iterate (Switch expression cases)
                    expression cases)
  /\ forall expression cases x,
       x = expression \/ x ∈ cases ->
       x ∈ Switch.__iter__ iterate (Switch expression cases)
             expression cases.
Proof.
  split_and!.
  - intros n. split; [rewrite iterate_node_unfold; reflexivity|].
    destruct (traversal_exists n) as (ps & Hnodes & Hsorted & Hiff).
    exists ps. split_and!; [exact Hnodes | exact Hsorted | | exact Hiff |].
    + apply sorted_positions_NoDup, Hsorted.
    + symmetry. eapply Forall2_length, Hnodes.
  - reflexivity.
  - intros c s Hs. apply (child_in_iterate (NContract c)). simpl.
    apply elem_of_app. left. apply list_elem_of_fmap. eauto.
  - intros c d Hd. apply (child_in_iterate (NContract c)). simpl.
    rewrite Hd. apply elem_of_app. right. left.
  - intros c x Hx. apply (child_in_iterate (NContract c)). simpl.
    apply elem_of_app. right. apply elem_of_app. right.
    rewrite <- !fmap_app. apply list_elem_of_fmap. eauto.
  - reflexivity.
  - intros expression cases x Hx.
    assert (H : NIr x ∈ iterate_node (NIr (Switch expression cases))).
    { apply child_in_iterate. simpl. destruct Hx as [->|Hx]; [left|right].
      apply list_elem_of_fmap. eauto. }
    simpl in H. unfold yield_from in H.
    apply list_elem_of_fmap in H as (y & [= <-] & Hy). exact Hy.
Qed.

Lemma iterate_is_preorder_traversal_witness :
  let switch := Switch (YulIr Identifier []) [YulIr Case [YulIr Literal []]] in
  head (iterate_node (NIr switch)) = Some (NIr switch)
  /\ YulIr Case [YulIr Literal []]
       ∈ Switch.__iter__ iterate switch (YulIr Identifier [])
           [YulIr Case [YulIr Literal []]]
  /\ exists c,
       heap session_B_C_resolved !! 1 = Some c
       /\ forall s, s ∈ __base_contracts c -> NSpecifier s ∈ __iter__ c.
Proof.
  destruct iterate_is_preorder_traversal
    as (Hall & _ & Hspecifiers & _ & _ & _ & Hswitch).
  split_and!.
  - apply Hall.
  - apply Hswitch. right. left.
  - eexists. split; [vm_compute; reflexivity|]. apply Hspecifiers.
Defined.

End iteration.

(** ** The matcher *)

Section matcher.
Import re.

Lemma strip_prefix_Some w s s' : strip_prefix w s = Some s' -> s = w ++ s'.
Proof.
  revert s. induction w as [|a w IH]; intros s; simpl.
  - intros [= ->]. reflexivity.
  - destruct s as [|b s]; [intros [=]|].
    destruct (Byte.eqb a b) eqn:Hab; [|intros [=]].
    apply Byte.byte_dec_bl in Hab as ->. intros ->%IH. reflexivity.
Qed.

Lemma strip_prefix_app w s : strip_prefix w (w ++ s) = Some s.
Proof.
  induction w as [|a w IH]; simpl; [reflexivity|].
  rewrite (Byte.byte_dec_lb (x:=a) eq_refl). exact IH.
Qed.

Lemma star_sound p k s pos res :
  star p k s pos = Some res ->
  exists w s', s = w ++ s' /\ forallb p w = true
               /\ k s' (pos + length w) = Some res.
Proof.
  revert pos. induction s as [|b s IH]; intros pos; simpl.
  - intros H. exists [], []. rewrite Nat.add_0_r. auto.
  - assert (Hstop : k (b :: s) pos = Some res ->
              exists w s', b :: s = w ++ s' /\ forallb p w = true
                           /\ k s' (pos + length w) = Some res).
    { intros H. exists [], (b :: s). rewrite Nat.add_0_r. auto. }
    destruct (p b) eqn:Hb; [|exact Hstop].
    destruct (star p k s (S pos)) as [c|] eqn:Hs; [|exact Hstop].
    intros [= <-]. destruct (IH _ Hs) as (w & s' & -> & Hw & Hk).
    exists (b :: w), s'. simpl. rewrite Hb, Hw.
    replace (pos + S (length w)) with (S pos + length w) by lia. auto.
Qed.

Lemma star_complete p k w s' pos :
  forallb p w = true -> is_Some (k s' (pos + length w)) ->
  is_Some (star p k (w ++ s') pos).
Proof.
  revert pos. induction w as [|b w IH]; intros pos Hw Hk.
  - simpl in *. rewrite Nat.add_0_r in Hk.
    destruct s' as [|b s']; simpl; [exact Hk|].
    destruct (p b); [|exact Hk].
    destruct (star p k s' (S pos)); [eauto | exact Hk].
  - simpl in Hw. apply andb_true_iff in Hw as [Hb Hw]. simpl. rewrite Hb.
    destruct (IH (S pos) Hw) as [c ->]; [|eauto].
    replace (S pos + length w) with (pos + length (b :: w)) by (simpl; lia).
    exact Hk.
Qed.

Lemma star_mono p (k1 k2 : bytes -> nat -> option captures) s pos :
  (forall s pos, is_Some (k1 s pos) -> is_Some (k2 s pos)) ->
  is_Some (star p k1 s pos) -> is_Some (star p k2 s pos).
Proof.
  intros Hk. revert pos. induction s as [|b s IH]; intros pos; simpl.
  - apply Hk.
  - destruct (p b); [|apply Hk].
    destruct (star p k1 s (S pos)) as [c|] eqn:H1.
    + intros _. destruct (IH (S pos)) as [c' ->]; [rewrite H1|]; eauto.
    + intros H%Hk. destruct (star p k2 s (S pos)); [eauto | exact H].
Qed.

(** A match found by the matcher is a match. *)
Lemma run_sound r : forall s pos caps k res,
  run r s pos caps k = Some res ->
  exists w s' caps',
    s = w ++ s' /\ matches r pos w caps caps'
    /\ k s' (pos + length w) caps' = Some res.
Proof.
  induction r as [|p|w|r1 IH1 r2 IH2|r IH|p|p|name r IH];
    intros s pos caps k res; simpl.
  - case_decide as Hpos; [|intros [=]]. subst pos. intros H.
    exists [], s, caps. split_and!; [reflexivity | constructor | exact H].
  - destruct s as [|b s]; [intros [=]|].
    destruct (p b) eqn:Hb; [|intros [=]]. intros H.
    exists [b], s, caps. simpl. rewrite Nat.add_1_r.
    split_and!; [reflexivity | constructor; exact Hb | exact H].
  - destruct (strip_prefix w s) as [s'|] eqn:Hw; [|intros [=]]. intros H.
    apply strip_prefix_Some in Hw as ->.
    exists w, s', caps. split_and!; [reflexivity | constructor | exact H].
  - intros H. apply IH1 in H as (w1 & s1 & caps1 & -> & Hm1 & H).
    apply IH2 in H as (w2 & s2 & caps2 & -> & Hm2 & H).
    exists (w1 ++ w2), s2, caps2. rewrite length_app, Nat.add_assoc, <- app_assoc.
    split_and!; [reflexivity | econstructor; eassumption | exact H].
  - destruct (run r s pos caps k) as [c|] eqn:Hr.
    + intros [= <-]. apply IH in Hr as (w & s' & caps' & -> & Hm & H).
      exists w, s', caps'. split_and!; [reflexivity | constructor; exact Hm | exact H].
    + intros H. exists [], s, caps. rewrite Nat.add_0_r.
      split_and!; [reflexivity | apply matches_Opt_none | exact H].
  - intros H. apply star_sound in H as (w & s' & -> & Hw & H).
    exists w, s', caps. split_and!; [reflexivity | constructor; exact Hw | exact H].
  - destruct s as [|b s]; [intros [=]|].
    destruct (p b) eqn:Hb; [|intros [=]]. intros H.
    apply star_sound in H as (w & s' & -> & Hw & H).
    exists (b :: w), s', caps. simpl.
    replace (pos + S (length w)) with (S pos + length w) by lia.
    split_and!; [reflexivity | constructor; assumption | exact H].
  - intros H. apply IH in H as (w & s' & caps' & -> & Hm & H).
    exists w, s', ((name, (pos, pos + length w)) :: caps').
    split_and!; [reflexivity | constructor; exact Hm | exact H].
Qed.

Lemma run_groups_irrelevant r : forall k,
  groups_irrelevant k ->
  groups_irrelevant (λ s pos caps, run r s pos caps k).
Proof.
  induction r as [|p|w|r1 IH1 r2 IH2|r IH|p|p|name r IH];
    intros k Hk s pos caps caps'; simpl.
  - case_decide; [apply Hk | intros [? [=]]].
  - destruct s as [|b s]; [intros [? [=]]|].
    destruct (p b); [apply Hk | intros [? [=]]].
  - destruct (strip_prefix w s); [apply Hk | intros [? [=]]].
  - apply (IH1 (λ s' pos' caps1, run r2 s' pos' caps1 k)). apply IH2, Hk.
  - intros H. destruct (run r s pos caps' k) as [c'|] eqn:Hr'; [eauto|].
    destruct (run r s pos caps k) as [c|] eqn:Hr.
    + destruct (IH k Hk s pos caps caps') as [c' Hc']; [rewrite Hr; eauto|].
      congruence.
    + revert H. apply Hk.
  - apply star_mono. intros s' pos'. apply Hk.
  - destruct s as [|b s]; [intros [? [=]]|].
    destruct (p b); [|intros [? [=]]].
    apply star_mono. intros s' pos'. apply Hk.
  - apply (IH (λ s' pos' caps1, k s' pos' ((name, (pos, pos')) :: caps1))).
    intros s' pos' c c'. apply Hk.
Qed.

(** Where there is a match, the matcher finds one. *)
Lemma groups_irrelevant_at k s pos pos' caps caps' :
  groups_irrelevant k -> pos = pos' ->
  is_Some (k s pos caps) -> is_Some (k s pos' caps').
Proof. intros Hk <-. apply Hk. Qed.

Lemma run_complete r : forall w pos caps0 caps1,
  matches r pos w caps0 caps1 ->
  forall s' caps caps2 k,
    groups_irrelevant k ->
    is_Some (k s' (pos + length w) caps2) ->
    is_Some (run r (w ++ s') pos caps k).
Proof.
  induction r as [|p|w0|r1 IH1 r2 IH2|r IH|p|p|name r IH];
    intros w pos caps0 caps1 Hm s' caps caps2 k Hk Hs; inversion Hm; subst.
  - simpl. eapply groups_irrelevant_at; [exact Hk | | exact Hs]. simpl; lia.
  - simpl. match goal with H : p _ = true |- _ => rewrite H end.
    eapply groups_irrelevant_at; [exact Hk | | exact Hs]. simpl; lia.
  - simpl. rewrite strip_prefix_app.
    eapply groups_irrelevant_at; [exact Hk | | exact Hs]. reflexivity.
  - simpl. rewrite <- app_assoc.
    match goal with
    | Hm1 : matches r1 _ _ _ _ |- _ =>
        eapply (IH1 _ _ _ _ Hm1 (w2 ++ s') caps caps
                  (λ s1 pos1 caps1, run r2 s1 pos1 caps1 k))
    end.
    + apply run_groups_irrelevant, Hk.
    + eapply IH2; [eassumption | exact Hk |].
      rewrite length_app, Nat.add_assoc in Hs. exact Hs.
  - simpl.
    match goal with
    | Hm1 : matches r _ _ _ _ |- _ =>
        destruct (IH _ _ _ _ Hm1 s' caps caps2 k Hk Hs) as [c ->]
    end.
    eauto.
  - simpl. destruct (run r s' pos caps k); [eauto|].
    eapply groups_irrelevant_at; [exact Hk | | exact Hs]. simpl; lia.
  - simpl. apply star_complete; [assumption|].
    eapply groups_irrelevant_at; [exact Hk | | exact Hs]. reflexivity.
  - simpl. match goal with H : p _ = true |- _ => rewrite H end.
    apply star_complete; [assumption|].
    eapply groups_irrelevant_at; [exact Hk | | exact Hs]. simpl; lia.
  - simpl.
    match goal with
    | Hm1 : matches r _ _ _ _ |- _ =>
        eapply (IH _ _ _ _ Hm1 s' caps caps2
                  (λ s1 pos1 caps1, k s1 pos1 ((name, (pos, pos1)) :: caps1)))
    end.
    + intros s1 pos1 c c'. apply Hk.
    + eapply groups_irrelevant_at; [exact Hk | | exact Hs]. reflexivity.
Qed.

(** [pattern.match(s)] returns a match exactly when a prefix of [s] is
    matched by the pattern, and then it describes such a prefix. *)
Lemma match_sound pattern s m :
  match_ pattern s = Some m ->
  exists w s', s = w ++ s' /\ matches pattern 0 w [] m.
Proof.
  unfold match_. intros H.
  apply run_sound in H as (w & s' & caps' & -> & Hm & [= <-]). eauto.
Qed.

Lemma match_complete pattern w s' caps0 caps1 :
  matches pattern 0 w caps0 caps1 -> is_Some (match_ pattern (w ++ s')).
Proof.
  intros Hm. unfold match_.
  eapply (run_complete _ _ _ _ _ Hm s' [] [] (λ _ _ caps, Some caps)).
  - intros s pos c c' _. eauto.
  - eauto.
Qed.

End matcher.

(** ** The name-span locator *)

Section locator.
Import re ContractDefinition.

Ltac invert_matches :=
  repeat match goal with
    | H : matches Bol _ _ _ _ |- _ => inversion H; subst; clear H
    | H : matches (Class _) _ _ _ _ |- _ => inversion H; subst; clear H
    | H : matches (Lit _) _ _ _ _ |- _ => inversion H; subst; clear H
    | H : matches (Seq _ _) _ _ _ _ |- _ => inversion H; subst; clear H
    | H : matches (Star _) _ _ _ _ |- _ => inversion H; subst; clear H
    | H : matches (Plus _) _ _ _ _ |- _ => inversion H; subst; clear H
    | H : matches (Group _ _) _ _ _ _ |- _ => inversion H; subst; clear H
    | H : matches (Opt _) _ _ _ _ |- _ => inversion H; subst; clear H
    end.

Lemma whitespace_app w1 w2 :
  whitespace w1 -> whitespace w2 -> whitespace (w1 ++ w2).
Proof.
  unfold whitespace. rewrite forallb_app. intros -> ->. reflexivity.
Qed.

(** What a match of the pattern of a kind looks like: the word ends with the
    identifier, which the group [name] spans. *)
Lemma pattern_match_name k w m :
  matches (pattern_of k) 0 w [] m ->
  exists ws1 abstract_ ws2 ws3 name,
    w = ws1 ++ abstract_ ++ ws2 ++ encode (keyword k) ++ ws3 ++ name
    /\ whitespace ws1
    /\ (abstract_ = []
        \/ (k = CONTRACT
            /\ exists b, space b = true /\ abstract_ = encode "abstract" ++ [b]))
    /\ whitespace ws2
    /\ ws3 <> [] /\ whitespace ws3
    /\ identifier name
    /\ group m "name" = Some (length w - length name, length w).
Proof.
  intros Hm.
  destruct k; unfold pattern_of, CONTRACT_RE, INTERFACE_RE, LIBRARY_RE,
    IDENTIFIER in Hm; invert_matches;
    match goal with
    | |- exists _ _ _ _ _,
           [] ++ ?ws1 ++ ?a ++ ?ws2 ++ encode _ ++ ?ws3 ++ ?name = _ /\ _ =>
        exists ws1, a, ws2, ws3, name
    | |- exists _ _ _ _ _, [] ++ ?ws1 ++ encode _ ++ ?ws3 ++ ?name = _ /\ _ =>
        exists ws1, [], [], ws3, name
    end;
    (split_and!;
     [ reflexivity
     | assumption
     | first [ left; reflexivity
             | right; split; [reflexivity|];
               eexists; split; [eassumption | reflexivity] ]
     | first [assumption | reflexivity]
     | discriminate
     | unfold whitespace; simpl; apply andb_true_iff; split; assumption
     | eexists _, _; split_and!; [reflexivity | assumption | assumption]
     | unfold group; rewrite decide_True by reflexivity;
       f_equal; f_equal; rewrite ?length_app; simpl;
       rewrite ?length_app; simpl; lia ]).
Qed.

Lemma matches_identifier pos name caps :
  identifier name ->
  matches (Group "name" IDENTIFIER) pos name caps
    (("name", (pos, pos + length name)) :: caps).
Proof.
  intros (b & w & -> & Hb & Hw). apply matches_Group.
  apply (matches_Seq _ _ pos [b] w caps caps caps).
  - apply matches_Class, Hb.
  - apply matches_Star, Hw.
Qed.

Lemma matches_keyword_name kw pos ws3 name caps :
  ws3 <> [] -> whitespace ws3 -> identifier name ->
  exists m,
    matches (Seq (Lit kw) (Seq (Plus space) (Group "name" IDENTIFIER)))
      pos (kw ++ ws3 ++ name) caps m.
Proof.
  intros Hne Hws Hname. destruct ws3 as [|b ws3]; [contradiction|].
  unfold whitespace in Hws. simpl in Hws. apply andb_true_iff in Hws as [Hb Hws].
  eexists. eapply matches_Seq; [apply matches_Lit|].
  eapply matches_Seq; [apply matches_Plus; assumption|].
  apply matches_identifier, Hname.
Qed.

(** A byte string of the leading pattern of a kind has a prefix that the
    compiled pattern of the kind matches. *)
Lemma leading_pattern_matches k s :
  leading_pattern k s ->
  exists w rest m, s = w ++ rest /\ matches (pattern_of k) 0 w [] m.
Proof.
  intros (ws1 & a & ws2 & ws3 & name & rest & -> & H1 & Ha & H2 & Hne & H3 & Hn).
  destruct k.
  - destruct Ha as [-> | (_ & b & Hb & ->)].
    + destruct (matches_keyword_name (encode "contract")
                  (0 + length (@nil byte) + length ws1 + length (@nil byte)
                   + length ws2) ws3 name [] Hne H3 Hn) as [m Hm].
      exists ([] ++ ws1 ++ [] ++ ws2 ++ encode "contract" ++ ws3 ++ name),
        rest, m.
      split; [rewrite <- !app_assoc; reflexivity|].
      unfold pattern_of, CONTRACT_RE.
      eapply matches_Seq; [apply matches_Bol|].
      eapply matches_Seq; [apply matches_Star, H1|].
      eapply matches_Seq; [apply matches_Opt_none|].
      eapply matches_Seq; [apply matches_Star, H2|].
      exact Hm.
    + destruct (matches_keyword_name (encode "contract")
                  (0 + length (@nil byte) + length ws1
                   + length (encode "abstract" ++ [b]) + length ws2)
                  ws3 name
                  [("1", (0 + length (@nil byte) + length ws1,
                          0 + length (@nil byte) + length ws1
                          + length (encode "abstract" ++ [b])))]
                  Hne H3 Hn) as [m Hm].
      exists ([] ++ ws1 ++ (encode "abstract" ++ [b]) ++ ws2
              ++ encode "contract" ++ ws3 ++ name), rest, m.
      split; [rewrite <- !app_assoc; reflexivity|].
      unfold pattern_of, CONTRACT_RE.
      eapply matches_Seq; [apply matches_Bol|].
      eapply matches_Seq; [apply matches_Star, H1|].
      eapply matches_Seq.
      { apply matches_Opt_some, matches_Group.
        eapply matches_Seq; [apply matches_Lit | apply matches_Class, Hb]. }
      eapply matches_Seq; [apply matches_Star, H2|].
      exact Hm.
  - destruct Ha as [-> | ([=] & _)].
    destruct (matches_keyword_name (encode "interface")
                (0 + length (@nil byte) + length (ws1 ++ ws2)) ws3 name []
                Hne H3 Hn) as [m Hm].
    exists ([] ++ (ws1 ++ ws2) ++ encode "interface" ++ ws3 ++ name), rest, m.
    split; [rewrite <- !app_assoc; reflexivity|].
    unfold pattern_of, INTERFACE_RE.
    eapply matches_Seq; [apply matches_Bol|].
    eapply matches_Seq; [apply matches_Star, whitespace_app; assumption|].
    exact Hm.
  - destruct Ha as [-> | ([=] & _)].
    destruct (matches_keyword_name (encode "library")
                (0 + length (@nil byte) + length (ws1 ++ ws2)) ws3 name []
                Hne H3 Hn) as [m Hm].
    exists ([] ++ (ws1 ++ ws2) ++ encode "library" ++ ws3 ++ name), rest, m.
    split; [rewrite <- !app_assoc; reflexivity|].
    unfold pattern_of, LIBRARY_RE.
    eapply matches_Seq; [apply matches_Bol|].
    eapply matches_Seq; [apply matches_Star, whitespace_app; assumption|].
    exact Hm.
Qed.

Lemma parse_name_location_unfold self :
  _parse_name_location self =
  match match_ (pattern_of (kind self)) (_source self) with
  | None => Raise AssertionError
  | Some m =>
      Ok ((byte_location self).1 + start m "name",
          (byte_location self).1 + end_ m "name")%Z
  end.
Proof. unfold _parse_name_location. destruct (kind self); reflexivity. Qed.

Lemma slice_length (b : bytes) start stop :
  length (slice b start stop) <= stop - start.
Proof. unfold slice. rewrite length_take. lia. Qed.

(** C8: [_parse_name_location] raises (the failed [assert match]) exactly
    when the source bytes of the declaration do not begin with the leading
    pattern of its kind, and returns a span exactly when they do. *)
Theorem parse_name_location_fails_iff_no_leading_pattern
    (self : ContractDefinition) :
  (_parse_name_location self = Raise AssertionError <->
   ~ leading_pattern (kind self) (_source self))
  /\ (leading_pattern (kind self) (_source self) <->
      exists span, _parse_name_location self = Ok span).
Proof.
  rewrite parse_name_location_unfold.
  destruct (match_ (pattern_of (kind self)) (_source self)) as [m|] eqn:Hmatch.
  - assert (Hlead : leading_pattern (kind self) (_source self)).
    { apply match_sound in Hmatch as (w & rest & Hs & Hm).
      apply pattern_match_name in Hm
        as (ws1 & a & ws2 & ws3 & name & -> & H1 & Ha & H2 & Hne & H3 & Hn & _).
      exists ws1, a, ws2, ws3, name, rest. rewrite Hs, <- !app_assoc. auto 10. }
    split; split.
    + intros [=].
    + intros Hno. contradiction.
    + intros _. eauto.
    + intros _. exact Hlead.
  - assert (Hno : ~ leading_pattern (kind self) (_source self)).
    { intros (w & rest & m & Hs & Hm)%leading_pattern_matches.
      pose proof (match_complete _ _ rest _ _ Hm) as [m' Hm'].
      rewrite <- Hs in Hm'. congruence. }
    split; split.
    + intros _. exact Hno.
    + reflexivity.
    + intros Hlead. contradiction.
    + intros (span & [=]).
Qed.

(** C7: for a contract as its constructor leaves it, a span returned by
    [_parse_name_location] lies within [byte_location]; its ends are the
    start of [byte_location] plus the offsets, within the source slice, of
    an identifier that follows the keyword of the kind and whitespace. *)
Theorem name_span_within_byte_location
    (self : ContractDefinition) (first last : Z) :
  built self ->
  _parse_name_location self = Ok (first, last) ->
  ((byte_location self).1 <= first < last)%Z
  /\ (last <= (byte_location self).2)%Z
  /\ exists before name after,
       _source self = before ++ name ++ after
       /\ identifier name
       /\ first = ((byte_location self).1 + Z.of_nat (length before))%Z
       /\ last = (first + Z.of_nat (length name))%Z
       /\ exists lead ws,
            before = lead ++ encode (keyword (kind self)) ++ ws
            /\ ws <> [] /\ whitespace ws.
Proof.
  intros (_ & _ & source & Hsource) Hparse.
  rewrite parse_name_location_unfold in Hparse.
  destruct (match_ (pattern_of (kind self)) (_source self)) as [m|] eqn:Hmatch;
    [|discriminate].
  injection Hparse as <- <-.
  apply match_sound in Hmatch as (w & rest & Hs & Hm).
  apply pattern_match_name in Hm
    as (ws1 & a & ws2 & ws3 & name & -> & H1 & Ha & H2 & Hne & H3 & Hn & Hgroup).
  unfold start, end_. rewrite Hgroup.
  pose proof (slice_length source (byte_offset (sc_src (_ast_node self)))
                (byte_offset (sc_src (_ast_node self))
                 + byte_length (sc_src (_ast_node self)))) as Hlen.
  rewrite <- Hsource, Hs in Hlen. rewrite !length_app in Hlen.
  assert (Hname : 0 < length name).
  { destruct Hn as (b & w' & -> & _). simpl. lia. }
  unfold byte_location. simpl. rewrite !length_app.
  split_and!; try lia.
  exists (ws1 ++ a ++ ws2 ++ encode (keyword (kind self)) ++ ws3), name, rest.
  split_and!.
  - rewrite Hs, <- !app_assoc. reflexivity.
  - exact Hn.
  - rewrite ?length_app. lia.
  - rewrite ?length_app. lia.
  - exists (ws1 ++ a ++ ws2), ws3. rewrite <- !app_assoc. auto.
Qed.

Lemma parse_name_location_fails_iff_no_leading_pattern_witness :
  (exists c,
     heap session_B_C !! 1 = Some c
     /\ _parse_name_location c = Ok (23, 24)%Z
     /\ leading_pattern (kind c) (_source c))
  /\ exists c,
       heap session_corrupted_source !! 0 = Some c
       /\ _parse_name_location c = Raise AssertionError
       /\ ~ leading_pattern (kind c) (_source c).
Proof.
  split.
  - eexists. split; [vm_compute; reflexivity|].
    match goal with
    | |- _parse_name_location ?c = _ /\ _ =>
        assert (H : _parse_name_location c = Ok (23, 24)%Z)
          by (vm_compute; reflexivity);
        destruct (parse_name_location_fails_iff_no_leading_pattern c)
          as [_ Hiff]
    end.
    split; [exact H|]. apply Hiff. eauto.
  - eexists. split; [vm_compute; reflexivity|].
    match goal with
    | |- _parse_name_location ?c = _ /\ _ =>
        assert (H : _parse_name_location c = Raise AssertionError)
          by (vm_compute; reflexivity);
        destruct (parse_name_location_fails_iff_no_leading_pattern c)
          as [Hiff _]
    end.
    split; [exact H|]. apply Hiff, H.
Defined.

Lemma name_span_within_byte_location_witness :
  exists c,
    heap session_B_C !! 1 = Some c
    /\ byte_location c = (14, 32)%Z
    /\ _parse_name_location c = Ok (23, 24)%Z
    /\ ((byte_location c).1 <= 23 < 24)%Z
    /\ (24 <= (byte_location c).2)%Z.
Proof.
  assert (Hunit : construct_unit unit_B_C empty_session = Ok session_B_C)
    by (vm_compute; reflexivity).
  pose proof (construct_unit_constructed _ _ _ empty_session_constructed Hunit)
    as Hconstructed.
  assert (Hc : exists c, heap session_B_C !! 1 = Some c
                 /\ byte_location c = (14, 32)%Z
                 /\ _parse_name_location c = Ok (23, 24)%Z).
  { eexists. split; [vm_compute; reflexivity|]. split; vm_compute; reflexivity. }
  destruct Hc as (c & Hc & Hloc & Hparse). exists c.
  destruct (name_span_within_byte_location c 23 24
              (constructed_built _ Hconstructed _ _ Hc) Hparse)
    as (Hfirst & Hlast & _).
  auto.
Defined.

End locator.

(** ** The scenarios of the specification *)

Section scenarios.
Import ContractDefinition.

(** [contract B {}], [contract C is B {}]: after construction and
    post-processing, [B.child_contracts == {C}] and
    [C.linearized_base_contracts == (C, B)]. *)
Example scenario_B_C :
  child_contracts_of session_B_C_resolved 0 = {[1]}
  /\ (c ← default (Raise KeyError) (Ok <$> heap session_B_C_resolved !! 1);
      linearized_base_contracts c session_B_C_resolved) = Ok [1; 0].
Proof. split; vm_compute; reflexivity. Qed.

(** [A.sol] defines X, [B.sol] defines [Y is X]: resolution succeeds in
    either order of construction. *)
Example scenario_either_order :
  child_contracts_of session_X_Y_resolved 0 = {[1]}
  /\ (st ← construct_unit (reverse unit_X_Y) empty_session;
      run_post_process st) = Ok session_Y_X_resolved
  /\ child_contracts_of session_Y_X_resolved 1 = {[0]}.
Proof. split_and!; vm_compute; reflexivity. Qed.

(** Invalidating [B.sol] empties [X.child_contracts]; constructing it again
    restores a set with the one, new, Y. *)
Example scenario_invalidate_and_rebuild :
  invalidate "B.sol" session_X_Y_resolved = Ok session_X_Y_invalidated
  /\ child_contracts_of session_X_Y_invalidated 0 = ∅
  /\ (st ← construct_unit (drop 1 unit_X_Y) session_X_Y_invalidated;
      run_post_process st) = Ok session_X_Y_rebuilt
  /\ child_contracts_of session_X_Y_rebuilt 0 = {[2]}.
Proof. split_and!; vm_compute; reflexivity. Qed.

(** A switch over an identifier with one case that holds a literal. *)
Example scenario_switch :
  iterate (Switch (YulIr Identifier []) [YulIr Case [YulIr Literal []]])
  = [ Switch (YulIr Identifier []) [YulIr Case [YulIr Literal []]];
      YulIr Identifier [];
      YulIr Case [YulIr Literal []];
      YulIr Literal [] ].
Proof. reflexivity. Qed.

(** [abstract contract] with a name made of every kind of identifier byte. *)
Example scenario_abstract_contract :
  re.match_ CONTRACT_RE (re.encode "  abstract contract  Foo_1$ is Bar {")
  = Some [("name", (21, 27)); ("1", (2, 11))].
Proof. vm_compute. reflexivity. Qed.

End scenarios.

(* ================================================================== *)
(** * Further properties of the destroy callback *)

Section destroy_order.
Import ContractDefinition.

Lemma unlink_comm a b c : unlink a (unlink b c) = unlink b (unlink a c).
Proof.
  unfold unlink, with_child_contracts; simpl. f_equal. set_solver.
Qed.

(** A returning callback leaves a session that is the old one with another
    heap. *)
Lemma destroy_frame_twice a bs b bs' st st1 st2 :
  __destroy a bs st = Ok st1 -> __destroy b bs' st1 = Ok st2 ->
  st2 = set_heap (heap st2) st.
Proof.
  intros H1 H2. apply destroy_frame in H1, H2. rewrite H1 in H2. exact H2.
Qed.

(** Two callbacks of different contracts that return one after the other
    return in the other order too, with the same session. *)
Lemma destroy_swap a bs b bs' st st1 st2 :
  a <> b ->
  __destroy a bs st = Ok st1 -> __destroy b bs' st1 = Ok st2 ->
  exists st1', __destroy b bs' st = Ok st1' /\ __destroy a bs st1' = Ok st2.
Proof.
  intros Hab H1 H2.
  destruct (destroy_Ok_inv _ _ _ _ H1) as [Hnd1 Hin1].
  destruct (destroy_Ok_inv _ _ _ _ H2) as [Hnd2 Hin2].
  destruct (destroy_Ok b bs' st Hnd2) as [st1' H1'].
  { intros l Hl. apply (destroy_shrinks _ _ _ _ l H1), Hin2, Hl. }
  destruct (destroy_Ok a bs st1' Hnd1) as [st2' H2'].
  { intros l Hl. rewrite (destroy_children _ _ _ _ l H1').
    specialize (Hin1 l Hl). destruct (decide (l ∈ bs')); set_solver. }
  exists st1'. split; [exact H1'|]. rewrite H2'. f_equal.
  rewrite (destroy_frame_twice _ _ _ _ _ _ _ H1 H2).
  rewrite (destroy_frame_twice _ _ _ _ _ _ _ H1' H2').
  f_equal. apply map_eq. intros l.
  rewrite (destroy_heap _ _ _ _ l H2'), (destroy_heap _ _ _ _ l H1').
  rewrite (destroy_heap _ _ _ _ l H2), (destroy_heap _ _ _ _ l H1).
  destruct (decide (l ∈ bs)), (decide (l ∈ bs')); try reflexivity.
  destruct (heap st !! l) as [c|]; simpl; [|reflexivity].
  rewrite unlink_comm. reflexivity.
Qed.

(** X1: [__destroy(self, base_contracts)] returns exactly when no base is
    recorded twice and [self] is, at the start, in the child set of every
    recorded base.  Every failure is the KeyError of [set.remove], and a
    returning call removes [self] from the sets of the recorded bases and
    leaves every other set as it was. *)
Theorem destroy_returns_iff_distinct_and_linked
    (self : loc) (base_contracts : list loc) (st : State) :
  ((exists st', __destroy self base_contracts st = Ok st') <->
   NoDup base_contracts
   /\ forall b, b ∈ base_contracts -> self ∈ child_contracts_of st b)
  /\ (forall e, __destroy self base_contracts st = Raise e -> e = KeyError)
  /\ forall st',
       __destroy self base_contracts st = Ok st' ->
       forall b,
         child_contracts_of st' b =
         if decide (b ∈ base_contracts)
         then child_contracts_of st b ∖ {[self]}
         else child_contracts_of st b.
Proof.
  split_and!.
  - split.
    + intros [st' H]. exact (destroy_Ok_inv _ _ _ _ H).
    + intros [Hnd Hin]. exact (destroy_Ok _ _ _ Hnd Hin).
  - intros e. apply destroy_raises.
  - intros st' H b. exact (destroy_children _ _ _ _ b H).
Qed.

(** X2: the destroy callbacks of two different contracts commute: run in
    either order from the same session they both return, with the same
    session, or both orders raise KeyError. *)
Theorem destroy_callbacks_of_distinct_contracts_commute
    (a b : loc) (bases_a bases_b : list loc) (st : State) :
  a <> b ->
  (__destroy a bases_a st ≫= __destroy b bases_b)
  = (__destroy b bases_b st ≫= __destroy a bases_a).
Proof.
  intros Hab.
  destruct (__destroy a bases_a st ≫= __destroy b bases_b) as [s|e] eqn:E1;
    destruct (__destroy b bases_b st ≫= __destroy a bases_a) as [s'|e'] eqn:E2.
  - inv_bind E1.
    destruct (destroy_swap _ _ _ _ _ _ _ Hab Ha E1) as (st1' & H1 & H2).
    rewrite H1 in E2. simpl in E2. congruence.
  - inv_bind E1.
    destruct (destroy_swap _ _ _ _ _ _ _ Hab Ha E1) as (st1' & H1 & H2).
    rewrite H1 in E2. simpl in E2. congruence.
  - inv_bind E2.
    destruct (destroy_swap _ _ _ _ _ _ _ (not_eq_sym Hab) Ha E2)
      as (st1' & H1 & H2).
    rewrite H1 in E1. simpl in E1. congruence.
  - assert (He : forall x xs y ys err,
               (__destroy x xs st ≫= __destroy y ys) = Raise err ->
               err = KeyError).
    { intros x xs y ys err [H | (s & _ & H)]%bind_Raise;
        exact (destroy_raises _ _ _ _ H). }
    rewrite (He _ _ _ _ _ E1), (He _ _ _ _ _ E2). reflexivity.
Qed.

(** X3: the order in which the bases are recorded in a destroy callback does
    not matter: two callbacks of the same contract whose base lists are
    permutations of each other have the same outcome. *)
Theorem destroy_order_of_bases_irrelevant
    (self : loc) (bases bases' : list loc) (st : State) :
  bases ≡ₚ bases' ->
  __destroy self bases st = __destroy self bases' st.
Proof.
  intros Hperm.
  assert (Hto : forall l l' s,
             l ≡ₚ l' -> __destroy self l st = Ok s ->
             __destroy self l' st = Ok s).
  { intros l l' s Hp H.
    destruct (destroy_Ok_inv _ _ _ _ H) as [Hnd Hin].
    destruct (destroy_Ok self l' st) as [s' H'].
    - rewrite <- Hp. exact Hnd.
    - intros x Hx. apply Hin. rewrite Hp. exact Hx.
    - rewrite H'. f_equal.
      rewrite (destroy_frame _ _ _ _ H), (destroy_frame _ _ _ _ H').
      f_equal. apply map_eq. intros x.
      rewrite (destroy_heap _ _ _ _ x H), (destroy_heap _ _ _ _ x H').
      destruct (decide (x ∈ l)) as [Hx|Hx], (decide (x ∈ l')) as [Hx'|Hx'];
        try reflexivity; exfalso.
      + apply Hx'. rewrite <- Hp. exact Hx.
      + apply Hx. rewrite Hp. exact Hx'. }
  destruct (__destroy self bases st) as [s|e] eqn:E1.
  - symmetry. exact (Hto _ _ _ Hperm E1).
  - destruct (__destroy self bases' st) as [s'|e'] eqn:E2.
    + rewrite (Hto _ _ _ (symmetry Hperm) E2) in E1. discriminate.
    + rewrite (destroy_raises _ _ _ _ E1), (destroy_raises _ _ _ _ E2).
      reflexivity.
Qed.

End destroy_order.

Lemma destroy_callbacks_of_distinct_contracts_commute_witness :
  1 <> 2
  /\ (ContractDefinition.__destroy 1 [0] session_B_C_D_resolved
        ≫= ContractDefinition.__destroy 2 [0; 1])
     = (ContractDefinition.__destroy 2 [0; 1] session_B_C_D_resolved
          ≫= ContractDefinition.__destroy 1 [0])
  /\ exists st',
       (ContractDefinition.__destroy 1 [0] session_B_C_D_resolved
          ≫= ContractDefinition.__destroy 2 [0; 1]) = Ok st'
       /\ child_contracts_of st' 0 = ∅.
Proof.
  split; [lia|]. split.
  - apply (destroy_callbacks_of_distinct_contracts_commute
             1 2 [0] [0; 1] session_B_C_D_resolved). lia.
  - eexists. split; [vm_compute; reflexivity|]. vm_compute. reflexivity.
Defined.

Lemma destroy_order_of_bases_irrelevant_witness :
  [0; 1] ≡ₚ [1; 0]
  /\ ContractDefinition.__destroy 2 [0; 1] session_B_C_D_resolved
     = ContractDefinition.__destroy 2 [1; 0] session_B_C_D_resolved
  /\ exists st',
       ContractDefinition.__destroy 2 [0; 1] session_B_C_D_resolved = Ok st'.
Proof.
  split; [apply Permutation_swap|]. split.
  - apply (destroy_order_of_bases_irrelevant
             2 [0; 1] [1; 0] session_B_C_D_resolved).
    apply Permutation_swap.
  - eexists. vm_compute. reflexivity.
Defined.

(* ================================================================== *)
(** * Further properties of the post-process callback *)

Section post_process_order.
Import ContractDefinition.

Lemma omap_cons_eq {A B} (f : A -> option B) a l :
  omap f (a :: l) = match f a with
                    | Some y => y :: omap f l
                    | None => omap f l
                    end.
Proof. reflexivity. Qed.

Lemma omap_length_le {A B} (f : A -> option B) l :
  length (omap f l) <= length l.
Proof.
  induction l as [|a l IH]; [reflexivity|].
  rewrite omap_cons_eq. destruct (f a); simpl; lia.
Qed.

Lemma omap_length_all {A B} (f : A -> option B) l :
  length (omap f l) = length l -> forall x, x ∈ l -> is_Some (f x).
Proof.
  induction l as [|a l IH]; intros Hlen x Hx; [inversion Hx|].
  rewrite omap_cons_eq in Hlen. pose proof (omap_length_le f l) as Hle.
  destruct (f a) as [y|] eqn:Hfa; simpl in Hlen; [|lia].
  apply elem_of_cons in Hx as [Hx|Hx].
  - rewrite Hx, Hfa. eauto.
  - apply IH; [lia | exact Hx].
Qed.

(** Where the loop of the callback fails: at the first specifier that does
    not resolve to a contract object. *)
Lemma post_process_loop_raises self cu specs acc st e :
  post_process_loop self cu specs acc st = Raise e ->
  exists done spec rest,
    specs = done ++ spec :: rest
    /\ (forall s, s ∈ done ->
          exists b, resolves_to st cu s = Some b /\ is_Some (heap st !! b))
    /\ match nodes_by_id st !! (cu, is_referenced_declaration spec) with
       | None => e = DanglingReference
       | Some r =>
           e = AssertionError
           /\ forall b, reg_node r = RefContract b -> heap st !! b = None
       end.
Proof.
  revert acc st. induction specs as [|spec specs IH]; intros acc st;
    [intros [=]|].
  rewrite post_process_loop_cons.
  destruct (resolves_to st cu spec) as [b|] eqn:Hr.
  - destruct (heap st !! b) as [c|] eqn:Hc.
    + intros H. apply IH in H as (done & spec' & rest & -> & Hdone & Hspec).
      exists (spec :: done), spec', rest. split; [reflexivity|]. split.
      * intros s Hs. apply elem_of_cons in Hs as [Hs|Hs].
        -- exists b. rewrite Hs, Hc. eauto.
        -- destruct (Hdone s Hs) as (b' & Hb' & Hin).
           exists b'. split; [exact Hb'|].
           simpl in Hin. rewrite lookup_insert in Hin.
           destruct (decide (b = b')) as [<-|]; [rewrite Hc; eauto | exact Hin].
      * simpl in Hspec.
        destruct (nodes_by_id st !! (cu, is_referenced_declaration spec'))
          as [r|]; [|exact Hspec].
        destruct Hspec as [He Hnone]. split; [exact He|].
        intros b' Hb'. specialize (Hnone b' Hb').
        rewrite lookup_insert in Hnone.
        destruct (decide (b = b')); [discriminate | exact Hnone].
    + intros [= <-]. exists [], spec, specs.
      split; [reflexivity|]. split; [intros s Hs; inversion Hs|].
      unfold resolves_to in Hr.
      destruct (nodes_by_id st !! (cu, is_referenced_declaration spec))
        as [r|]; [|discriminate].
      split; [reflexivity|]. intros b' Hb'. rewrite Hb' in Hr.
      injection Hr as <-. exact Hc.
  - unfold resolves_to in Hr.
    destruct (nodes_by_id st !! (cu, is_referenced_declaration spec))
      as [r|] eqn:Hn; intros [= <-]; exists [], spec, specs;
      (split; [reflexivity|]); (split; [intros s Hs; inversion Hs|]);
      rewrite Hn; [|reflexivity].
    split; [reflexivity|]. intros b' Hb'. rewrite Hb' in Hr. discriminate.
Qed.

Lemma post_process_returns_iff_resolvable self st :
  (exists st', __post_process self st = Ok st') <-> resolvable st self.
Proof.
  split.
  - intros [st' H]. apply post_process_Ok in H as (c & Hc & Hlen & Hdom & _).
    exists c. split; [exact Hc|]. intros spec Hs.
    destruct (omap_length_all _ _ Hlen spec Hs) as [b Hb].
    exists b. split; [exact Hb|].
    apply Hdom. apply list_elem_of_omap. eauto.
  - intros (c & Hc & Hall). unfold __post_process. rewrite Hc.
    destruct (post_process_loop_returns self (_cu_hash c) (__base_contracts c)
                [] st Hall) as (bases & st1 & ->).
    simpl. eauto.
Qed.

Lemma same_but_children_sym c c' :
  same_but_children c c' -> same_but_children c' c.
Proof. unfold same_but_children. congruence. Qed.

Lemma same_but_children_fields c c' :
  same_but_children c c' ->
  _cu_hash c' = _cu_hash c /\ __base_contracts c' = __base_contracts c.
Proof.
  intros H. split.
  - apply (f_equal _cu_hash) in H. simpl in H. congruence.
  - apply (f_equal __base_contracts) in H. simpl in H. congruence.
Qed.

Lemma agree_sym st st' : agree st st' -> agree st' st.
Proof.
  intros [Hn Hobj]. split; [congruence|]. intros l. specialize (Hobj l).
  destruct (heap st !! l), (heap st' !! l); try exact Hobj.
  apply same_but_children_sym, Hobj.
Qed.

Lemma resolvable_agree st st' C :
  agree st st' -> resolvable st C -> resolvable st' C.
Proof.
  intros [Hn Hobj] (c & Hc & Hall).
  destruct (same_objects_Some _ _ _ _ Hobj Hc) as (c' & Hc' & Hsame).
  destruct (same_but_children_fields _ _ Hsame) as (Hcu & Hb).
  exists c'. split; [exact Hc'|]. rewrite Hcu, Hb. intros spec Hs.
  destruct (Hall spec Hs) as (b & Hb' & [cb Hcb]). exists b. split.
  - unfold resolves_to. rewrite Hn. exact Hb'.
  - destruct (same_objects_Some _ _ _ _ Hobj Hcb) as (cb' & -> & _). eauto.
Qed.

Lemma run_callbacks_resolvable queue st st' :
  run_callbacks queue st = Ok st' -> forall C, C ∈ queue -> resolvable st C.
Proof.
  revert st. induction queue as [|C0 queue IH]; intros st H C HC;
    [inversion HC|].
  simpl in H. inv_bind H.
  apply elem_of_cons in HC as [HC|HC].
  - rewrite HC. apply post_process_returns_iff_resolvable. eauto.
  - apply post_process_agree in Ha as (Hag & _).
    apply (resolvable_agree a st); [apply agree_sym, Hag|].
    exact (IH _ H C HC).
Qed.

Lemma run_callbacks_returns queue st :
  (forall C, C ∈ queue -> resolvable st C) ->
  exists st', run_callbacks queue st = Ok st'.
Proof.
  revert st. induction queue as [|C0 queue IH]; intros st Hall; [simpl; eauto|].
  destruct (proj2 (post_process_returns_iff_resolvable C0 st)) as [st1 H1].
  { apply Hall. left. }
  simpl. rewrite H1. simpl. apply IH. intros C HC.
  apply post_process_agree in H1 as (Hag & _).
  apply (resolvable_agree st st1 C Hag). apply Hall. right. exact HC.
Qed.

(** X4: [__post_process] returns exactly when every inheritance specifier
    of the contract resolves to a contract object.  Otherwise it stops at
    the first specifier that does not: with the resolver's dangling-reference
    error when the referenced ID is unbound, with the AssertionError of the
    [isinstance] check when it is bound to something else. *)
Theorem post_process_returns_iff_bases_resolve
    (self : loc) (c : ContractDefinition) (st : State) :
  heap st !! self = Some c ->
  ((exists st', __post_process self st = Ok st') <->
   forall spec, spec ∈ __base_contracts c ->
     exists b, resolves_to st (_cu_hash c) spec = Some b
               /\ is_Some (heap st !! b))
  /\ forall e,
       __post_process self st = Raise e ->
       exists done spec rest,
         __base_contracts c = done ++ spec :: rest
         /\ (forall s, s ∈ done ->
               exists b, resolves_to st (_cu_hash c) s = Some b
                         /\ is_Some (heap st !! b))
         /\ match nodes_by_id st
                  !! (_cu_hash c, is_referenced_declaration spec) with
            | None => e = DanglingReference
            | Some r =>
                e = AssertionError
                /\ forall b, reg_node r = RefContract b -> heap st !! b = None
            end.
Proof.
  intros Hc. split.
  - rewrite post_process_returns_iff_resolvable. split.
    + intros (c' & Hc' & Hall). rewrite Hc in Hc'. injection Hc' as <-.
      exact Hall.
    + intros Hall. exists c. auto.
  - intros e. unfold __post_process. rewrite Hc. intros H.
    apply bind_Raise in H as [H | ([bases st1] & _ & H)]; [|discriminate].
    exact (post_process_loop_raises _ _ _ _ _ _ H).
Qed.

(** X5: the order in which the post-process callbacks run does not matter.
    If the callbacks of a queue return, they return in any other order too,
    and leave the same objects with the same child sets and the same ID
    bindings; each file gets the same destroy callbacks, up to their
    order. *)
Theorem post_process_callbacks_in_any_order
    (queue queue' : list loc) (st st1 : State) :
  queue ≡ₚ queue' ->
  run_callbacks queue st = Ok st1 ->
  exists st2,
    run_callbacks queue' st = Ok st2
    /\ heap st2 = heap st1
    /\ nodes_by_id st2 = nodes_by_id st1
    /\ post_process_queue st2 = post_process_queue st1
    /\ forall file,
         default [] (destroy_queue st2 !! file)
         ≡ₚ default [] (destroy_queue st1 !! file).
Proof.
  intros Hperm H1.
  destruct (run_callbacks_returns queue' st) as [st2 H2].
  { intros C HC. apply (run_callbacks_resolvable _ _ _ H1).
    rewrite Hperm. exact HC. }
  exists st2. split; [exact H2|].
  apply run_callbacks_Ok in H1 as ([Hn1 Hobj1] & Hq1 & Hch1 & Hdq1 & _).
  apply run_callbacks_Ok in H2 as ([Hn2 Hobj2] & Hq2 & Hch2 & Hdq2 & _).
  split_and!.
  - apply map_eq. intros l.
    pose proof (Hobj1 l) as S1. pose proof (Hobj2 l) as S2.
    pose proof (Hch1 l) as C1. pose proof (Hch2 l) as C2.
    unfold child_contracts_of in C1, C2.
    destruct (heap st !! l) as [c|], (heap st1 !! l) as [c1|],
      (heap st2 !! l) as [c2|]; try contradiction; [|reflexivity].
    f_equal.
    rewrite (same_but_children_eq _ _ S1), (same_but_children_eq _ _ S2).
    f_equal. apply set_eq. intros C. rewrite C1, C2.
    split; (intros [?|[HC ?]]; [left; assumption | right; split; [|assumption]]).
    + rewrite Hperm. exact HC.
    + rewrite <- Hperm. exact HC.
  - congruence.
  - congruence.
  - intros file. rewrite Hdq1, Hdq2.
    apply Permutation_app; [reflexivity|].
    unfold destroy_callbacks_of. apply omap_Permutation. symmetry. exact Hperm.
Qed.

End post_process_order.

Lemma post_process_returns_iff_bases_resolve_witness :
  exists c,
    heap session_B_C_before_C !! 1 = Some c
    /\ forall spec, spec ∈ __base_contracts c ->
         exists b, resolves_to session_B_C_before_C (_cu_hash c) spec = Some b
                   /\ is_Some (heap session_B_C_before_C !! b).
Proof.
  eexists. split; [vm_compute; reflexivity|].
  apply (proj1 (proj1 (post_process_returns_iff_bases_resolve
                         1 _ session_B_C_before_C
                         ltac:(vm_compute; reflexivity)))).
  eexists. vm_compute. reflexivity.
Defined.

Lemma post_process_callbacks_in_any_order_witness :
  exists st1 st2,
    run_callbacks [0; 1; 2] session_B_C_D = Ok st1
    /\ run_callbacks [2; 1; 0] session_B_C_D = Ok st2
    /\ heap st2 = heap st1
    /\ child_contracts_of st2 0 = {[1; 2]}.
Proof.
  assert (H1 : run_callbacks [0; 1; 2] session_B_C_D
               = Ok (session_of (run_callbacks [0; 1; 2] session_B_C_D)))
    by (vm_compute; reflexivity).
  destruct (post_process_callbacks_in_any_order [0; 1; 2] [2; 1; 0]
              session_B_C_D _ (symmetry (reverse_Permutation [0; 1; 2])) H1)
    as (st2 & H2 & Hheap & _).
  exists (session_of (run_callbacks [0; 1; 2] session_B_C_D)), st2.
  split; [exact H1|]. split; [exact H2|]. split; [exact Hheap|].
  unfold child_contracts_of. rewrite Hheap. vm_compute. reflexivity.
Defined.

(* ================================================================== *)
(** * Further properties of construction *)

Section construction_results.
Import ContractDefinition.

(** A loop of constructors whose results do not depend on the session
    returns the image of the raw list. *)
Lemma construct_each_fmap {A B} (f : A -> State -> result (B * State))
    (g : A -> B) (l : list A) st bs st' :
  Forall (λ a, forall st b st', f a st = Ok (b, st') -> b = g a) l ->
  construct_each f l st = Ok (bs, st') -> bs = g <$> l.
Proof.
  intros Hl. revert st bs. induction Hl as [|a l Ha Hl IH]; intros st bs.
  - intros [= <- <-]. reflexivity.
  - intros H. simpl in H. inv_bind H. destruct a0 as [b st1]. simpl in H.
    inv_bind H. destruct a0 as [bs' st2]. simpl in H. injection H as <- <-.
    rewrite fmap_cons. f_equal; [eapply Ha | eapply IH]; eassumption.
Qed.

(** The steps of a returning switch constructor. *)
Lemma Switch_init_Ok_inv child init expression cases st n st' :
  Switch.__init__ child init expression cases st = Ok (n, st') ->
  exists expr st1 cs,
    solc_class expression ∈ switch_expression_classes
    /\ child expression st = Ok (expr, st1)
    /\ construct_each child cases st1 = Ok (cs, st')
    /\ n = Switch expr cs.
Proof.
  unfold Switch.__init__, isinstance. intros H.
  inv_bind H. destruct a as [expr st1]. simpl in H.
  inv_bind H. destruct a as [cs st2]. simpl in H. injection H as <- <-.
  exists expr, st1, cs. unfold switch_expression_classes.
  repeat case_bool_decide; try discriminate;
    (split_and!; [set_solver | assumption | assumption | reflexivity]).
Qed.

Lemma construct_switch init expression cases st :
  construct init (YulSwitch expression cases) st
  = Switch.__init__ (construct init) init expression cases st.
Proof. reflexivity. Qed.

Lemma construct_Solc init cls id nodes st :
  construct init (Solc cls id nodes) st
  = (st ← ReferenceResolver.register_node (init_cu_hash init) id
             (init_file init) (RefIr (ir_class cls)) st;
     '(children, st) ← construct_each (construct init) nodes st;
     Ok (Ir (ir_class cls) id children, st)).
Proof. reflexivity. Qed.

Lemma construct_Yul init cls nodes st :
  construct init (Yul cls nodes) st
  = ('(children, st) ← construct_each (construct init) nodes st;
     Ok (YulIr (yul_ir_class cls) children, st)).
Proof. reflexivity. Qed.

(** Construction mirrors the raw tree, whatever the session. *)
Lemma construct_mirrors init raw :
  forall st n st', construct init raw st = Ok (n, st') -> n = ir_of_raw raw.
Proof.
  induction raw as [cls id nodes IH | cls nodes IH
                    | expression cases IHe IHc | e]
    using SolcNode_nested_ind; intros st n st' H.
  - rewrite construct_Solc in H. inv_bind H.
    inv_bind H. destruct a0 as [children st1]. simpl in H.
    injection H as <- <-.
    change (ir_of_raw (Solc cls id nodes))
      with (Ir (ir_class cls) id (ir_of_raw <$> nodes)).
    f_equal. eapply construct_each_fmap; [|eassumption].
    eapply Forall_impl; [exact IH|]. intros raw Hraw st2 b st3.
    apply Hraw.
  - rewrite construct_Yul in H.
    inv_bind H. destruct a as [children st1]. simpl in H.
    injection H as <- <-.
    change (ir_of_raw (Yul cls nodes))
      with (YulIr (yul_ir_class cls) (ir_of_raw <$> nodes)).
    f_equal. eapply construct_each_fmap; [|eassumption].
    eapply Forall_impl; [exact IH|]. intros raw Hraw st2 b st3.
    apply Hraw.
  - rewrite construct_switch in H.
    apply Switch_init_Ok_inv in H
      as (expr & st1 & cs & _ & Hexpr & Hcases & ->).
    change (ir_of_raw (YulSwitch expression cases))
      with (Switch (ir_of_raw expression) (ir_of_raw <$> cases)).
    f_equal; [eapply IHe; eassumption|].
    eapply construct_each_fmap; [|eassumption].
    eapply Forall_impl; [exact IHc|]. intros raw Hraw st2 b st3.
    apply Hraw.
  - discriminate H.
Qed.

Lemma construct_each_mirrors init nodes st ns st' :
  construct_each (construct init) nodes st = Ok (ns, st') ->
  ns = ir_of_raw <$> nodes.
Proof.
  apply construct_each_fmap, Forall_forall. intros raw _ st1 b st2.
  apply construct_mirrors.
Qed.

Lemma forest_ids (f : SolcNode -> IrAbc) (nodes : list SolcNode) :
  Forall (λ raw, omap ir_id (iterate (f raw)) = raw_ids raw) nodes ->
  omap ir_id (flat_map iterate (f <$> nodes)) = flat_map raw_ids nodes.
Proof.
  induction 1 as [|raw nodes Hraw _ IH]; [reflexivity|].
  rewrite fmap_cons. cbn [flat_map]. rewrite omap_app, Hraw, IH. reflexivity.
Qed.

(** Iterating the mirror of a raw tree visits the IDs of the raw tree in
    pre-order. *)
Lemma iterate_ids_of_raw raw :
  omap ir_id (iterate (ir_of_raw raw)) = raw_ids raw.
Proof.
  induction raw as [cls id nodes IH | cls nodes IH
                    | expression cases IHe IHc | e]
    using SolcNode_nested_ind.
  - change (omap ir_id (ir_of_raw (Solc cls id nodes)
                        :: flat_map iterate (ir_of_raw <$> nodes))
            = id :: flat_map raw_ids nodes).
    cbn [omap list_omap ir_of_raw ir_id]. f_equal. apply forest_ids, IH.
  - change (omap ir_id (ir_of_raw (Yul cls nodes)
                        :: flat_map iterate (ir_of_raw <$> nodes))
            = flat_map raw_ids nodes).
    cbn [omap list_omap ir_of_raw ir_id]. apply forest_ids, IH.
  - change (omap ir_id (ir_of_raw (YulSwitch expression cases)
                        :: iterate (ir_of_raw expression)
                           ++ flat_map iterate (ir_of_raw <$> cases))
            = raw_ids expression ++ flat_map raw_ids cases).
    cbn [omap list_omap ir_of_raw ir_id].
    change (omap ir_id (iterate (ir_of_raw expression)
                        ++ flat_map iterate (ir_of_raw <$> cases))
            = raw_ids expression ++ flat_map raw_ids cases).
    rewrite omap_app, IHe. f_equal. apply forest_ids, IHc.
  - reflexivity.
Qed.

Lemma forest_nodes (nodes : list SolcNode) :
  Forall (λ raw, iterate (ir_of_raw raw) = ir_of_raw <$> raw_nodes raw) nodes ->
  flat_map iterate (ir_of_raw <$> nodes)
  = ir_of_raw <$> flat_map raw_nodes nodes.
Proof.
  induction 1 as [|raw nodes Hraw _ IH]; [reflexivity|].
  rewrite fmap_cons. cbn [flat_map]. rewrite fmap_app, Hraw, IH. reflexivity.
Qed.

(** Iterating the mirror of a raw tree visits the mirrors of the raw nodes
    in pre-order. *)
Lemma iterate_nodes_of_raw raw :
  iterate (ir_of_raw raw) = ir_of_raw <$> raw_nodes raw.
Proof.
  induction raw as [cls id nodes IH | cls nodes IH
                    | expression cases IHe IHc | e]
    using SolcNode_nested_ind.
  - change (ir_of_raw (Solc cls id nodes)
            :: flat_map iterate (ir_of_raw <$> nodes)
            = ir_of_raw (Solc cls id nodes)
              :: (ir_of_raw <$> flat_map raw_nodes nodes)).
    f_equal. apply forest_nodes, IH.
  - change (ir_of_raw (Yul cls nodes)
            :: flat_map iterate (ir_of_raw <$> nodes)
            = ir_of_raw (Yul cls nodes)
              :: (ir_of_raw <$> flat_map raw_nodes nodes)).
    f_equal. apply forest_nodes, IH.
  - change (ir_of_raw (YulSwitch expression cases)
            :: iterate (ir_of_raw expression)
               ++ flat_map iterate (ir_of_raw <$> cases)
            = ir_of_raw (YulSwitch expression cases)
              :: (ir_of_raw <$> (raw_nodes expression
                                 ++ flat_map raw_nodes cases))).
    rewrite fmap_app, IHe. f_equal. f_equal. apply forest_nodes, IHc.
  - reflexivity.
Qed.

Lemma members_of_class_app cls l1 l2 :
  members_of_class cls (l1 ++ l2)
  = members_of_class cls l1 ++ members_of_class cls l2.
Proof. unfold members_of_class. rewrite filter_app, fmap_app. reflexivity. Qed.

Lemma members_extended_by_refl m : members_extended_by m m [].
Proof.
  unfold members_extended_by, members_of_class. rewrite !filter_nil.
  simpl. rewrite !app_nil_r. split_and!; reflexivity.
Qed.

Lemma members_extended_by_trans m1 m2 m3 l1 l2 :
  members_extended_by m1 m2 l1 -> members_extended_by m2 m3 l2 ->
  members_extended_by m1 m3 (l1 ++ l2).
Proof.
  unfold members_extended_by. rewrite !members_of_class_app, !app_assoc.
  intros (H1 & H2 & H3 & H4 & H5 & H6 & H7 & H8 & H9)
         (-> & -> & -> & -> & -> & -> & -> & -> & ->).
  rewrite H1, H2, H3, H4, H5, H6, H7, H8, H9. split_and!; reflexivity.
Qed.

(** One turn of the member loop appends the node to the list of its
    class. *)
Lemma add_member_Ok init node m st m' st' :
  add_member init node m st = Ok (m', st') ->
  members_extended_by m m' [node].
Proof.
  rewrite add_member_constructs. intros Hadd.
  inv_bind Hadd. destruct a as [n st1]. simpl in Hadd.
  apply construct_mirrors in Ha as ->. injection Hadd as <- <-.
  unfold members_extended_by, members_of_class, with_member; simpl.
  rewrite !filter_cons, !filter_nil.
  destruct node as [[] id nodes]; simpl;
    repeat case_decide; try congruence;
    rewrite ?app_nil_r; split_and!; reflexivity.
Qed.

Lemma add_members_Ok init nodes m st m' st' :
  add_members init nodes m st = Ok (m', st') ->
  members_extended_by m m' nodes.
Proof.
  revert m st. induction nodes as [|node nodes IH]; intros m st.
  - intros [= <- <-]. apply members_extended_by_refl.
  - simpl. intros H. inv_bind H. destruct a as [m1 st1]. simpl in H.
    apply (members_extended_by_trans m m1 m' [node] nodes).
    + eapply add_member_Ok; eassumption.
    + eapply IH; eassumption.
Qed.

(** X6: the loop over [contract.nodes] sorts the body of the contract by
    class.  Each of the nine member lists holds the nodes of its class, as
    IR nodes and in source order. *)
Theorem member_loop_partitions_by_class
    (init : IrInitTuple) (nodes : list SolcMember) (st : State)
    (m : Members) (st' : State) :
  add_members init nodes no_members st = Ok (m, st') ->
  m_enums m = members_of_class SolcEnumDefinition nodes
  /\ m_errors m = members_of_class SolcErrorDefinition nodes
  /\ m_events m = members_of_class SolcEventDefinition nodes
  /\ m_functions m = members_of_class SolcFunctionDefinition nodes
  /\ m_modifiers m = members_of_class SolcModifierDefinition nodes
  /\ m_structs m = members_of_class SolcStructDefinition nodes
  /\ m_user_defined_value_types m
     = members_of_class SolcUserDefinedValueTypeDefinition nodes
  /\ m_using_for_directives m = members_of_class SolcUsingForDirective nodes
  /\ m_declared_variables m = members_of_class SolcVariableDeclaration nodes.
Proof.
  intros H. apply add_members_Ok in H. exact H.
Qed.

(** X7: a switch that [Switch.__init__] returns has an expression whose raw
    class is YulFunctionCall, YulIdentifier or YulLiteral; its expression
    and its cases are the nodes built for the raw expression and for the
    raw cases, in order; and [Switch.__iter__] visits it in the pre-order of
    the raw switch: the switch, the subtree of the expression, the subtrees
    of the cases. *)
Theorem constructed_switch_iterates_in_raw_order
    (init : IrInitTuple) (expression : SolcNode)
    (cases : list SolcNode) (st : State) (n : IrAbc) (st' : State) :
  Switch.__init__ (construct init) init expression cases st = Ok (n, st') ->
  solc_class expression ∈ switch_expression_classes
  /\ exists expr cs,
       n = Switch expr cs
       /\ Switch.expression expr = ir_of_raw expression
       /\ Switch.cases cs = ir_of_raw <$> cases
       /\ Switch.__iter__ iterate n (Switch.expression expr)
            (Switch.cases cs)
          = ir_of_raw <$> raw_nodes (YulSwitch expression cases).
Proof.
  intros H.
  pose proof H as Hn. rewrite <- construct_switch in Hn.
  apply construct_mirrors in Hn.
  apply Switch_init_Ok_inv in H as (_ & _ & _ & Hcls & _).
  split; [exact Hcls|].
  exists (ir_of_raw expression), (ir_of_raw <$> cases).
  split; [exact Hn|]. unfold Switch.expression, Switch.cases.
  split_and!; [reflexivity | reflexivity |].
  rewrite Hn. apply (iterate_nodes_of_raw (YulSwitch expression cases)).
Qed.

End construction_results.

Lemma member_loop_partitions_by_class_witness :
  exists m st',
    ContractDefinition.add_members (example_init "A.sol" "contract B {}")
      [ {| member_class := SolcFunctionDefinition; member_id := 5;
           member_nodes := [] |};
        {| member_class := SolcVariableDeclaration; member_id := 6;
           member_nodes := [] |};
        {| member_class := SolcEnumDefinition; member_id := 7;
           member_nodes := [] |};
        {| member_class := SolcFunctionDefinition; member_id := 8;
           member_nodes := [] |} ]
      no_members empty_session = Ok (m, st')
    /\ m_functions m = [Ir FunctionDefinition 5 []; Ir FunctionDefinition 8 []]
    /\ m_enums m = [Ir EnumDefinition 7 []]
    /\ m_declared_variables m = [Ir VariableDeclaration 6 []].
Proof.
  eexists _, _. split; [vm_compute; reflexivity|].
  match goal with
  | |- m_functions ?m = _ /\ _ =>
      destruct (member_loop_partitions_by_class
                  (example_init "A.sol" "contract B {}")
                  [ {| member_class := SolcFunctionDefinition; member_id := 5;
                       member_nodes := [] |};
                    {| member_class := SolcVariableDeclaration; member_id := 6;
                       member_nodes := [] |};
                    {| member_class := SolcEnumDefinition; member_id := 7;
                       member_nodes := [] |};
                    {| member_class := SolcFunctionDefinition; member_id := 8;
                       member_nodes := [] |} ]
                  empty_session m _ ltac:(vm_compute; reflexivity))
        as (He & _ & _ & Hf & _ & _ & _ & _ & Hv)
  end.
  rewrite Hf, He, Hv. split_and!; vm_compute; reflexivity.
Defined.

Lemma constructed_switch_iterates_in_raw_order_witness :
  exists n st',
    Switch.__init__ (construct (example_init "A.sol" ""))
      (example_init "A.sol" "") (Yul YulIdentifier [])
      [Yul YulCase [Yul YulLiteral []]; Yul YulCase []]
      empty_session = Ok (n, st')
    /\ iterate n
       = [ n; YulIr Identifier []; YulIr Case [YulIr Literal []];
           YulIr Literal []; YulIr Case [] ].
Proof.
  eexists _, _. split; [vm_compute; reflexivity|].
  match goal with
  | |- iterate ?n = _ =>
      destruct (constructed_switch_iterates_in_raw_order
                  (example_init "A.sol" "") (Yul YulIdentifier [])
                  [Yul YulCase [Yul YulLiteral []]; Yul YulCase []]
                  empty_session n _ ltac:(vm_compute; reflexivity))
        as (_ & expr & cs & Hn & _ & _ & Hids)
  end.
  injection Hn as <- <-. exact Hids.
Defined.

(* ================================================================== *)
(** * When construction returns *)

Section construction_returns.
Import ContractDefinition.

Lemma outcome_Ok {A} (r : result (A * State)) st' :
  outcome r = Ok st' <-> exists a, r = Ok (a, st').
Proof.
  destruct r as [[a st]|e]; simpl; split.
  - intros [= <-]. eauto.
  - intros (a' & [= _ <-]). reflexivity.
  - intros [=].
  - intros (a' & [=]).
Qed.

Lemma outcome_Raise {A} (r : result (A * State)) e :
  outcome r = Raise e <-> r = Raise e.
Proof. destruct r as [[a st]|e']; simpl; split; congruence. Qed.

Lemma fresh_ids_app st cu l1 l2 :
  fresh_ids st cu (l1 ++ l2) <->
  fresh_ids st cu l1 /\ (forall i, i ∈ l1 -> i ∉ l2) /\ fresh_ids st cu l2.
Proof.
  unfold fresh_ids. rewrite NoDup_app. split.
  - intros [(H1 & H12 & H2) Hall]. split_and!; try assumption.
    + intros i Hi. apply Hall, elem_of_app. left. exact Hi.
    + intros i Hi. apply Hall, elem_of_app. right. exact Hi.
  - intros ([H1 Hall1] & H12 & [H2 Hall2]). split_and!; try assumption.
    intros i [Hi|Hi]%elem_of_app; [apply Hall1 | apply Hall2]; exact Hi.
Qed.

Lemma binds_ids_ext cu run run' ids ids' wf wf' :
  (forall st, run st = run' st) -> ids = ids' -> wf = wf' ->
  binds_ids cu run ids wf -> binds_ids cu run' ids' wf'.
Proof. intros Hrun <- <- H st. rewrite <- (Hrun st). apply H. Qed.

(** A step that only checks the raw input. *)
Lemma binds_ids_check cu (ok : bool) e0 :
  binds_ids cu (λ st, if ok then Ok st else Raise e0) [] ok.
Proof.
  intros st. split.
  - destruct ok; split.
    + intros _. split; [split; [constructor | intros i Hi; inversion Hi]|].
      reflexivity.
    + intros _. eauto.
    + intros (st' & [=]).
    + intros [_ [=]].
  - destruct ok; [|intros st' [=]]. intros st' [= <-] i.
    split; [intros H; split; [exact H | intros Hi; inversion Hi] | tauto].
Qed.

Lemma binds_ids_register cu id file node :
  binds_ids cu (ReferenceResolver.register_node cu id file node) [id] true.
Proof.
  intros st. unfold ReferenceResolver.register_node, fresh_ids.
  destruct (nodes_by_id st !! (cu, id)) as [r|] eqn:Hid; split.
  - split; [intros (st' & [=])|]. intros [[_ Hall] _].
    rewrite Hall in Hid by left. discriminate.
  - intros st' [=].
  - split; [|eauto]. intros _. split; [|reflexivity].
    split; [apply NoDup_singleton|].
    intros i Hi. apply list_elem_of_singleton in Hi. rewrite Hi. exact Hid.
  - intros st' [= <-] i. simpl. rewrite lookup_insert.
    rewrite list_elem_of_singleton.
    destruct (decide ((cu, id) = (cu, i))) as [Heq|Hne].
    + injection Heq as <-. split; [intros [=] | tauto].
    + split; [|tauto]. intros H. split; [exact H | congruence].
Qed.

(** Two steps, one after the other. *)
Lemma binds_ids_seq cu run1 run2 ids1 ids2 wf1 wf2 :
  binds_ids cu run1 ids1 wf1 -> binds_ids cu run2 ids2 wf2 ->
  binds_ids cu (λ st, st1 ← run1 st; run2 st1) (ids1 ++ ids2) (wf1 && wf2).
Proof.
  intros H1 H2 st. destruct (H1 st) as (A1 & A2).
  destruct (run1 st) as [st1|e1] eqn:Hrun1; simpl.
  - destruct (proj1 A1 (ex_intro _ st1 eq_refl)) as [Hfr1 ->].
    specialize (A2 st1 eq_refl). destruct (H2 st1) as (B1 & B2).
    assert (Hfresh : fresh_ids st cu (ids1 ++ ids2) <-> fresh_ids st1 cu ids2).
    { rewrite fresh_ids_app. unfold fresh_ids at 2 3. split.
      - intros (_ & H12 & Hnd & Hall). split; [exact Hnd|].
        intros i Hi. apply A2. split; [apply Hall, Hi|].
        intros Hi1. exact (H12 i Hi1 Hi).
      - intros [Hnd Hall]. split_and!; try assumption.
        + intros i Hi1 Hi2. apply Hall, A2 in Hi2. tauto.
        + intros i Hi. apply Hall, A2 in Hi. tauto. }
    simpl. rewrite Hfresh. split.
    + exact B1.
    + intros st' Hrun2 i. rewrite (B2 st' Hrun2 i), (A2 i), elem_of_app. tauto.
  - split.
    + split; [intros (st' & [=])|]. intros [Hfr Hwf].
      apply fresh_ids_app in Hfr as (Hfr & _).
      apply andb_true_iff in Hwf as [Hwf _].
      destruct (proj2 A1 (conj Hfr Hwf)) as (st' & [=]).
    + intros st' [=].
Qed.

(** A loop of constructors. *)
Lemma binds_ids_each {A B} cu (f : A -> State -> result (B * State))
    (ids : A -> list AstNodeId) (wf : A -> bool) (l : list A) :
  Forall (λ a, binds_ids cu (λ st, outcome (f a st)) (ids a) (wf a)) l ->
  binds_ids cu (λ st, outcome (construct_each f l st))
    (flat_map ids l) (forallb wf l).
Proof.
  induction 1 as [|a l Ha _ IH].
  - apply (binds_ids_ext cu (λ st, if true then Ok st else Raise TypeError)
             _ [] _ true); try reflexivity.
    apply (binds_ids_check cu true TypeError).
  - refine (binds_ids_ext _ _ _ _ _ _ _ _ eq_refl eq_refl
              (binds_ids_seq _ _ _ _ _ _ _ Ha IH)).
    intros st. simpl. destruct (f a st) as [[b st1]|e]; simpl; [|reflexivity].
    destruct (construct_each f l st1) as [[bs st2]|e]; reflexivity.
Qed.

Lemma switch_dispatch {X} (expression : SolcNode) (k : result X) :
  (if isinstance expression YulFunctionCall then k
   else if isinstance expression YulIdentifier then k
   else if isinstance expression YulLiteral then k
   else Raise AssertionError)
  = if bool_decide (solc_class expression ∈ switch_expression_classes)
    then k else Raise AssertionError.
Proof.
  unfold isinstance, switch_expression_classes.
  repeat case_bool_decide; try reflexivity; exfalso; set_solver.
Qed.

(** The session steps of the switch constructor: the check of the
    expression class, the expression, the cases. *)
Lemma Switch_init_outcome child init expression cases st :
  outcome (Switch.__init__ child init expression cases st)
  = (st ← (if bool_decide (solc_class expression ∈ switch_expression_classes)
           then Ok st else Raise AssertionError);
     st ← outcome (child expression st);
     outcome (construct_each child cases st)).
Proof.
  unfold Switch.__init__. rewrite switch_dispatch.
  case_bool_decide; simpl; [|reflexivity].
  destruct (child expression st) as [[expr st1]|e]; simpl; [|reflexivity].
  destruct (construct_each child cases st1) as [[cs st2]|e]; reflexivity.
Qed.

Lemma Switch_init_binds_ids child cu init expression cases :
  binds_ids cu (λ st, outcome (child expression st))
    (raw_ids expression) (well_formed expression) ->
  Forall (λ raw, binds_ids cu (λ st, outcome (child raw st))
                   (raw_ids raw) (well_formed raw)) cases ->
  binds_ids cu
    (λ st, outcome (Switch.__init__ child init expression cases st))
    (raw_ids (YulSwitch expression cases))
    (well_formed (YulSwitch expression cases)).
Proof.
  intros He Hc.
  refine (binds_ids_ext _ _ _ _ _ _ _ _ _ _
            (binds_ids_seq _ _ _ _ _ _ _
               (binds_ids_check _
                  (bool_decide (solc_class expression
                                ∈ switch_expression_classes))
                  AssertionError)
               (binds_ids_seq _ _ _ _ _ _ _ He
                  (binds_ids_each _ child raw_ids well_formed cases Hc)))).
  - intros st. rewrite Switch_init_outcome. reflexivity.
  - reflexivity.
  - simpl. rewrite andb_assoc. reflexivity.
Qed.

(** The constructors return exactly on a well-formed raw tree whose IDs are
    fresh, and bind these IDs. *)
Lemma construct_binds_ids init raw :
  binds_ids (init_cu_hash init) (λ st, outcome (construct init raw st))
    (raw_ids raw) (well_formed raw).
Proof.
  induction raw as [cls id nodes IH | cls nodes IH
                    | expression cases IHe IHc | e]
    using SolcNode_nested_ind.
  - refine (binds_ids_ext _ _ _ _ _ _ _ _ _ _
              (binds_ids_seq _ _ _ _ _ _ _
                 (binds_ids_register _ id (init_file init)
                    (RefIr (ir_class cls)))
                 (binds_ids_each _ (construct init) raw_ids
                    well_formed nodes IH))).
    + intros st. rewrite construct_Solc.
      destruct (ReferenceResolver.register_node _ _ _ _ st) as [st0|e]; simpl;
        [|reflexivity].
      destruct (construct_each (construct init) nodes st0) as [[cs st1]|e];
        reflexivity.
    + reflexivity.
    + reflexivity.
  - refine (binds_ids_ext _ _ _ _ _ _ _ _ eq_refl eq_refl
              (binds_ids_each _ (construct init) raw_ids
                 well_formed nodes IH)).
    intros st. rewrite construct_Yul.
    destruct (construct_each (construct init) nodes st) as [[cs st1]|e];
      reflexivity.
  - apply (binds_ids_ext _
             (λ st, outcome (Switch.__init__ (construct init) init
                               expression cases st)) _ _ _ _ _
             ltac:(reflexivity) eq_refl eq_refl).
    apply Switch_init_binds_ids; [exact IHe | exact IHc].
  - apply (binds_ids_ext _ (λ st, if false then Ok st else Raise e)
             _ [] _ false); try reflexivity.
    apply (binds_ids_check _ false e).
Qed.

Lemma InheritanceSpecifier_init_binds_ids init raw :
  binds_ids (init_cu_hash init)
    (λ st, outcome (InheritanceSpecifier___init__ init raw st))
    (specifier_ids raw) (forallb well_formed (sis_nodes raw)).
Proof.
  refine (binds_ids_ext _ _ _ _ _ _ _ _ _ _
            (binds_ids_seq _ _ _ _ _ _ _
               (binds_ids_register _ (sis_id raw) (init_file init)
                  (RefIr (IrOtherClass (SolcOtherClass "InheritanceSpecifier"))))
               (binds_ids_each _ (construct init) raw_ids
                  well_formed (sis_nodes raw) _))).
  - intros st. unfold InheritanceSpecifier___init__.
    destruct (ReferenceResolver.register_node _ _ _ _ st) as [st0|e]; simpl;
      [|reflexivity].
    destruct (construct_each (construct init) (sis_nodes raw) st0)
      as [[cs st1]|e]; reflexivity.
  - reflexivity.
  - reflexivity.
  - apply Forall_forall. intros n _. apply construct_binds_ids.
Qed.

Lemma specifiers_binds_ids init specifiers :
  binds_ids (init_cu_hash init)
    (λ st, outcome (construct_each (InheritanceSpecifier___init__ init)
                      specifiers st))
    (flat_map specifier_ids specifiers)
    (forallb (λ raw, forallb well_formed (sis_nodes raw)) specifiers).
Proof.
  apply binds_ids_each, Forall_forall. intros raw _.
  apply InheritanceSpecifier_init_binds_ids.
Qed.

Lemma init_documentation_binds_ids init documentation :
  binds_ids (init_cu_hash init)
    (λ st, outcome (init_documentation init documentation st))
    (documentation_ids documentation)
    (documentation_well_formed documentation).
Proof.
  destruct documentation as [|s|n|z].
  - apply (binds_ids_ext _ (λ st, if true then Ok st else Raise TypeError)
             _ [] _ true); try reflexivity.
    apply (binds_ids_check _ true TypeError).
  - apply (binds_ids_ext _ (λ st, if true then Ok st else Raise TypeError)
             _ [] _ true); try reflexivity.
    apply (binds_ids_check _ true TypeError).
  - unfold init_documentation, documentation_ids, documentation_well_formed,
      documentation_recognized.
    destruct (isinstance n SolcStructuredDocumentation).
    + apply (binds_ids_ext _ (λ st, outcome (construct init n st))
               _ (raw_ids n) _ (well_formed n)); try reflexivity.
      * intros st. destruct (construct init n st) as [[d st1]|e]; reflexivity.
      * apply construct_binds_ids.
    + apply (binds_ids_ext _ (λ st, if false then Ok st else Raise TypeError)
               _ [] _ false); try reflexivity.
      apply (binds_ids_check _ false TypeError).
  - apply (binds_ids_ext _ (λ st, if false then Ok st else Raise TypeError)
             _ [] _ false); try reflexivity.
    apply (binds_ids_check _ false TypeError).
Qed.

Lemma outcome_bind {A B} (r : result (A * State))
    (k : A -> State -> result (B * State)) :
  outcome (r ≫= λ '(a, st), k a st)
  = (match r with
     | Ok (a, st) => outcome (k a st)
     | Raise e => Raise e
     end).
Proof. destruct r as [[a st]|e]; reflexivity. Qed.

(** What one turn of the member loop does to the session: it constructs
    the node. *)
Lemma add_member_outcome init (node : SolcMember) m st :
  outcome (add_member init node m st) = outcome (construct init node st).
Proof.
  rewrite add_member_constructs.
  destruct (construct init node st) as [[n st1]|e]; reflexivity.
Qed.

(** What the member loop does to the session: it constructs the members,
    in order. *)
Lemma add_members_outcome init (nodes : list SolcMember) :
  forall m st,
    outcome (add_members init nodes m st)
    = outcome (construct_each (λ n : SolcMember, construct init n) nodes st).
Proof.
  induction nodes as [|node nodes IH]; intros m st; [reflexivity|].
  change (add_members init (node :: nodes) m st)
    with (add_member init node m st
          ≫= λ '(m, st), add_members init nodes m st).
  rewrite outcome_bind.
  pose proof (add_member_outcome init node m st) as Hstep.
  change (construct_each (λ n : SolcMember, construct init n)
            (node :: nodes) st)
    with (construct init node st
          ≫= λ '(b, st), construct_each (λ n : SolcMember, construct init n)
                           nodes st
                         ≫= λ '(bs, st), Ok (b :: bs, st)).
  rewrite outcome_bind.
  destruct (add_member init node m st) as [[m1 st1]|e];
    destruct (construct init node st) as [[n st1']|e']; simpl in Hstep;
    try discriminate.
  - injection Hstep as <-. rewrite IH.
    destruct (construct_each _ nodes st1) as [[bs st2]|e]; reflexivity.
  - exact Hstep.
Qed.

Lemma members_binds_ids init (nodes : list SolcMember) m :
  binds_ids (init_cu_hash init)
    (λ st, outcome (add_members init nodes m st))
    (flat_map (λ n : SolcMember, raw_ids n) nodes)
    (forallb (λ n : SolcMember, well_formed n) nodes).
Proof.
  refine (binds_ids_ext _ _ _ _ _ _ _ _ eq_refl eq_refl
            (binds_ids_each _ (λ n : SolcMember, construct init n)
               (λ n : SolcMember, raw_ids n)
               (λ n : SolcMember, well_formed n) nodes _)).
  - intros st. symmetry. apply add_members_outcome.
  - apply Forall_forall. intros n _. apply construct_binds_ids.
Qed.

Lemma init_session_steps_binds_ids init contract self :
  binds_ids (init_cu_hash init)
    (init_session_steps init contract self)
    (contract_ids contract) (contract_well_formed contract).
Proof.
  refine (binds_ids_ext _ _ _ _ _ _ _ _ _ _
            (binds_ids_seq _ _ _ _ _ _ _
               (binds_ids_register _ (sc_id contract) (init_file init)
                  (RefContract self))
               (binds_ids_seq _ _ _ _ _ _ _
                  (init_documentation_binds_ids init
                     (sc_documentation contract))
                  (binds_ids_seq _ _ _ _ _ _ _
                     (specifiers_binds_ids init
                        (sc_base_contracts contract))
                     (members_binds_ids init (sc_nodes contract)
                        no_members))))).
  - intros st. reflexivity.
  - reflexivity.
  - unfold contract_well_formed. simpl. rewrite andb_assoc. reflexivity.
Qed.

(** The constructor returns exactly when its steps on the session do, fails
    as they do, and binds the IDs they bind. *)
Lemma init_session_steps_spec init contract parent st :
  match init_session_steps init contract (fresh (dom (heap st))) st with
  | Ok st4 =>
      exists st',
        __init__ init contract parent st = Ok (fresh (dom (heap st)), st')
        /\ nodes_by_id st' = nodes_by_id st4
  | Raise e => __init__ init contract parent st = Raise e
  end.
Proof.
  unfold init_session_steps, __init__.
  destruct (ReferenceResolver.register_node _ _ _ _ st) as [st1|e]; simpl;
    [|reflexivity].
  destruct (init_documentation init (sc_documentation contract) st1)
    as [[d st2]|e]; simpl; [|reflexivity].
  destruct (construct_each (InheritanceSpecifier___init__ init)
              (sc_base_contracts contract) st2) as [[bs st3]|e]; simpl;
    [|reflexivity].
  destruct (add_members init (sc_nodes contract) no_members st3)
    as [[m st4]|e]; simpl; [|reflexivity].
  eexists. split; reflexivity.
Qed.

Lemma init_identity init contract parent st self st' :
  __init__ init contract parent st = Ok (self, st') ->
  self = fresh (dom (heap st)).
Proof. intros H. apply init_Ok in H as (object & -> & _). reflexivity. Qed.

(** When the constructor of a contract returns, and what it then binds. *)
Lemma init_binds_contract_ids
    (init : IrInitTuple) (contract : SolcContractDefinition)
    (parent : AstNodeId) (st : State) :
  ((exists self st', __init__ init contract parent st = Ok (self, st')) <->
   fresh_ids st (init_cu_hash init) (contract_ids contract)
   /\ contract_well_formed contract = true)
  /\ forall self st',
       __init__ init contract parent st = Ok (self, st') ->
       forall i,
         nodes_by_id st' !! (init_cu_hash init, i) = None <->
         nodes_by_id st !! (init_cu_hash init, i) = None
         /\ i ∉ contract_ids contract.
Proof.
  pose proof (init_session_steps_spec init contract parent st) as Hspec.
  destruct (init_session_steps_binds_ids init contract
              (fresh (dom (heap st))) st) as (H1 & H2).
  destruct (init_session_steps init contract (fresh (dom (heap st))) st)
    as [st4|e4].
  - destruct Hspec as (st' & Hinit & Hn). split.
    + rewrite <- H1. split; eauto.
    + intros self st'' H i. rewrite Hinit in H. injection H as _ <-.
      rewrite Hn. apply (H2 st4 eq_refl).
  - split.
    + rewrite <- H1. split.
      * intros (self & st' & H). rewrite Hspec in H. discriminate.
      * intros (st' & [=]).
    + intros self st' H. rewrite Hspec in H. discriminate.
Qed.




End construction_returns.


(* ================================================================== *)
(** * The constructed contract *)

Section constructed_contract.
Import ContractDefinition.

Lemma InheritanceSpecifier_init_mirrors init raw st s st' :
  InheritanceSpecifier___init__ init raw st = Ok (s, st') ->
  s = specifier_of_raw init raw.
Proof.
  unfold InheritanceSpecifier___init__. intros H.
  inv_bind H. inv_bind H. destruct a0 as [children st1]. simpl in H.
  injection H as <- <-. apply construct_each_mirrors in Ha0 as ->.
  reflexivity.
Qed.

Lemma init_documentation_mirrors init documentation st d st' :
  init_documentation init documentation st = Ok (d, st') ->
  d = documentation_of_raw documentation
  /\ documentation_recognized documentation = true.
Proof.
  unfold init_documentation. intros H.
  destruct documentation as [|s|n|z]; try discriminate.
  - injection H as <- <-. split; reflexivity.
  - injection H as <- <-. split; reflexivity.
  - simpl. destruct (isinstance n SolcStructuredDocumentation);
      [|discriminate].
    inv_bind H. destruct a as [doc st1]. simpl in H. injection H as <- <-.
    apply construct_mirrors in Ha as ->. split; reflexivity.
Qed.

(** The object that a returning constructor stores, field by field. *)
Lemma init_object_fields
    (init : IrInitTuple) (contract : SolcContractDefinition)
    (source_unit : AstNodeId) (st : State) (self : loc) (st' : State) :
  __init__ init contract source_unit st = Ok (self, st') ->
  exists c,
    heap st' !! self = Some c
    /\ _ast_node c = contract
    /\ documentation_recognized (sc_documentation contract) = true
    /\ parent c = source_unit
    /\ canonical_name c = sc_name contract
    /\ abstract c = sc_abstract contract
    /\ kind c = sc_contract_kind contract
    /\ fully_implemented c = sc_fully_implemented contract
    /\ __linearized_base_contracts c = sc_linearized_base_contracts contract
    /\ documentation c = documentation_of_raw (sc_documentation contract)
    /\ base_contracts c = specifier_of_raw init <$> sc_base_contracts contract
    /\ child_contracts c = ∅
    /\ enums c = members_of_class SolcEnumDefinition (sc_nodes contract)
    /\ errors c = members_of_class SolcErrorDefinition (sc_nodes contract)
    /\ events c = members_of_class SolcEventDefinition (sc_nodes contract)
    /\ functions c = members_of_class SolcFunctionDefinition (sc_nodes contract)
    /\ modifiers c = members_of_class SolcModifierDefinition (sc_nodes contract)
    /\ structs c = members_of_class SolcStructDefinition (sc_nodes contract)
    /\ user_defined_value_types c
       = members_of_class SolcUserDefinedValueTypeDefinition (sc_nodes contract)
    /\ using_for_directives c
       = members_of_class SolcUsingForDirective (sc_nodes contract)
    /\ declared_variables c
       = members_of_class SolcVariableDeclaration (sc_nodes contract).
Proof.
  unfold __init__. intros H.
  inv_bind H. rename a into st1.
  inv_bind H. destruct a as [d st2]. simpl in H.
  inv_bind H. destruct a as [bases st3]. simpl in H.
  inv_bind H. destruct a as [m st4]. simpl in H.
  injection H as <- <-.
  apply init_documentation_mirrors in Ha0 as [-> Hrec].
  apply (construct_each_fmap _ (specifier_of_raw init)) in Ha1 as ->.
  2:{ apply Forall_forall. intros raw _ s0 b s1.
      apply InheritanceSpecifier_init_mirrors. }
  apply add_members_Ok in Ha2
    as (H1 & H2 & H3 & H4 & H5 & H6 & H7 & H8 & H9).
  eexists. split; [simpl; apply lookup_insert_eq|].
  unfold parent, canonical_name, abstract, kind, fully_implemented,
    documentation, base_contracts, child_contracts, enums, errors, events,
    functions, modifiers, structs, user_defined_value_types,
    using_for_directives, declared_variables.
  cbn [_ast_node _parent _name __abstract __kind __fully_implemented
       __linearized_base_contracts __documentation __base_contracts
       __child_contracts __enums __errors __events __functions __modifiers
       __structs __user_defined_value_types __using_for_directives
       __declared_variables].
  rewrite H1, H2, H3, H4, H5, H6, H7, H8, H9.
  split_and!; try reflexivity. exact Hrec.
Qed.

(** X10: the object that the constructor stores reads back the raw
    contract.  Its properties return the parent, the name, the flags, the
    kind and the linearization of the raw node, one specifier per raw
    specifier in order, the documentation as given, the members of each
    class in source order, and an empty set of child contracts; none of
    this depends on the session the constructor ran in. *)
Theorem constructed_contract_reads_back_raw
    (init : IrInitTuple) (contract : SolcContractDefinition)
    (source_unit : AstNodeId) (st : State) (self : loc) (st' : State) :
  __init__ init contract source_unit st = Ok (self, st') ->
  exists c,
    heap st' !! self = Some c
    /\ parent c = source_unit
    /\ canonical_name c = sc_name contract
    /\ abstract c = sc_abstract contract
    /\ kind c = sc_contract_kind contract
    /\ fully_implemented c = sc_fully_implemented contract
    /\ __linearized_base_contracts c = sc_linearized_base_contracts contract
    /\ documentation c = documentation_of_raw (sc_documentation contract)
    /\ base_contracts c = specifier_of_raw init <$> sc_base_contracts contract
    /\ child_contracts c = ∅
    /\ enums c = members_of_class SolcEnumDefinition (sc_nodes contract)
    /\ errors c = members_of_class SolcErrorDefinition (sc_nodes contract)
    /\ events c = members_of_class SolcEventDefinition (sc_nodes contract)
    /\ functions c = members_of_class SolcFunctionDefinition (sc_nodes contract)
    /\ modifiers c = members_of_class SolcModifierDefinition (sc_nodes contract)
    /\ structs c = members_of_class SolcStructDefinition (sc_nodes contract)
    /\ user_defined_value_types c
       = members_of_class SolcUserDefinedValueTypeDefinition (sc_nodes contract)
    /\ using_for_directives c
       = members_of_class SolcUsingForDirective (sc_nodes contract)
    /\ declared_variables c
       = members_of_class SolcVariableDeclaration (sc_nodes contract).
Proof.
  intros H. apply init_object_fields in H as (c & Hc & _ & _ & H).
  exists c. split; [exact Hc | exact H].
Qed.

(** X11: the constructor of a contract touches no existing object.  The new
    object gets an identity that was not in use; every older object, every
    child set, every destroy callback and the cache of declaration strings
    are as before; older ID bindings stay; and the post-process callback of
    the new contract is queued last.  No inheritance link exists before the
    post-process callbacks run. *)
Theorem constructor_leaves_existing_objects_untouched
    (init : IrInitTuple) (contract : SolcContractDefinition)
    (source_unit : AstNodeId) (st : State) (self : loc) (st' : State) :
  __init__ init contract source_unit st = Ok (self, st') ->
  heap st !! self = None
  /\ (forall l, l <> self -> heap st' !! l = heap st !! l)
  /\ (forall b, child_contracts_of st' b = child_contracts_of st b)
  /\ post_process_queue st' = post_process_queue st ++ [self]
  /\ destroy_queue st' = destroy_queue st
  /\ declaration_string_cache st' = declaration_string_cache st
  /\ nodes_by_id st ⊆ nodes_by_id st'.
Proof.
  intros H. apply init_Ok in H
    as (object & -> & Hheap & Hq & Hdq & Hcache & Hsub & _ & Hch & _).
  assert (Hfresh : heap st !! fresh (dom (heap st)) = None).
  { apply not_elem_of_dom, is_fresh. }
  split_and!; try assumption.
  - intros l Hl. rewrite Hheap, lookup_insert_ne by congruence. reflexivity.
  - intros b. unfold child_contracts_of. rewrite Hheap, lookup_insert.
    destruct (decide (fresh (dom (heap st)) = b)) as [<-|]; [|reflexivity].
    rewrite Hfresh, Hch. reflexivity.
Qed.

End constructed_contract.

Lemma constructed_contract_reads_back_raw_witness :
  exists c st',
    ContractDefinition.__init__ (example_init "A.sol" "contract B {}")
      contract_with_members 0 empty_session = Ok (0, st')
    /\ heap st' !! 0 = Some c
    /\ ContractDefinition.canonical_name c = "B"
    /\ ContractDefinition.enums c
       = [Ir EnumDefinition 8
            [Ir (IrOtherClass (SolcOtherClass "EnumValue")) 9 []]]
    /\ ContractDefinition.declared_variables c = [].
Proof.
  assert (H : ContractDefinition.__init__
                (example_init "A.sol" "contract B {}")
                contract_with_members 0 empty_session
              = Ok (0, session_of
                         (construct_unit
                            [(example_init "A.sol" "contract B {}",
                              contract_with_members, 0%Z)]
                            empty_session)))
    by (vm_compute; reflexivity).
  destruct (constructed_contract_reads_back_raw _ _ _ _ _ _ H)
    as (c & Hc & _ & Hname & _ & _ & _ & _ & _ & _ & _ & He & _ & _ & _ & _
        & _ & _ & _ & Hv).
  exists c. eexists. split; [exact H|]. split; [exact Hc|].
  rewrite Hname, He, Hv. split_and!; vm_compute; reflexivity.
Defined.

Lemma constructor_leaves_existing_objects_untouched_witness :
  exists st',
    ContractDefinition.__init__
      (example_init "A.sol" "contract B {} contract C is B {}")
      (example_contract 2 "C" 14 18 [(3, 1)%Z] [2; 1]%Z) 0
      (session_of (construct_unit (take 1 unit_B_C) empty_session))
    = Ok (1, st')
    /\ heap st' !! 0
       = heap (session_of (construct_unit (take 1 unit_B_C) empty_session))
           !! 0
    /\ child_contracts_of st' 0 = ∅.
Proof.
  eexists. split; [vm_compute; reflexivity|].
  match goal with
  | |- heap ?s' !! 0 = heap ?s !! 0 /\ _ =>
      destruct (constructor_leaves_existing_objects_untouched
                  (example_init "A.sol" "contract B {} contract C is B {}")
                  (example_contract 2 "C" 14 18 [(3, 1)%Z] [2; 1]%Z) 0
                  s 1 s' ltac:(vm_compute; reflexivity))
        as (_ & Hold & Hch & _)
  end.
  split; [apply Hold; lia|]. rewrite Hch. vm_compute. reflexivity.
Defined.

(* ================================================================== *)
(** * Further properties of iteration and of the declarations *)

Section iteration_results.
Import ContractDefinition.

Lemma elem_of_flat_map {A B} (f : A -> list B) (l : list A) (y : B) :
  y ∈ flat_map f l <-> exists x, x ∈ l /\ y ∈ f x.
Proof.
  rewrite list_elem_of_In, in_flat_map. split.
  - intros (x & Hx & Hy). exists x. rewrite !list_elem_of_In. auto.
  - intros (x & Hx & Hy). exists x. rewrite <- !list_elem_of_In. auto.
Qed.

Lemma iterate_head (n : IrAbc) : n ∈ iterate n.
Proof. destruct n; left. Qed.

Lemma member_in_yield (l : list IrAbc) (x : IrAbc) :
  x ∈ l -> NIr x ∈ flat_map yield_from l.
Proof.
  intros Hx. apply elem_of_flat_map. exists x. split; [exact Hx|].
  apply list_elem_of_fmap. exists x. split; [reflexivity | apply iterate_head].
Qed.

Lemma value_in_yield (l : list IrAbc) (x : IrAbc) :
  x ∈ flat_map values l -> NIr x ∈ flat_map yield_from l.
Proof.
  intros (e & He & Hx)%elem_of_flat_map. apply elem_of_flat_map.
  exists e. split; [exact He|].
  apply list_elem_of_fmap. exists x. split; [reflexivity|].
  destruct e as [cls id children | cls children | expression cases];
    [|inversion Hx..].
  right. apply elem_of_flat_map. exists x. split; [exact Hx|].
  apply iterate_head.
Qed.

Lemma length_iterate (n : IrAbc) : 1 + length (values n) <= length (iterate n).
Proof.
  destruct n as [cls id children | cls children | expression cases]; simpl;
    [|lia..].
  apply le_n_S. induction children as [|c children IH]; [reflexivity|].
  cbn [flat_map length]. rewrite length_app.
  pose proof (iterate_head c) as Hc.
  destruct (iterate c); [inversion Hc | simpl; lia].
Qed.

Lemma length_yield_from (l : list IrAbc) :
  length l + length (flat_map values l) <= length (flat_map yield_from l).
Proof.
  induction l as [|n l IH]; [reflexivity|].
  cbn [flat_map length]. rewrite !length_app. unfold yield_from at 1.
  rewrite length_fmap. pose proof (length_iterate n). lia.
Qed.

Lemma length_yield_from_members (l : list IrAbc) :
  length l <= length (flat_map yield_from l).
Proof. pose proof (length_yield_from l). lia. Qed.

(** X13: every declaration that [declarations] yields is a node that
    [__iter__] visits, and [declarations] yields fewer nodes than
    [__iter__]: the enum values, although yielded after all enums, are
    below their enums in the traversal. *)
Theorem declarations_are_iterated (c : ContractDefinition) :
  (forall x, x ∈ declarations c -> NIr x ∈ __iter__ c)
  /\ length (declarations c) < length (__iter__ c).
Proof.
  split.
  - intros x Hx. unfold declarations, enums, errors, events, functions,
      modifiers, structs, user_defined_value_types, declared_variables in Hx.
    unfold __iter__.
    repeat (apply elem_of_app in Hx as [Hx|Hx]).
    + apply member_in_yield in Hx. set_solver.
    + apply value_in_yield in Hx. set_solver.
    + apply member_in_yield in Hx. set_solver.
    + apply member_in_yield in Hx. set_solver.
    + apply member_in_yield in Hx. set_solver.
    + apply member_in_yield in Hx. set_solver.
    + apply member_in_yield in Hx. set_solver.
    + apply member_in_yield in Hx. set_solver.
    + apply member_in_yield in Hx. set_solver.
  - unfold declarations, enums, errors, events, functions, modifiers,
      structs, user_defined_value_types, declared_variables, __iter__.
    rewrite !length_app.
    pose proof (length_yield_from (__enums c)).
    pose proof (length_yield_from_members (__errors c)).
    pose proof (length_yield_from_members (__events c)).
    pose proof (length_yield_from_members (__functions c)).
    pose proof (length_yield_from_members (__modifiers c)).
    pose proof (length_yield_from_members (__structs c)).
    pose proof (length_yield_from_members (__user_defined_value_types c)).
    pose proof (length_yield_from_members (__declared_variables c)).
    simpl. lia.
Qed.

End iteration_results.

(* ================================================================== *)
(** * Further properties of the name locator *)

Section locator_results.
Import re ContractDefinition.

(** A greedy repetition whose continuation always succeeds takes the
    longest run of the class. *)
Lemma star_greedy p (k : bytes -> nat -> option captures) s pos :
  (forall s pos, is_Some (k s pos)) ->
  exists w s',
    s = w ++ s' /\ forallb p w = true
    /\ (forall b, head s' = Some b -> p b = false)
    /\ star p k s pos = k s' (pos + length w).
Proof.
  intros Hk. revert pos. induction s as [|b s IH]; intros pos.
  - exists [], []. simpl. rewrite Nat.add_0_r.
    split_and!; try reflexivity. intros b [=].
  - simpl. destruct (p b) eqn:Hb.
    + destruct (IH (S pos)) as (w & s' & -> & Hw & Hhead & Heq).
      rewrite Heq. destruct (Hk s' (S pos + length w)) as [c Hc]. rewrite Hc.
      exists (b :: w), s'. simpl. rewrite Hb, Hw.
      split_and!; try reflexivity; [exact Hhead|].
      rewrite <- Hc. f_equal. lia.
    + exists [], (b :: s). simpl. rewrite Nat.add_0_r.
      split_and!; try reflexivity. intros b' [= <-]. exact Hb.
Qed.

Lemma run_Seq_tail r1 r2 s pos caps k res :
  run (Seq r1 r2) s pos caps k = Some res ->
  exists w s' caps',
    s = w ++ s' /\ run r2 s' (pos + length w) caps' k = Some res.
Proof.
  intros H. simpl in H.
  apply run_sound in H as (w & s' & caps' & -> & _ & H). eauto.
Qed.

(** The name group takes the longest identifier at its position. *)
Lemma run_name_group s pos caps res :
  run (Group "name" IDENTIFIER) s pos caps (λ _ _ c, Some c) = Some res ->
  exists name after,
    s = name ++ after /\ identifier name
    /\ group res "name" = Some (pos, pos + length name)
    /\ forall b, head after = Some b -> identifier_part b = false.
Proof.
  intros H. cbn -[star identifier_start identifier_part] in H.
  destruct s as [|b s]; [discriminate|].
  destruct (identifier_start b) eqn:Hb; [|discriminate].
  destruct (star_greedy identifier_part
              (λ _ pos', Some (("name", (pos, pos')) :: caps)) s (S pos))
    as (w & after & -> & Hw & Hhead & Heq); [eauto|].
  assert (E : Some res = Some (("name", (pos, S pos + length w)) :: caps))
    by (etrans; [symmetry; exact H | exact Heq]).
  injection E as ->.
  exists (b :: w), after. split_and!.
  - reflexivity.
  - exists b, w. auto.
  - simpl. do 2 f_equal. lia.
  - exact Hhead.
Qed.

Lemma run_Seq_tail_from r1 r2 (s : bytes) m k :
  (exists before s' caps,
      s = before ++ s'
      /\ run (Seq r1 r2) s' (length before) caps k = Some m) ->
  exists before s' caps,
    s = before ++ s' /\ run r2 s' (length before) caps k = Some m.
Proof.
  intros (before & s' & caps & -> & H).
  apply run_Seq_tail in H as (w & s'' & caps' & -> & H).
  exists (before ++ w), s'', caps'. split; [apply app_assoc|].
  rewrite length_app. exact H.
Qed.

Lemma pattern_name_group k s m :
  match_ (pattern_of k) s = Some m ->
  exists before s' caps,
    s = before ++ s'
    /\ run (Group "name" IDENTIFIER) s' (length before) caps
         (λ _ _ c, Some c) = Some m.
Proof.
  unfold match_. intros H.
  assert (H0 : exists before s' caps,
             s = before ++ s'
             /\ run (pattern_of k) s' (length before) caps (λ _ _ c, Some c)
                = Some m)
    by (exists [], s, []; split; [reflexivity | exact H]).
  clear H.
  destruct k; unfold pattern_of, CONTRACT_RE, INTERFACE_RE, LIBRARY_RE in H0.
  - do 6 apply run_Seq_tail_from in H0. exact H0.
  - do 4 apply run_Seq_tail_from in H0. exact H0.
  - do 4 apply run_Seq_tail_from in H0. exact H0.
Qed.

(** X14: the span that [_parse_name_location] returns covers the whole
    name: it is an identifier of the source slice, and the byte that follows
    it, if there is one, cannot continue an identifier. *)
Theorem name_span_is_maximal
    (self : ContractDefinition) (first last : Z) :
  _parse_name_location self = Ok (first, last) ->
  exists before name after,
    _source self = before ++ name ++ after
    /\ identifier name
    /\ first = ((byte_location self).1 + Z.of_nat (length before))%Z
    /\ last = (first + Z.of_nat (length name))%Z
    /\ forall b, head after = Some b -> identifier_part b = false.
Proof.
  rewrite parse_name_location_unfold.
  destruct (match_ (pattern_of (kind self)) (_source self)) as [m|] eqn:Hm;
    [|discriminate].
  intros [= <- <-].
  apply pattern_name_group in Hm as (before & s' & caps & Hs & Hm).
  apply run_name_group in Hm as (name & after & -> & Hid & Hg & Hmax).
  exists before, name, after. unfold start, end_. rewrite Hg.
  split_and!; [exact Hs | exact Hid | reflexivity | lia | exact Hmax].
Qed.

End locator_results.

Lemma name_span_is_maximal_witness :
  exists c before name after,
    heap session_B_C !! 1 = Some c
    /\ ContractDefinition._parse_name_location c = Ok (23, 24)%Z
    /\ _source c = before ++ name ++ after
    /\ length name = 1
    /\ forall b, head after = Some b -> re.identifier_part b = false.
Proof.
  assert (Hc : exists c, heap session_B_C !! 1 = Some c
                         /\ ContractDefinition._parse_name_location c
                            = Ok (23, 24)%Z
                         /\ (byte_location c).1 = 14%Z).
  { eexists. split; [vm_compute; reflexivity|].
    split; vm_compute; reflexivity. }
  destruct Hc as (c & Hc & Hp & Hb).
  destruct (name_span_is_maximal c 23 24 Hp)
    as (before & name & after & Hs & _ & Hfirst & Hlast & Hmax).
  exists c, before, name, after. split_and!; try assumption. lia.
Defined.

(* ================================================================== *)
(** * The cache of declaration strings *)

Section declaration_string_cache.
Import ContractDefinition.
Context (str_kind : ContractKind -> string)
        (splitlines : string -> list string)
        (text : IrAbc -> string)
        (decode : bytes -> string).

(** The declaration string does not read the child contracts. *)
Lemma declaration_string_body_same_but_children c c' :
  same_but_children c c' ->
  declaration_string_body str_kind splitlines text decode c'
  = declaration_string_body str_kind splitlines text decode c.
Proof. intros H. rewrite (same_but_children_eq _ _ H). reflexivity. Qed.

Lemma cache_coherent_same_objects st st' :
  same_objects st st' ->
  declaration_string_cache st' = declaration_string_cache st ->
  cache_coherent (declaration_string_body str_kind splitlines text decode) st ->
  cache_coherent (declaration_string_body str_kind splitlines text decode) st'.
Proof.
  intros Hobj Hcache Hco l s Hl. rewrite Hcache in Hl.
  destruct (Hco l s Hl) as (c & Hc & ->).
  destruct (same_objects_Some _ _ _ _ Hobj Hc) as (c' & Hc' & Hsame).
  exists c'. split; [exact Hc'|].
  symmetry. apply declaration_string_body_same_but_children, Hsame.
Qed.

(** X15: the [lru_cache] of [declaration_string] never serves a stale
    string.  The declaration string does not read the child contracts, so
    the cache stays coherent across the post-process callback, the destroy
    callback and the construction of further contracts; a call of
    [declaration_string] returns the string computed from the object as it
    is now, changes nothing but the cache, and returns the same string
    again when repeated. *)
Theorem declaration_string_cache_stays_coherent :
  let body := declaration_string_body str_kind splitlines text decode in
  (forall self st s st',
      cache_coherent body st ->
      declaration_string str_kind splitlines text decode self st
      = Ok (s, st') ->
      cache_coherent body st'
      /\ (exists c, heap st !! self = Some c /\ s = body c)
      /\ st' = set_declaration_string_cache (declaration_string_cache st') st
      /\ declaration_string str_kind splitlines text decode self st'
         = Ok (s, st'))
  /\ (forall self st st',
        cache_coherent body st -> __post_process self st = Ok st' ->
        cache_coherent body st')
  /\ (forall self base_contracts st st',
        cache_coherent body st -> __destroy self base_contracts st = Ok st' ->
        cache_coherent body st')
  /\ (forall init contract source_unit st self st',
        cache_coherent body st ->
        __init__ init contract source_unit st = Ok (self, st') ->
        cache_coherent body st').
Proof.
  intros body. split_and!.
  - intros self st s st' Hco. unfold declaration_string.
    destruct (heap st !! self) as [c|] eqn:Hc; [|intros [=]].
    destruct (declaration_string_cache st !! self) as [s0|] eqn:Hs.
    + intros [= <- <-]. split_and!.
      * exact Hco.
      * destruct (Hco self s0 Hs) as (c' & Hc' & ->).
        exists c. split; [reflexivity | congruence].
      * destruct st; reflexivity.
      * rewrite Hc, Hs. reflexivity.
    + intros [= <- <-]. split_and!.
      * intros l s. simpl. rewrite lookup_insert.
        destruct (decide (self = l)) as [<-|].
        -- intros [= <-]. eauto.
        -- apply Hco.
      * eauto.
      * reflexivity.
      * simpl. rewrite Hc, lookup_insert_eq. reflexivity.
  - intros self st st' Hco H.
    apply post_process_agree in H as ([_ Hobj] & _ & Hcache).
    exact (cache_coherent_same_objects _ _ Hobj Hcache Hco).
  - intros self bases st st' Hco H.
    apply (cache_coherent_same_objects st st');
      [exact (destroy_same_objects _ _ _ _ H) | | exact Hco].
    rewrite (destroy_frame _ _ _ _ H). reflexivity.
  - intros init contract source_unit st self st' Hco H.
    apply init_Ok in H
      as (object & -> & Hheap & _ & _ & Hcache & _).
    intros l s Hl. rewrite Hcache in Hl.
    destruct (Hco l s Hl) as (c & Hc & ->).
    exists c. split; [|reflexivity].
    rewrite Hheap, lookup_insert_ne; [exact Hc|].
    intros <-.
    assert (Hfresh : heap st !! fresh (dom (heap st)) = None)
      by apply not_elem_of_dom, is_fresh.
    congruence.
Qed.

End declaration_string_cache.

Lemma declaration_string_cache_stays_coherent_witness :
  exists s st',
    ContractDefinition.declaration_string
      keyword (λ s, [s]) (λ _, "") String.string_of_list_byte
      1 session_B_C_resolved = Ok (s, st')
    /\ ContractDefinition.declaration_string
         keyword (λ s, [s]) (λ _, "") String.string_of_list_byte
         1 st' = Ok (s, st').
Proof.
  eexists _, _. split; [vm_compute; reflexivity|].
  match goal with
  | |- ContractDefinition.declaration_string ?k ?sp ?t ?d 1 ?st' = Ok (?s, _) =>
      destruct (declaration_string_cache_stays_coherent k sp t d)
        as (Hcall & _);
      destruct (Hcall 1 session_B_C_resolved s st')
        as (_ & _ & _ & Hagain);
      [ intros l s0 Hl; vm_compute in Hl; discriminate
      | vm_compute; reflexivity
      | exact Hagain ]
  end.
Defined.

(* ================================================================== *)
(** * Further properties of the linearized bases and of the patterns *)

Section linearized_results.
Import ContractDefinition.

Lemma resolve_contracts_raises ids cu st e :
  resolve_contracts ids cu st = Raise e ->
  exists done id rest,
    ids = done ++ id :: rest
    /\ (forall i, i ∈ done -> exists l, bound_to_contract st cu i l)
    /\ match nodes_by_id st !! (cu, id) with
       | None => e = DanglingReference
       | Some r => e = AssertionError /\ exists cls, reg_node r = RefIr cls
       end.
Proof.
  induction ids as [|id ids IH]; [intros [=]|].
  simpl. unfold ReferenceResolver.resolve_node.
  destruct (nodes_by_id st !! (cu, id)) as [r|] eqn:Hr; simpl.
  - destruct (reg_node r) as [b|cls] eqn:Hb.
    + intros H. apply bind_Raise in H as [H | (l & _ & [=])].
      apply IH in H as (done & i & rest & -> & Hdone & Hi).
      exists (id :: done), i, rest. split; [reflexivity|].
      split; [|exact Hi].
      intros j Hj. apply elem_of_cons in Hj as [Hj|Hj].
      * exists b, r. rewrite Hj. auto.
      * apply Hdone, Hj.
    + intros [= <-]. exists [], id, ids. split; [reflexivity|].
      split; [intros i Hi; inversion Hi|].
      rewrite Hr. split; [reflexivity | eauto].
  - intros [= <-]. exists [], id, ids. split; [reflexivity|].
    split; [intros i Hi; inversion Hi|]. rewrite Hr. reflexivity.
Qed.

Lemma resolve_contracts_total ids cu st :
  (forall id, id ∈ ids -> exists l, bound_to_contract st cu id l) ->
  exists l, resolve_contracts ids cu st = Ok l.
Proof.
  induction ids as [|id ids IH]; intros Hall; [exists []; reflexivity|].
  destruct (Hall id ltac:(left)) as (b & Hb).
  destruct IH as [l Hl]; [intros i Hi; apply Hall; right; exact Hi|].
  exists (b :: l). apply resolve_contracts_returns.
  constructor; [exact Hb | apply resolve_contracts_Ok, Hl].
Qed.

(** X16: [linearized_base_contracts] returns exactly when every ID of the
    linearization is bound to a contract, and then returns one contract per
    ID.  Otherwise it stops at the first ID that is not: with the resolver's
    dangling-reference error when that ID is unbound, with the
    AssertionError of the [isinstance] check when it is bound to a node of
    another class. *)
Theorem linearized_base_contracts_returns_iff
    (self : ContractDefinition) (st : State) :
  ((exists l, linearized_base_contracts self st = Ok l) <->
   forall id, id ∈ __linearized_base_contracts self ->
     exists l, bound_to_contract st (_cu_hash self) id l)
  /\ (forall l,
        linearized_base_contracts self st = Ok l ->
        length l = length (__linearized_base_contracts self))
  /\ forall e,
       linearized_base_contracts self st = Raise e ->
       exists done id rest,
         __linearized_base_contracts self = done ++ id :: rest
         /\ (forall i, i ∈ done ->
               exists l, bound_to_contract st (_cu_hash self) i l)
         /\ match nodes_by_id st !! (_cu_hash self, id) with
            | None => e = DanglingReference
            | Some r =>
                e = AssertionError /\ exists cls, reg_node r = RefIr cls
            end.
Proof.
  unfold linearized_base_contracts. split_and!.
  - split.
    + intros [l Hl]. apply resolve_contracts_Ok in Hl.
      intros id Hid. apply list_elem_of_lookup in Hid as [i Hi].
      destruct (Forall2_lookup_l _ _ _ _ _ Hl Hi) as (b & _ & Hb). eauto.
    + apply resolve_contracts_total.
  - intros l Hl. apply resolve_contracts_Ok in Hl.
    symmetry. exact (Forall2_length _ _ _ Hl).
  - intros e. apply resolve_contracts_raises.
Qed.

End linearized_results.

Section pattern_results.
Import re ContractDefinition.

(** Where a string that begins like a declaration has its first byte that
    is not whitespace, and what that byte is. *)
Lemma leading_pattern_first_byte k s :
  leading_pattern k s ->
  exists ws b rest,
    s = ws ++ b :: rest /\ whitespace ws /\ space b = false
    /\ ((b = "a"%byte /\ k = CONTRACT)
        \/ head (encode (keyword k)) = Some b).
Proof.
  intros (ws1 & a & ws2 & ws3 & name & rest & -> & H1 & Ha & H2 & _).
  destruct Ha as [->|(-> & b0 & _ & ->)].
  - exists (ws1 ++ ws2).
    destruct k; eexists _, _;
      (split; [rewrite <- app_assoc; simpl; reflexivity|]);
      (split; [apply whitespace_app; assumption|]);
      (split; [reflexivity|]); right; reflexivity.
  - exists ws1. eexists _, _. split; [simpl; reflexivity|].
    split; [exact H1|]. split; [reflexivity|]. left. auto.
Qed.

Lemma first_byte_unique (ws ws' : bytes) b b' rest rest' :
  ws ++ b :: rest = ws' ++ b' :: rest' ->
  whitespace ws -> whitespace ws' -> space b = false -> space b' = false ->
  b = b'.
Proof.
  unfold whitespace. revert ws'.
  induction ws as [|x ws IH]; intros [|y ws'] Heq Hws Hws' Hb Hb';
    simpl in *; injection Heq as Hx Heq.
  - exact Hx.
  - subst. apply andb_true_iff in Hws' as [Hy _]. congruence.
  - subst. apply andb_true_iff in Hws as [Hx _]. congruence.
  - apply andb_true_iff in Hws as [_ Hws].
    apply andb_true_iff in Hws' as [_ Hws'].
    exact (IH ws' Heq Hws Hws' Hb Hb').
Qed.

Lemma leading_pattern_kind s k1 k2 :
  leading_pattern k1 s -> leading_pattern k2 s -> k1 = k2.
Proof.
  intros (ws & b & rest & -> & Hws & Hb & H1)%leading_pattern_first_byte
         (ws' & b' & rest' & Heq & Hws' & Hb' & H2)%leading_pattern_first_byte.
  pose proof (first_byte_unique _ _ _ _ _ _ Heq Hws Hws' Hb Hb') as ->.
  destruct H1 as [[-> ->]|H1], H2 as [[E2 ->]|H2]; try reflexivity.
  - destruct k2; vm_compute in H2; congruence.
  - destruct k1; vm_compute in H1; congruence.
  - destruct k1, k2; vm_compute in H1, H2; congruence.
Qed.

(** X17: the three patterns of [_parse_name_location] exclude each other: a
    byte string begins like the declaration of at most one kind.  So a
    contract whose source slice begins like a declaration of another kind
    than its own makes [_parse_name_location] raise AssertionError. *)
Theorem leading_pattern_determines_kind :
  (forall s k1 k2, leading_pattern k1 s -> leading_pattern k2 s -> k1 = k2)
  /\ forall (self : ContractDefinition) (k : ContractKind),
       leading_pattern k (_source self) -> k <> kind self ->
       _parse_name_location self = Raise AssertionError.
Proof.
  split; [exact leading_pattern_kind|].
  intros self k Hk Hne. rewrite parse_name_location_unfold.
  destruct (match_ (pattern_of (kind self)) (_source self)) as [m|] eqn:Hm;
    [|reflexivity].
  exfalso. apply Hne. apply (leading_pattern_kind (_source self)); [exact Hk|].
  apply match_sound in Hm as (w & rest & Hs & Hm).
  apply pattern_match_name in Hm
    as (ws1 & a & ws2 & ws3 & name & -> & H1 & Ha & H2 & Hne3 & H3 & Hn & _).
  exists ws1, a, ws2, ws3, name, rest. rewrite Hs, <- !app_assoc. auto 10.
Qed.

End pattern_results.

(* ================================================================== *)
(** * Iterating a constructed contract *)

Section iteration_of_constructed.
Import ContractDefinition.

Lemma omap_node_id_NIr (l : list IrAbc) :
  omap node_id (NIr <$> l) = omap ir_id l.
Proof.
  induction l as [|n l IH]; [reflexivity|].
  rewrite fmap_cons. cbn [omap list_omap node_id]. rewrite IH. reflexivity.
Qed.

Lemma yield_from_ids (nodes : list SolcNode) :
  omap node_id (flat_map yield_from (ir_of_raw <$> nodes))
  = flat_map raw_ids nodes.
Proof.
  induction nodes as [|raw nodes IH]; [reflexivity|].
  rewrite fmap_cons. cbn [flat_map]. rewrite omap_app, IH. f_equal.
  unfold yield_from. rewrite omap_node_id_NIr.
  exact (iterate_ids_of_raw raw).
Qed.

Lemma specifier_ids_of_raw init (specifiers : list SolcInheritanceSpecifier) :
  omap node_id (flat_map iter_specifier (specifier_of_raw init <$> specifiers))
  = flat_map specifier_ids specifiers.
Proof.
  induction specifiers as [|raw specifiers IH]; [reflexivity|].
  rewrite fmap_cons. cbn [flat_map]. rewrite omap_app, IH. f_equal.
  unfold iter_specifier, specifier_ids.
  cbn [omap list_omap node_id specifier_of_raw is_id is_children]. f_equal.
  exact (yield_from_ids (sis_nodes raw)).
Qed.

Lemma documentation_iter_ids documentation :
  documentation_recognized documentation = true ->
  omap node_id match documentation_of_raw documentation with
               | Some (DocStructured d) => yield_from d
               | _ => []
               end
  = documentation_ids documentation.
Proof.
  destruct documentation as [|s|n|z]; try reflexivity.
  simpl. intros ->. unfold yield_from. rewrite omap_node_id_NIr.
  exact (iterate_ids_of_raw n).
Qed.

Lemma members_of_class_ids cls (nodes : list SolcMember) :
  omap node_id (flat_map yield_from (members_of_class cls nodes))
  = flat_map (λ n : SolcMember, raw_ids n)
      (filter (λ n, member_class n = cls) nodes).
Proof.
  unfold members_of_class.
  rewrite (list_fmap_compose member_node ir_of_raw), yield_from_ids.
  apply flat_map_fmap.
Qed.

(** The members of the classes [c :: cs] are those of class [c] and those
    of the classes [cs]. *)
Lemma filter_classes_split (c : MemberClass) (cs : list MemberClass)
    (nodes : list SolcMember) :
  c ∉ cs ->
  filter (λ n, member_class n ∈ c :: cs) nodes
  ≡ₚ filter (λ n, member_class n = c) nodes
     ++ filter (λ n, member_class n ∈ cs) nodes.
Proof.
  intros Hc. induction nodes as [|n nodes IH]; [reflexivity|].
  rewrite !filter_cons.
  destruct (decide (member_class n = c)) as [Hn|Hn].
  - rewrite decide_True by (rewrite Hn; left).
    rewrite decide_False by (rewrite Hn; exact Hc).
    simpl. constructor. exact IH.
  - destruct (decide (member_class n ∈ cs)) as [Hin|Hin].
    + rewrite decide_True by (right; exact Hin).
      rewrite IH. apply Permutation_middle.
    + rewrite decide_False; [exact IH|].
      intros [?|?]%elem_of_cons; contradiction.
Qed.

Lemma filter_classes_Permutation (classes : list MemberClass)
    (nodes : list SolcMember) :
  NoDup classes ->
  flat_map (λ cls, flat_map (λ n : SolcMember, raw_ids n)
                     (filter (λ n, member_class n = cls) nodes))
    classes
  ≡ₚ flat_map (λ n : SolcMember, raw_ids n)
       (filter (λ n, member_class n ∈ classes) nodes).
Proof.
  induction 1 as [|c cs Hc _ IH].
  - simpl. induction nodes as [|n nodes IHn]; [reflexivity|].
    rewrite filter_cons, decide_False by (intros Hn; inversion Hn).
    exact IHn.
  - cbn [flat_map]. rewrite IH, <- flat_map_app.
    apply Permutation_flat_map. symmetry. apply filter_classes_split, Hc.
Qed.

(** Every element of [contract.nodes] is of one of the nine classes. *)
Lemma filter_member_classes (nodes : list SolcMember) :
  filter (λ n, member_class n ∈ member_classes) nodes = nodes.
Proof.
  induction nodes as [|n nodes IH]; [reflexivity|].
  rewrite filter_cons, decide_True, IH; [reflexivity|].
  unfold member_classes. destruct (member_class n); set_solver.
Qed.

(** X18: iterating a freshly constructed contract visits exactly the nodes
    that the constructor registered, each once.  The nodes of the
    traversal that have an ID (all but the Yul nodes, which have none and
    are not registered) have pairwise distinct IDs; these are the IDs the
    constructor bound (in another order: the traversal takes the specifiers
    before the documentation and groups the members by class); and each is
    bound in the session. *)
Theorem constructed_contract_iterates_registered_nodes
    (init : IrInitTuple) (contract : SolcContractDefinition)
    (source_unit : AstNodeId) (st : State) (self : loc) (st' : State) :
  __init__ init contract source_unit st = Ok (self, st') ->
  exists c,
    heap st' !! self = Some c
    /\ omap node_id (__iter__ c) ≡ₚ contract_ids contract
    /\ NoDup (omap node_id (__iter__ c))
    /\ forall x i,
         x ∈ __iter__ c -> node_id x = Some i ->
         is_Some (nodes_by_id st' !! (init_cu_hash init, i)).
Proof.
  intros H.
  destruct (init_binds_contract_ids init contract source_unit st)
    as (Hiff & Hbound).
  destruct (proj1 Hiff (ex_intro _ self (ex_intro _ st' H))) as [[Hnd _] _].
  specialize (Hbound self st' H).
  apply init_object_fields in H
    as (c & Hc & Hast & Hrec & _ & _ & _ & _ & _ & _ & Hdoc & Hbases & _
        & H1 & H2 & H3 & H4 & H5 & H6 & H7 & H8 & H9).
  unfold documentation, base_contracts, enums, errors, events, functions,
    modifiers, structs, user_defined_value_types, using_for_directives,
    declared_variables in *.
  assert (Hperm : omap node_id (__iter__ c) ≡ₚ contract_ids contract).
  { unfold __iter__.
    rewrite Hdoc, Hbases, H1, H2, H3, H4, H5, H6, H7, H8, H9.
    rewrite !omap_app.
    rewrite !members_of_class_ids, specifier_ids_of_raw,
      (documentation_iter_ids _ Hrec).
    cbn [omap list_omap node_id]. rewrite Hast. unfold contract_ids.
    constructor.
    rewrite !(app_assoc (flat_map specifier_ids _)).
    rewrite !(app_assoc (documentation_ids _)).
    apply Permutation_app; [apply Permutation_app_comm|].
    rewrite <- (filter_member_classes (sc_nodes contract)) at 10.
    rewrite <- (filter_classes_Permutation member_classes).
    - simpl. rewrite app_nil_r. reflexivity.
    - unfold member_classes. by_computation. }
  exists c. split_and!; [exact Hc | exact Hperm | |].
  - rewrite Hperm. exact Hnd.
  - intros x i Hx Hi.
    assert (Hin : i ∈ contract_ids contract).
    { rewrite <- Hperm. apply list_elem_of_omap. eauto. }
    destruct (nodes_by_id st' !! (init_cu_hash init, i)) eqn:Hn;
      [eauto|].
    apply Hbound in Hn as [_ Hn]. contradiction.
Qed.

End iteration_of_constructed.

Lemma constructed_contract_iterates_registered_nodes_witness :
  exists c st',
    ContractDefinition.__init__ (example_init "A.sol" "contract B {}")
      contract_with_members 0 empty_session = Ok (0, st')
    /\ heap st' !! 0 = Some c
    /\ NoDup (omap node_id (ContractDefinition.__iter__ c))
    /\ length (ContractDefinition.__iter__ c) = 11
    /\ contract_ids contract_with_members = [1; 5; 6; 7; 8; 9]%Z.
Proof.
  assert (H : ContractDefinition.__init__
                (example_init "A.sol" "contract B {}")
                contract_with_members 0 empty_session
              = Ok (0, session_of
                         (construct_unit
                            [(example_init "A.sol" "contract B {}",
                              contract_with_members, 0%Z)]
                            empty_session)))
    by (vm_compute; reflexivity).
  destruct (constructed_contract_iterates_registered_nodes _ _ _ _ _ _ H)
    as (c & Hc & _ & Hnd & _).
  exists c. eexists. split; [exact H|]. split; [exact Hc|].
  split; [exact Hnd|].
  assert (Hc' : heap (session_of
                        (construct_unit
                           [(example_init "A.sol" "contract B {}",
                             contract_with_members, 0%Z)]
                           empty_session)) !! 0 = Some c) by exact Hc.
  vm_compute in Hc'. injection Hc' as <-.
  split; vm_compute; reflexivity.
Defined.

(* ================================================================== *)
(** * Running a post-process callback twice *)

Section post_process_twice.
Import ContractDefinition.

Lemma same_but_children_file c c' :
  same_but_children c c' -> _file c' = _file c.
Proof. intros H. apply (f_equal _file) in H. simpl in H. congruence. Qed.

(** A destroy callback with a base cannot return twice in a row. *)
Lemma destroy_twice_raises self bases st st1 :
  bases <> [] ->
  __destroy self bases st = Ok st1 ->
  __destroy self bases st1 = Raise KeyError.
Proof.
  intros Hne H1.
  destruct (__destroy self bases st1) as [st2|e] eqn:H2.
  - exfalso. destruct bases as [|b bases]; [contradiction|].
    apply destroy_Ok_inv in H2 as [_ Hin].
    specialize (Hin b ltac:(left)).
    rewrite (destroy_children _ _ _ _ b H1) in Hin.
    rewrite decide_True in Hin by left. set_solver.
  - rewrite (destroy_raises _ _ _ _ H2). reflexivity.
Qed.

(** X19: [__post_process] is idempotent on the child sets but not on the
    destroy queue.  Run a second time for the same contract it returns and
    leaves every object as the first run left it, yet registers the same
    destroy callback once more; if the contract has a base, invalidating
    its file then raises KeyError, because the second copy of the callback
    finds the contract already removed. *)
Theorem post_process_twice_breaks_invalidation
    (self : loc) (c : ContractDefinition) (st st1 : State) :
  heap st !! self = Some c ->
  __post_process self st = Ok st1 ->
  exists st2,
    __post_process self st1 = Ok st2
    /\ heap st2 = heap st1
    /\ default [] (destroy_queue st2 !! _file c)
       = default [] (destroy_queue st !! _file c)
         ++ [ {| destroy_self := self;
                 destroy_base_contracts := resolved_bases st c |};
              {| destroy_self := self;
                 destroy_base_contracts := resolved_bases st c |} ]
    /\ (__base_contracts c <> [] ->
        invalidate (_file c) st2 = Raise KeyError).
Proof.
  intros Hc H1.
  pose proof (post_process_agree _ _ _ H1) as ([Hn1 Hobj1] & _ & _).
  destruct (proj2 (post_process_returns_iff_resolvable self st1)) as [st2 H2].
  { apply (resolvable_agree st st1); [split; assumption|].
    apply post_process_returns_iff_resolvable. eauto. }
  exists st2. split; [exact H2|].
  apply post_process_Ok in H1 as (c0 & Hc0 & Hlen & _ & Hheap1 & Hst1).
  rewrite Hc in Hc0. injection Hc0 as <-.
  apply post_process_Ok in H2 as (c1 & Hc1 & _ & _ & Hheap2 & Hst2).
  destruct (same_objects_Some _ _ _ _ Hobj1 Hc) as (c1' & Hc1' & Hsame).
  rewrite Hc1 in Hc1'. injection Hc1' as <-.
  rewrite (resolved_bases_agree st st1 c c1 Hn1 Hsame) in Hheap2, Hst2.
  rewrite (same_but_children_file _ _ Hsame) in Hst2.
  assert (Hheap : heap st2 = heap st1).
  { apply map_eq. intros l. rewrite Hheap2, Hheap1.
    destruct (decide (l ∈ resolved_bases st c)); [|reflexivity].
    destruct (heap st !! l); simpl; [|reflexivity].
    rewrite link_idemp. reflexivity. }
  assert (Hq1 : destroy_queue st1 !! _file c
                = Some (default [] (destroy_queue st !! _file c)
                        ++ [{| destroy_self := self;
                               destroy_base_contracts :=
                                 resolved_bases st c |}])).
  { rewrite Hst1. simpl. apply lookup_insert_eq. }
  assert (Hq2 : destroy_queue st2 !! _file c
                = Some ((default [] (destroy_queue st !! _file c)
                         ++ [{| destroy_self := self;
                                destroy_base_contracts :=
                                  resolved_bases st c |}])
                        ++ [{| destroy_self := self;
                               destroy_base_contracts :=
                                 resolved_bases st c |}])).
  { rewrite Hst2. simpl. rewrite Hq1. apply lookup_insert_eq. }
  split_and!.
  - exact Hheap.
  - rewrite Hq2. simpl. rewrite <- app_assoc. reflexivity.
  - intros Hbases. unfold invalidate. rewrite Hq2. simpl.
    rewrite <- app_assoc.
    assert (Hne : resolved_bases st c <> []).
    { intros Hnil. rewrite Hnil in Hlen.
      destruct (__base_contracts c); [contradiction | discriminate]. }
    destruct (run_destroy_callbacks _ st2) as [s|e] eqn:Hrun;
      [|rewrite (run_destroy_callbacks_raises _ _ _ Hrun); reflexivity].
    exfalso. rewrite run_destroy_callbacks_app in Hrun.
    inv_bind Hrun. simpl in Hrun. inv_bind Hrun. inv_bind Hrun.
    rewrite (destroy_twice_raises _ _ _ _ Hne Ha0) in Ha1. discriminate.
Qed.

End post_process_twice.

Lemma post_process_twice_breaks_invalidation_witness :
  exists st2,
    ContractDefinition.__post_process 1 session_B_C_after_C = Ok st2
    /\ heap st2 = heap session_B_C_after_C
    /\ invalidate "A.sol" st2 = Raise KeyError.
Proof.
  assert (Hc : exists c, heap session_B_C_before_C !! 1 = Some c
                         /\ _file c = "A.sol"
                         /\ __base_contracts c <> []).
  { eexists. split; [vm_compute; reflexivity|].
    split; [vm_compute; reflexivity | discriminate]. }
  destruct Hc as (c & Hc & Hf & Hb).
  destruct (post_process_twice_breaks_invalidation
              1 c session_B_C_before_C session_B_C_after_C Hc
              ltac:(vm_compute; reflexivity))
    as (st2 & H2 & Hheap & _ & Hinv).
  exists st2. rewrite <- Hf. auto.
Defined.

(* ================================================================== *)
(** * Post-processing a unit, and rebuilding a contract *)

Section unit_results.
Import ContractDefinition.

(** X20: post-processing a freshly constructed compilation unit returns
    exactly when every inheritance specifier of every contract of the
    session refers to a contract of the session. *)
Theorem post_processing_returns_iff_every_specifier_resolves
    (unit : list (IrInitTuple * SolcContractDefinition * AstNodeId))
    (st0 : State) :
  construct_unit unit empty_session = Ok st0 ->
  ((exists st1, run_post_process st0 = Ok st1) <->
   forall C c spec,
     heap st0 !! C = Some c -> spec ∈ __base_contracts c ->
     exists b, resolves_to st0 (_cu_hash c) spec = Some b
               /\ is_Some (heap st0 !! b)).
Proof.
  intros Hunit.
  pose proof (construct_unit_constructed _ _ _ empty_session_constructed Hunit)
    as Hst0.
  unfold run_post_process. split.
  - intros [st1 H]. inv_bind H. intros C c spec Hc Hspec.
    destruct (run_callbacks_resolvable _ _ _ Ha C) as (c' & Hc' & Hall).
    { apply (constructed_queue_heap _ Hst0). eauto. }
    rewrite Hc in Hc'. injection Hc' as <-. exact (Hall spec Hspec).
  - intros Hall.
    destruct (run_callbacks_returns (post_process_queue st0) st0) as [st1 H1].
    { intros C HC. apply (constructed_queue_heap _ Hst0) in HC as [c Hc].
      exists c. split; [exact Hc|]. intros spec Hspec.
      exact (Hall C c spec Hc Hspec). }
    rewrite H1. simpl. eauto.
Qed.

Lemma binds_for_file_ext file run run' :
  (forall st, run st = run' st) ->
  binds_for_file file run -> binds_for_file file run'.
Proof. intros Heq H st st'. rewrite <- (Heq st). apply H. Qed.

Lemma binds_for_file_check file (ok : bool) e :
  binds_for_file file (λ st, if ok then Ok st else Raise e).
Proof. intros st st'. destruct ok; [|intros [=]]. intros [= <-] k r. auto. Qed.

Lemma binds_for_file_register file cu id node :
  binds_for_file file (ReferenceResolver.register_node cu id file node).
Proof.
  intros st st'. unfold ReferenceResolver.register_node.
  destruct (nodes_by_id st !! (cu, id)); [intros [=]|]. intros [= <-] k r.
  simpl. rewrite lookup_insert.
  destruct (decide ((cu, id) = k)); [intros [= <-]; right; reflexivity|].
  auto.
Qed.

Lemma binds_for_file_seq file run1 run2 :
  binds_for_file file run1 -> binds_for_file file run2 ->
  binds_for_file file (λ st, st1 ← run1 st; run2 st1).
Proof.
  intros H1 H2 st st' H. inv_bind H. intros k r Hk.
  destruct (H2 _ _ H k r Hk) as [Hk1|?]; [|right; assumption].
  exact (H1 _ _ Ha k r Hk1).
Qed.

Lemma binds_for_file_each {A B} file (f : A -> State -> result (B * State))
    (l : list A) :
  Forall (λ a, binds_for_file file (λ st, outcome (f a st))) l ->
  binds_for_file file (λ st, outcome (construct_each f l st)).
Proof.
  induction 1 as [|a l Ha _ IH].
  - intros st st' [= <-] k r. auto.
  - refine (binds_for_file_ext _ _ _ _ (binds_for_file_seq _ _ _ Ha IH)).
    intros st. simpl. destruct (f a st) as [[b st1]|e]; simpl; [|reflexivity].
    destruct (construct_each f l st1) as [[bs st2]|e]; reflexivity.
Qed.

Lemma construct_binds_for_file init raw :
  binds_for_file (init_file init) (λ st, outcome (construct init raw st)).
Proof.
  induction raw as [cls id nodes IH | cls nodes IH
                    | expression cases IHe IHc | e]
    using SolcNode_nested_ind.
  - refine (binds_for_file_ext _ _ _ _
              (binds_for_file_seq _ _ _
                 (binds_for_file_register _ (init_cu_hash init) id
                    (RefIr (ir_class cls)))
                 (binds_for_file_each _ (construct init) nodes IH))).
    intros st. rewrite construct_Solc.
    destruct (ReferenceResolver.register_node _ _ _ _ st) as [st0|e0]; simpl;
      [|reflexivity].
    destruct (construct_each (construct init) nodes st0) as [[cs st1]|e0];
      reflexivity.
  - refine (binds_for_file_ext _ _ _ _
              (binds_for_file_each _ (construct init) nodes IH)).
    intros st. rewrite construct_Yul.
    destruct (construct_each (construct init) nodes st) as [[cs st1]|e0];
      reflexivity.
  - refine (binds_for_file_ext _ _ _ _
              (binds_for_file_seq _ _ _
                 (binds_for_file_check _
                    (bool_decide (solc_class expression
                                  ∈ switch_expression_classes))
                    AssertionError)
                 (binds_for_file_seq _ _ _ IHe
                    (binds_for_file_each _ (construct init) cases IHc)))).
    intros st. rewrite construct_switch, Switch_init_outcome. reflexivity.
  - exact (binds_for_file_check _ false e).
Qed.

Lemma init_session_steps_binds_for_file init contract self :
  binds_for_file (init_file init) (init_session_steps init contract self).
Proof.
  unfold init_session_steps.
  apply (binds_for_file_seq _ _ _ (binds_for_file_register _ _ _ _)).
  apply binds_for_file_seq; [|apply binds_for_file_seq].
  - unfold init_documentation.
    destruct (sc_documentation contract) as [|s|n|z].
    + exact (binds_for_file_check _ true TypeError).
    + exact (binds_for_file_check _ true TypeError).
    + destruct (isinstance n SolcStructuredDocumentation).
      * refine (binds_for_file_ext _ _ _ _ (construct_binds_for_file init n)).
        intros st. destruct (construct init n st) as [[d st1]|e]; reflexivity.
      * exact (binds_for_file_check _ false TypeError).
    + exact (binds_for_file_check _ false TypeError).
  - apply binds_for_file_each, Forall_forall. intros raw _.
    refine (binds_for_file_ext _ _ _ _
              (binds_for_file_seq _ _ _
                 (binds_for_file_register _ (init_cu_hash init) (sis_id raw)
                    (RefIr (IrOtherClass
                              (SolcOtherClass "InheritanceSpecifier"))))
                 (binds_for_file_each _ (construct init) (sis_nodes raw) _))).
    + intros st. unfold InheritanceSpecifier___init__.
      destruct (ReferenceResolver.register_node _ _ _ _ st) as [st0|e]; simpl;
        [|reflexivity].
      destruct (construct_each (construct init) (sis_nodes raw) st0)
        as [[cs st1]|e]; reflexivity.
    + apply Forall_forall. intros n _. apply construct_binds_for_file.
  - refine (binds_for_file_ext _ _ _ _
              (binds_for_file_each _ (λ n : SolcMember, construct init n)
                 (sc_nodes contract) _)).
    + intros st. symmetry. apply add_members_outcome.
    + apply Forall_forall. intros n _. apply construct_binds_for_file.
Qed.

(** X21: a contract that was constructed can be constructed again once its
    file has been invalidated.  Whatever was constructed and post-processed
    in between, the invalidation of the file frees every ID that the
    constructor had bound, and the constructor returns again on the same raw
    contract. *)
Theorem contract_can_be_rebuilt_after_invalidation
    (init : IrInitTuple) (contract : SolcContractDefinition)
    (source_unit : AstNodeId) (st : State) (self : loc)
    (st1 st2 st3 : State) :
  __init__ init contract source_unit st = Ok (self, st1) ->
  nodes_by_id st1 ⊆ nodes_by_id st2 ->
  invalidate (init_file init) st2 = Ok st3 ->
  (forall i, i ∈ contract_ids contract ->
     nodes_by_id st3 !! (init_cu_hash init, i) = None)
  /\ exists self' st4,
       __init__ init contract source_unit st3 = Ok (self', st4).
Proof.
  intros H Hsub Hinv.
  destruct (init_binds_contract_ids init contract source_unit st)
    as (Hiff & Hbound).
  destruct (proj1 Hiff (ex_intro _ self (ex_intro _ st1 H)))
    as [[Hnd Hfree] Hwf].
  specialize (Hbound self st1 H).
  assert (Htag : forall k r,
             nodes_by_id st1 !! k = Some r ->
             nodes_by_id st !! k = Some r \/ reg_file r = init_file init).
  { pose proof (init_session_steps_spec init contract source_unit st) as Hspec.
    pose proof (init_session_steps_binds_for_file init contract
                  (fresh (dom (heap st))) st) as Hfile.
    destruct (init_session_steps init contract (fresh (dom (heap st))) st)
      as [st4|e]; [|congruence].
    destruct Hspec as (st' & Hinit & Hn). rewrite Hinit in H.
    injection H as _ <-. rewrite Hn. exact (Hfile st4 eq_refl). }
  assert (Hfreed : forall i, i ∈ contract_ids contract ->
                     nodes_by_id st3 !! (init_cu_hash init, i) = None).
  { intros i Hi. unfold invalidate in Hinv. inv_bind Hinv.
    injection Hinv as <-. simpl.
    apply run_destroy_callbacks_Ok in Ha as (Hfr & _). rewrite Hfr. simpl.
    apply map_lookup_filter_None. right. intros r Hr. simpl. intros Hne.
    destruct (nodes_by_id st1 !! (init_cu_hash init, i)) as [r1|] eqn:Hr1.
    - pose proof (lookup_weaken _ _ _ _ Hr1 Hsub) as Hr2.
      rewrite Hr in Hr2. injection Hr2 as ->.
      destruct (Htag _ _ Hr1) as [Hold|Hfile]; [|contradiction].
      rewrite (Hfree i Hi) in Hold. discriminate.
    - apply Hbound in Hr1 as [_ Hnot]. contradiction. }
  split; [exact Hfreed|].
  apply (proj1 (init_binds_contract_ids init contract source_unit st3)).
  split; [split; assumption | exact Hwf].
Qed.

End unit_results.

Lemma post_processing_returns_iff_every_specifier_resolves_witness :
  construct_unit unit_B_C_D empty_session = Ok session_B_C_D
  /\ exists st1, run_post_process session_B_C_D = Ok st1.
Proof.
  assert (H : construct_unit unit_B_C_D empty_session = Ok session_B_C_D)
    by (vm_compute; reflexivity).
  split; [exact H|].
  apply (proj2 (post_processing_returns_iff_every_specifier_resolves
                  unit_B_C_D session_B_C_D H)).
  intros C c spec Hc Hspec.
  apply (proj1 (post_processing_returns_iff_every_specifier_resolves
                  unit_B_C_D session_B_C_D H)
           ltac:(eexists; vm_compute; reflexivity) C c spec Hc Hspec).
Defined.

Lemma contract_can_be_rebuilt_after_invalidation_witness :
  exists self' st4,
    invalidate "B.sol" session_X_Y_resolved = Ok session_X_Y_invalidated
    /\ ContractDefinition.__init__ (example_init "B.sol" "contract Y is X {}")
         (example_contract 2 "Y" 0 18 [(3, 1)%Z] [2; 1]%Z) 10
         session_X_Y_invalidated = Ok (self', st4).
Proof.
  assert (Hinv : invalidate "B.sol" session_X_Y_resolved
                 = Ok session_X_Y_invalidated) by (vm_compute; reflexivity).
  destruct (contract_can_be_rebuilt_after_invalidation
              (example_init "B.sol" "contract Y is X {}")
              (example_contract 2 "Y" 0 18 [(3, 1)%Z] [2; 1]%Z) 10
              (session_of (construct_unit (take 1 unit_X_Y) empty_session))
              1 session_X_Y session_X_Y_resolved session_X_Y_invalidated)
    as (_ & self' & st4 & H4).
  - vm_compute. reflexivity.
  - assert (Heq : nodes_by_id session_X_Y_resolved = nodes_by_id session_X_Y)
      by (vm_compute; reflexivity).
    rewrite Heq. reflexivity.
  - exact Hinv.
  - exists self', st4. auto.
Defined.
